(** * Onboarder: dependency graph, layout pins, regions and click handling

    A shallow embedding of the TypeScript sources of the extension
    (DependencyService.ts, RegexParser.ts, Layout.ts, HullGenerator.ts,
    Renderer.ts, InputManager.ts, GraphEngine.ts) and the properties proved
    about them.

    Conventions.
    - A JavaScript string is a [string]; each [ascii] is read as one UTF-16
      code unit below 256.  Where the code does arithmetic on code units
      ([charCodeAt]) the functions are also given on [list Z], so that they
      cover every code unit.
    - [Map<string, _>] is a [gmap string _]; a [Set<string>] that is later
      turned into an array is a duplicate-free list in insertion order.
    - An object literal used as a dictionary keeps its own properties and
      falls back to the names it inherits from [Object.prototype].
    - Numbers of the layout (coordinates) are kept abstract ([JSNumber]);
      time stamps ([Date.now()]) and the 32-bit hash are in [Z]. *)

From Stdlib Require Import ZArith Lia List String Ascii Bool Permutation QArith.
From stdpp Require Import base option list gmap strings pretty sorting.
Import ListNotations.

Local Open Scope string_scope.
Local Open Scope list_scope.
Local Open Scope Z_scope.

(** ** JavaScript primitives *)

Module JS.

(** [ToInt32]: the operand conversion of the bitwise operators. *)
Definition ToInt32 (z : Z) : Z := (z + 2 ^ 31) mod 2 ^ 32 - 2 ^ 31.

(** [a << n] on numbers that hold integers. *)
Definition shl (a n : Z) : Z := ToInt32 (Z.shiftl (ToInt32 a) (n mod 32)).

(** [a & b] on numbers that hold integers. *)
Definition band (a b : Z) : Z := ToInt32 (Z.land (ToInt32 a) (ToInt32 b)).

(** [s.charCodeAt(i)] for every index of [s], in order. *)
Definition charCodes (s : string) : list Z :=
  map (fun c => Z.of_N (N_of_ascii c)) (list_ascii_of_string s).

(** One hexadecimal digit, lower case, as [Number.prototype.toString(16)]
    writes it. *)
Definition hexDigit (d : Z) : ascii :=
  if d <? 10 then ascii_of_N (Z.to_N (48 + d)) else ascii_of_N (Z.to_N (87 + d)).

Fixpoint hexDigits (fuel : nat) (n : Z) : list ascii :=
  match fuel with
  | O => [hexDigit (n mod 16)]
  | S fuel' =>
      if n <? 16 then [hexDigit n]
      else hexDigits fuel' (n / 16) ++ [hexDigit (n mod 16)]
  end.

(** The value of a hexadecimal digit and of a string of them. *)
Definition hexDigitValue (c : ascii) : Z :=
  let n := Z.of_N (N_of_ascii c) in
  if n <? 58 then n - 48 else n - 87.

Definition hexValue (ds : list ascii) : Z :=
  fold_left (fun v c => 16 * v + hexDigitValue c) ds 0.

(** [n.toString(16)] for an integer [n]; the fuel given is enough for all
    the digits of [n]. *)
Definition toString16 (n : Z) : string :=
  if n <? 0
  then String "-" (string_of_list_ascii (hexDigits (Z.to_nat (Z.log2 (- n))) (- n)))
  else string_of_list_ascii (hexDigits (Z.to_nat (Z.log2 n)) n).

Definition upperChar (c : ascii) : ascii :=
  let n := N_of_ascii c in
  if ((97 <=? n) && (n <=? 122))%N then ascii_of_N (n - 32) else c.

(** The capital letters below 256 are [A-Z] and, in Latin-1, 192 to 222
    but for the multiplication sign 215. *)
Definition lowerChar (c : ascii) : ascii :=
  let n := N_of_ascii c in
  if ((65 <=? n) && (n <=? 90) || (192 <=? n) && (n <=? 222) && negb (n =? 215))%N
  then ascii_of_N (n + 32) else c.

(** [s.toLowerCase()] on code units below 256, and [s.toUpperCase()] on
    the digits and letters [toString(16)] writes. *)
Definition toUpperCase (s : string) : string :=
  string_of_list_ascii (map upperChar (list_ascii_of_string s)).

Definition toLowerCase (s : string) : string :=
  string_of_list_ascii (map lowerChar (list_ascii_of_string s)).

(** [s.substring(a, b)]: both ends are clamped to [0, s.length] and
    swapped when out of order. *)
Definition substring (s : string) (a b : Z) : string :=
  let len := Z.of_nat (String.length s) in
  let a' := Z.min (Z.max a 0) len in
  let b' := Z.min (Z.max b 0) len in
  let lo := Z.min a' b' in
  let hi := Z.max a' b' in
  String.substring (Z.to_nat lo) (Z.to_nat (hi - lo)) s.

(** [s.startsWith(p)]. *)
Definition startsWith (p s : string) : bool := String.prefix p s.

(** The names every object literal inherits from [Object.prototype]; each
    holds a function or an object, hence a truthy value. *)
Definition objectPrototypeKeys : list string :=
  [ "constructor"; "hasOwnProperty"; "isPrototypeOf"; "propertyIsEnumerable";
    "toLocaleString"; "toString"; "valueOf"; "__proto__";
    "__defineGetter__"; "__defineSetter__"; "__lookupGetter__";
    "__lookupSetter__" ].

Definition inherited (k : string) : bool :=
  bool_decide (k ∈ objectPrototypeKeys).

(** [Set.prototype.add] on a set of strings kept in insertion order. *)
Definition setAdd (x : string) (set : list string) : list string :=
  if bool_decide (x ∈ set) then set else set ++ [x].

End JS.

(** ** GraphEngine.getColor *)

Module Color.

(** The loop body [hash = str.charCodeAt(i) + ((hash << 5) - hash)]. *)
Definition hashStep (hash c : Z) : Z := c + (JS.shl hash 5 - hash).

Definition hashOf (codes : list Z) : Z := fold_left hashStep codes 0.

(** [const c = (hash & 0x00FFFFFF).toString(16).toUpperCase();
    return '#' + '00000'.substring(0, 6 - c.length) + c]. *)
Definition hexColor (hash : Z) : string :=
  let c := JS.toUpperCase (JS.toString16 (JS.band hash 16777215)) in
  "#" +:+ JS.substring "00000" 0 (6 - Z.of_nat (String.length c)) +:+ c.

Definition colorOfCodes (codes : list Z) : string := hexColor (hashOf codes).

Definition isUpperHex (c : ascii) : bool :=
  let n := N_of_ascii c in
  (((48 <=? n) && (n <=? 57)) || ((65 <=? n) && (n <=? 70)))%N.

Definition isLowerHex (c : ascii) : bool :=
  let n := N_of_ascii c in
  (((48 <=? n) && (n <=? 57)) || ((97 <=? n) && (n <=? 102)))%N.

(** ['#'] followed by exactly six upper-case hexadecimal digits. *)
Definition wellFormedColor (s : string) : bool :=
  match list_ascii_of_string s with
  | c :: ds =>
      Ascii.eqb c "#" && (Nat.eqb (List.length ds) 6) && forallb isUpperHex ds
  | [] => false
  end.

End Color.

(** ** Regular expressions, as [RegExp.prototype.exec] matches them *)

Module Regex.

(** The fragment of the pattern syntax the parser uses.  [Star true r] is
    the greedy [r*], [Star false r] the lazy [r*?]; [Grp i r] is the
    capture group number [i]; a non-capturing group needs no node. *)
Inductive re : Type :=
| Chr (c : ascii)
| Cls (p : ascii -> bool)
| Bol
| Seq (r1 r2 : re)
| Alt (r1 r2 : re)
| Star (greedy : bool) (r : re)
| Grp (i : nat) (r : re).

(** [r+] and [r+?]. *)
Definition Plus (greedy : bool) (r : re) : re := Seq r (Star greedy r).

(** The characters of a literal, in sequence. *)
Fixpoint Lit (cs : list ascii) : re :=
  match cs with
  | [] => Star true (Cls (fun _ => false))
  | [c] => Chr c
  | c :: cs' => Seq (Chr c) (Lit cs')
  end.

Definition lit (s : string) : re := Lit (list_ascii_of_string s).

Definition code (c : ascii) : N := N_of_ascii c.

(** [\s], on code units below 256. *)
Definition isSpace (c : ascii) : bool :=
  let n := code c in
  ((9 <=? n) && (n <=? 13) || (n =? 32) || (n =? 160))%N.

(** [.]: anything but a line terminator. *)
Definition isDot (c : ascii) : bool :=
  let n := code c in
  negb ((n =? 10) || (n =? 13))%N.

(** [\w]. *)
Definition isWord (c : ascii) : bool :=
  let n := code c in
  ((48 <=? n) && (n <=? 57) || (65 <=? n) && (n <=? 90)
   || (97 <=? n) && (n <=? 122) || (n =? 95))%N.

Definition oneOf (s : string) (c : ascii) : bool :=
  existsb (Ascii.eqb c) (list_ascii_of_string s).

Definition anyChar (_ : ascii) : bool := true.

(** The captures of a match: group number and captured text. *)
Definition captures : Type := list (nat * list ascii).

Definition capture (i : nat) (cs : captures) : option (list ascii) :=
  snd <$> List.find (fun p => Nat.eqb (fst p) i) cs.

(** Backtracking matcher in continuation-passing style.  [pos] is the
    index of the next character, [s] the rest of the input; the
    continuation receives the position, the rest and the captures after
    the match of [r].  An iteration of a star that consumes nothing is
    rejected, as the language specifies. *)
Fixpoint matchRe {A : Type} (r : re) (pos : nat) (s : list ascii) (cs : captures)
    (k : nat -> list ascii -> captures -> option A) {struct r} : option A :=
  match r with
  | Chr c =>
      match s with
      | x :: s' => if Ascii.eqb x c then k (S pos) s' cs else None
      | [] => None
      end
  | Cls p =>
      match s with
      | x :: s' => if p x then k (S pos) s' cs else None
      | [] => None
      end
  | Bol => if Nat.eqb pos 0 then k pos s cs else None
  | Seq r1 r2 => matchRe r1 pos s cs (fun pos' s' cs' => matchRe r2 pos' s' cs' k)
  | Alt r1 r2 =>
      match matchRe r1 pos s cs k with
      | Some a => Some a
      | None => matchRe r2 pos s cs k
      end
  | Star greedy r1 =>
      (fix loop (fuel : nat) (pos : nat) (s : list ascii) (cs : captures)
         : option A :=
         let more :=
           match fuel with
           | O => None
           | S fuel' =>
               matchRe r1 pos s cs (fun pos' s' cs' =>
                 if Nat.ltb (List.length s') (List.length s)
                 then loop fuel' pos' s' cs' else None)
           end in
         if greedy
         then match more with Some a => Some a | None => k pos s cs end
         else match k pos s cs with Some a => Some a | None => more end)
        (List.length s) pos s cs
  | Grp i r1 =>
      matchRe r1 pos s cs (fun pos' s' cs' =>
        k pos' s' ((i, firstn (pos' - pos) s) :: cs'))
  end.

(** A match: the index just after it and its captures. *)
Definition matchAt (r : re) (pos : nat) (s : list ascii) : option (nat * captures) :=
  matchRe r pos s [] (fun pos' _ cs => Some (pos', cs)).

(** The leftmost match at or after [pos]; [s] is the input from [pos] on. *)
Fixpoint search (r : re) (pos : nat) (s : list ascii) : option (nat * captures) :=
  match matchAt r pos s with
  | Some m => Some m
  | None =>
      match s with
      | [] => None
      | _ :: s' => search r (S pos) s'
      end
  end.

(** [while ((match = re.exec(content)) !== null) body(match)] for a
    pattern with the [g] flag: each search starts at [lastIndex], the end
    of the previous match.  [fuel] bounds the number of matches; a
    pattern that matches the empty string would not advance. *)
Fixpoint execAll {St : Type} (fuel : nat) (r : re) (content : list ascii)
    (lastIndex : nat) (body : captures -> St -> St) (st : St) : St :=
  match fuel with
  | O => st
  | S fuel' =>
      match search r lastIndex (skipn lastIndex content) with
      | Some (lastIndex', cs) => execAll fuel' r content lastIndex' body (body cs st)
      | None => st
      end
  end.

(** [re.exec(s)] for a pattern without the [g] flag. *)
Definition exec (r : re) (s : list ascii) : option captures :=
  snd <$> search r 0 s.

(** The loop of a star by itself, [step] being the match of one
    iteration: [matchRe (Star greedy r)] is this loop around [matchRe r]. *)
Definition starLoop {A : Type}
    (step : nat -> list ascii -> captures ->
            (nat -> list ascii -> captures -> option A) -> option A)
    (greedy : bool) (k : nat -> list ascii -> captures -> option A)
    : nat -> nat -> list ascii -> captures -> option A :=
  fix loop (fuel : nat) (pos : nat) (s : list ascii) (cs : captures) : option A :=
    let more :=
      match fuel with
      | O => None
      | S fuel' =>
          step pos s cs (fun pos' s' cs' =>
            if Nat.ltb (List.length s') (List.length s)
            then loop fuel' pos' s' cs' else None)
      end in
    if greedy
    then match more with Some a => Some a | None => k pos s cs end
    else match k pos s cs with Some a => Some a | None => more end.

(** The words a pattern denotes, positions and captures apart. *)
Fixpoint lang (r : re) (w : list ascii) : Prop :=
  match r with
  | Chr c => w = [c]
  | Cls p => exists x, w = [x] /\ p x = true
  | Bol => w = []
  | Seq r1 r2 => exists w1 w2, w = w1 ++ w2 /\ lang r1 w1 /\ lang r2 w2
  | Alt r1 r2 => lang r1 w \/ lang r2 w
  | Star _ r1 => exists ws, w = concat ws /\ Forall (lang r1) ws
  | Grp _ r1 => lang r1 w
  end.

(** A pattern that cannot match the empty word, read off its shape. *)
Fixpoint nonEmpty (r : re) : bool :=
  match r with
  | Chr _ | Cls _ => true
  | Bol | Star _ _ => false
  | Seq r1 r2 => nonEmpty r1 || nonEmpty r2
  | Alt r1 r2 => nonEmpty r1 && nonEmpty r2
  | Grp _ r1 => nonEmpty r1
  end.

(** A pattern with a capture group in it. *)
Fixpoint hasGroup (r : re) : bool :=
  match r with
  | Chr _ | Cls _ | Bol => false
  | Seq r1 r2 | Alt r1 r2 => hasGroup r1 || hasGroup r2
  | Star _ r1 => hasGroup r1
  | Grp _ _ => true
  end.

End Regex.

(** ** RegexParser.parseImports *)

Module RegexParser.
Import Regex.

(** [s.split(sep)] for a one-character separator. *)
Fixpoint split (sep : ascii) (s : list ascii) : list (list ascii) :=
  match s with
  | [] => [[]]
  | c :: s' =>
      if Ascii.eqb c sep then [] :: split sep s'
      else match split sep s' with
           | l :: ls => (c :: l) :: ls
           | [] => [[c]]
           end
  end.

Definition quote : string := String (ascii_of_N 34) EmptyString.
Definition quotes : string := String (ascii_of_N 39) quote.

(** [/from\s+['"](.*?)['"]/g] *)
Definition fromRegex : re :=
  Seq (lit "from") (Seq (Plus true (Cls isSpace))
    (Seq (Cls (oneOf quotes)) (Seq (Grp 1 (Star false (Cls isDot))) (Cls (oneOf quotes))))).

(** [/(?:^|\s)(?:from|import)\s+([\w.]+)/g] *)
Definition pythonRegex : re :=
  Seq (Alt Bol (Cls isSpace)) (Seq (Alt (lit "from") (lit "import"))
    (Seq (Plus true (Cls isSpace))
         (Grp 1 (Plus true (Cls (fun c => isWord c || oneOf "." c)))))).

(** [/import\s+"(.*?)"|import\s+\(\s*([\s\S]*?)\s*\)/g] *)
Definition goRegex : re :=
  Alt (Seq (lit "import") (Seq (Plus true (Cls isSpace))
         (Seq (Cls (oneOf quote)) (Seq (Grp 1 (Star false (Cls isDot))) (Cls (oneOf quote))))))
      (Seq (lit "import") (Seq (Plus true (Cls isSpace))
         (Seq (Chr "(") (Seq (Star true (Cls isSpace))
           (Seq (Grp 2 (Star false (Cls anyChar)))
                (Seq (Star true (Cls isSpace)) (Chr ")"))))))).

(** [/import\s+([\w.]+);/g] *)
Definition javaRegex : re :=
  Seq (lit "import") (Seq (Plus true (Cls isSpace))
    (Seq (Grp 1 (Plus true (Cls (fun c => isWord c || oneOf "." c)))) (Chr ";"))).

(** [/#include\s+["<](.*?)[">]/g] *)
Definition includeRegex : re :=
  Seq (lit "#include") (Seq (Plus true (Cls isSpace))
    (Seq (Cls (oneOf (quote +:+ "<"))) (Seq (Grp 1 (Star false (Cls isDot)))
         (Cls (oneOf (quote +:+ ">")))))).

(** The own properties of the [regexes] table. *)
Definition regexes (languageId : string) : option re :=
  if String.eqb languageId "typescript" then Some fromRegex
  else if String.eqb languageId "typescriptreact" then Some fromRegex
  else if String.eqb languageId "javascript" then Some fromRegex
  else if String.eqb languageId "javascriptreact" then Some fromRegex
  else if String.eqb languageId "python" then Some pythonRegex
  else if String.eqb languageId "go" then Some goRegex
  else if String.eqb languageId "java" then Some javaRegex
  else if String.eqb languageId "cpp" then Some includeRegex
  else if String.eqb languageId "c" then Some includeRegex
  else None.

(** [/import\s+"(.*?)"/g] *)
Definition singleLine : re :=
  Seq (lit "import") (Seq (Plus true (Cls isSpace))
    (Seq (Cls (oneOf quote)) (Seq (Grp 1 (Star false (Cls isDot))) (Cls (oneOf quote))))).

(** [/import\s+\(([\s\S]*?)\)/g] *)
Definition blockRegex : re :=
  Seq (lit "import") (Seq (Plus true (Cls isSpace))
    (Seq (Chr "(") (Seq (Grp 1 (Star false (Cls anyChar))) (Chr ")")))).

(** [/"(.*?)"/] *)
Definition quoteRegex : re :=
  Seq (Cls (oneOf quote)) (Seq (Grp 1 (Star false (Cls isDot))) (Cls (oneOf quote))).

(** [/require\(['"](.*?)['"]\)/g] *)
Definition requireRegex : re :=
  Seq (lit "require(") (Seq (Cls (oneOf quotes))
    (Seq (Grp 1 (Star false (Cls isDot))) (Seq (Cls (oneOf quotes)) (Chr ")")))).

(** [imports.add(match[1])]: the first group always takes part in a
    match of the patterns this is used with. *)
Definition addGroup1 (cs : captures) (imports : list string) : list string :=
  match capture 1 cs with
  | Some t => JS.setAdd (string_of_list_ascii t) imports
  | None => imports
  end.

(** [if (match[1]) imports.add(match[1])]. *)
Definition addGroup1IfTruthy (cs : captures) (imports : list string) : list string :=
  match capture 1 cs with
  | Some (c :: t) => JS.setAdd (string_of_list_ascii (c :: t)) imports
  | _ => imports
  end.

(** The loop over the lines of one import block. *)
Definition addBlock (cs : captures) (imports : list string) : list string :=
  match capture 1 cs with
  | Some blockContent =>
      fold_left (fun imports line =>
                   match exec quoteRegex line with
                   | Some quoteMatch => addGroup1 quoteMatch imports
                   | None => imports
                   end)
                (split (ascii_of_N 10) blockContent) imports
  | None => imports
  end.

Definition isJsTs (languageId : string) : bool :=
  bool_decide (languageId ∈ ["javascript"; "typescript"; "javascriptreact"; "typescriptreact"]).

(** The outcome of the promise [parseImports] returns: the imports, or a
    rejection ([regex.exec] is not a function when [languageId] names a
    property the table inherits). *)
Inductive outcome : Type :=
| Resolved (imports : list string)
| Rejected.

Definition parseImports (content languageId : string) : outcome :=
  let text := list_ascii_of_string content in
  let fuel := S (List.length text) in
  if String.eqb languageId "go" then
    let imports := execAll fuel singleLine text 0 addGroup1 [] in
    Resolved (execAll fuel blockRegex text 0 addBlock imports)
  else
    match regexes languageId with
    | Some regex =>
        let imports := execAll fuel regex text 0 addGroup1IfTruthy [] in
        Resolved (if isJsTs languageId
                  then execAll fuel requireRegex text 0 addGroup1IfTruthy imports
                  else imports)
    | None =>
        if JS.inherited languageId then Rejected
        else Resolved []
    end.

(** An import statement of JavaScript or TypeScript in [text] with the
    quoted path [imported]: [from], white space and the path in quotes, or
    [require(], the path in quotes and [)]. *)
Definition jsImport (text imported : list ascii) : Prop :=
  exists pre q1 q2 post,
    oneOf quotes q1 = true /\ oneOf quotes q2 = true
    /\ ((exists ws, ws <> [] /\ Forall (fun c => isSpace c = true) ws
           /\ text = pre ++ list_ascii_of_string "from" ++ ws
                         ++ q1 :: imported ++ q2 :: post)
        \/ text = pre ++ list_ascii_of_string "require("
                      ++ q1 :: imported ++ q2 :: ")"%char :: post).

(** An import of Go in [text] with the quoted path [imported]: [import],
    white space and the path in double quotes, or the path in double quotes
    on a line of a block [import ( ... )]. *)
Definition goImport (text imported : list ascii) : Prop :=
  exists pre ws post,
    ws <> [] /\ Forall (fun c => isSpace c = true) ws
    /\ (text = pre ++ list_ascii_of_string "import" ++ ws
               ++ ascii_of_N 34 :: imported ++ ascii_of_N 34 :: post
        \/ exists blockContent line before after,
             text = pre ++ list_ascii_of_string "import" ++ ws
                    ++ "("%char :: blockContent ++ ")"%char :: post
             /\ line ∈ split (ascii_of_N 10) blockContent
             /\ line = before ++ ascii_of_N 34 :: imported ++ ascii_of_N 34 :: after).

(** An import of Python in [text] with the module [imported]: at the
    start of the text or after a white space character, [from] or [import],
    white space, and the module. *)
Definition pythonImport (text imported : list ascii) : Prop :=
  exists pre keyword ws post,
    (pre = [] \/ exists pre' c, pre = pre' ++ [c] /\ isSpace c = true)
    /\ (keyword = "from" \/ keyword = "import")
    /\ ws <> [] /\ Forall (fun c => isSpace c = true) ws
    /\ text = pre ++ list_ascii_of_string keyword ++ ws ++ imported ++ post.

(** An import of Java in [text] with the name [imported]: [import],
    white space, the name and a semicolon. *)
Definition javaImport (text imported : list ascii) : Prop :=
  exists pre ws post,
    ws <> [] /\ Forall (fun c => isSpace c = true) ws
    /\ text = pre ++ list_ascii_of_string "import" ++ ws ++ imported ++ ";"%char :: post.

(** [import (\n\t"fmt"\n\t"os"\n)] *)
Definition goBlock : string :=
  "import (" +:+ String (ascii_of_N 10) (String (ascii_of_N 9) (quote +:+ "fmt" +:+ quote))
  +:+ String (ascii_of_N 10) (String (ascii_of_N 9) (quote +:+ "os" +:+ quote))
  +:+ String (ascii_of_N 10) ")".

End RegexParser.

(** ** The host: Node's [fs] and [path] modules *)

(** What the extension asks of [fs].  [isFile p] and [isDirectory p] stand
    for [fs.lstatSync(p).isFile()] and [.isDirectory()], which the code
    only calls after [fs.existsSync(p)] answered true; [readFile] is [None]
    when the read fails. *)
Module fs.

Class Host : Type := {
  existsSync : string -> bool;
  isFile : string -> bool;
  isDirectory : string -> bool;
  readFile : string -> option string
}.

End fs.

(** What the extension asks of [path]. *)
Module path.

Class Host : Type := {
  join : list string -> string;
  resolve : string -> string -> string;
  dirname : string -> string;
  basename : string -> string;
  extname : string -> string;
  relative : string -> string -> string;
  sep : string
}.

End path.

(** ** DependencyService *)

Module DependencyService.

Record Uri : Type := { fsPath : string }.

Record NodeData : Type := {
  label : string;
  fullPath : string;
  directory : string
}.

Record Node : Type := {
  nodeId : string;
  position : Z * Z;
  data : NodeData
}.

Record Edge : Type := {
  edgeId : string;
  source : string;
  target : string
}.

Record Config : Type := { languageMapping : gmap string string }.

(** *** resolveImport *)

(** The calls the resolver makes to the file system, in order. *)
Inductive FsCall : Type :=
| ExistsSync (p : string)
| LstatSync (p : string).

(** A computation that probes the file system: its value and the calls
    it made. *)
Record Probe (A : Type) : Type := mkProbe { value : A; calls : list FsCall }.
Arguments mkProbe {A} _ _.
Arguments value {A} _.
Arguments calls {A} _.

(** The path a call asks about. *)
Definition callPath (c : FsCall) : string :=
  match c with
  | ExistsSync p => p
  | LstatSync p => p
  end.

Definition ret {A : Type} (a : A) : Probe A := mkProbe a [].

Definition bind {A B : Type} (m : Probe A) (f : A -> Probe B) : Probe B :=
  let r := f (value m) in mkProbe (value r) (calls m ++ calls r).

Notation "'let*' x ':=' m 'in' k" := (bind m (fun x => k))
  (at level 10, x name, m at level 100, k at level 200).

Definition extensions : list string :=
  [".ts"; ".tsx"; ".js"; ".jsx"; ".py"; ".go"; ".java";
   "/index.ts"; "/index.js"; "/index.tsx"].

(** [parts.join(separator)]. *)
Fixpoint joinWith (separator : string) (parts : list string) : string :=
  match parts with
  | [] => ""
  | [p] => p
  | p :: ps => p +:+ separator +:+ joinWith separator ps
  end.

(** [importPath.split('/')]. *)
Definition splitSlash (s : string) : list string :=
  map string_of_list_ascii (RegexParser.split "/" (list_ascii_of_string s)).

(** [parts.slice(i)] for [i = 0, ..., parts.length - 1]. *)
Fixpoint slices (parts : list string) : list (list string) :=
  match parts with
  | [] => []
  | _ :: rest => parts :: slices rest
  end.

Section WithHost.
Context `{F : fs.Host} `{P : path.Host}.

Definition probeExists (p : string) : Probe bool := mkProbe (fs.existsSync p) [ExistsSync p].
Definition probeIsFile (p : string) : Probe bool := mkProbe (fs.isFile p) [LstatSync p].
Definition probeIsDirectory (p : string) : Probe bool :=
  mkProbe (fs.isDirectory p) [LstatSync p].

(** [fs.existsSync(p) && fs.lstatSync(p).isFile()]. *)
Definition existingFile (p : string) : Probe bool :=
  let* e := probeExists p in
  if e then probeIsFile p else ret false.

Definition existingDirectory (p : string) : Probe bool :=
  let* e := probeExists p in
  if e then probeIsDirectory p else ret false.

Fixpoint checkExtensions (candidate : string) (exts : list string)
    (results : list string) : Probe (list string) :=
  match exts with
  | [] => ret results
  | ext :: exts' =>
      let withExt := candidate +:+ ext in
      let* f := existingFile withExt in
      checkExtensions candidate exts' (if f then results ++ [withExt] else results)
  end.

Definition checkFile (candidate : string) : Probe (list string) :=
  let* f := existingFile candidate in
  checkExtensions candidate extensions (if f then [candidate] else []).

Definition checkDir (allFiles : list Uri) (candidate : string) : Probe (list string) :=
  let* d := existingDirectory candidate in
  ret (if d
       then filter (fun f => path.dirname f = candidate) (map fsPath allFiles)
       else []).

(** [hits.push(...checkFile(c)); if (hits.length === 0)
    hits.push(...checkDir(c))]. *)
Definition probeCandidate (allFiles : list Uri) (candidate : string)
    (hits : list string) : Probe (list string) :=
  let* files := checkFile candidate in
  let hits := hits ++ files in
  if Nat.eqb (List.length hits) 0
  then (let* dir := checkDir allFiles candidate in ret (hits ++ dir))
  else ret hits.

(** One turn of the fuzzy loop whose [suffix] is not empty, up to the
    test that breaks out of the loop. *)
Definition fuzzyProbe (allFiles : list Uri) (candidateFuzzy : string)
    (hits : list string) : Probe (list string) :=
  let* e := probeExists candidateFuzzy in
  if e then
    let* d := probeIsDirectory candidateFuzzy in
    if d then
      let* dir := checkDir allFiles candidateFuzzy in
      ret (hits ++ dir)
    else
      let* f := probeIsFile candidateFuzzy in
      ret (if f then hits ++ [candidateFuzzy] else hits)
  else ret hits.

(** The fuzzy loop, over the slices still to try. *)
Fixpoint fuzzyLoop (allFiles : list Uri) (rootPath : string)
    (rest : list (list string)) (hits : list string) : Probe (list string) :=
  match rest with
  | [] => ret hits
  | slice :: rest' =>
      let suffix := joinWith path.sep slice in
      if String.eqb suffix "" then fuzzyLoop allFiles rootPath rest' hits
      else
        let* hits := fuzzyProbe allFiles (path.join [rootPath; suffix]) hits in
        if Nat.ltb 0 (List.length hits) then ret hits
        else fuzzyLoop allFiles rootPath rest' hits
  end.

Definition fuzzyMatch (allFiles : list Uri) (rootPath importPath : string)
    (hits : list string) : Probe (list string) :=
  fuzzyLoop allFiles rootPath (slices (splitSlash importPath)) hits.

Definition resolveImport (importPath sourceFile rootPath : string)
    (allFiles : list Uri) : Probe (list string) :=
  let hits : list string := [] in
  if JS.startsWith "." importPath then
    let absolutePath := path.resolve (path.dirname sourceFile) importPath in
    probeCandidate allFiles absolutePath hits
  else
    let candidateRoot := path.join [rootPath; importPath] in
    let* hits := probeCandidate allFiles candidateRoot hits in
    let* hits :=
      (if Nat.eqb (List.length hits) 0
       then probeCandidate allFiles (path.join [rootPath; "src"; importPath]) hits
       else ret hits) in
    if Nat.eqb (List.length hits) 0
    then fuzzyMatch allFiles rootPath importPath hits
    else ret hits.

(** What a path the resolver returns is: a regular file that exists, or
    a file of the workspace that lies directly in a directory that
    exists. *)
Definition resolvedPath (allFiles : list Uri) (h : string) : Prop :=
  (fs.existsSync h = true /\ fs.isFile h = true)
  \/ (h ∈ map fsPath allFiles
      /\ fs.existsSync (path.dirname h) = true /\ fs.isDirectory (path.dirname h) = true).

(** *** generate *)

(** Step 1: one node per file, numbered in enumeration order. *)
Definition createNode (rootDir : string) (id : string) (file : Uri) : Node :=
  let relativePath := path.relative rootDir (fsPath file) in
  let directory := path.dirname relativePath in
  {| nodeId := id;
     position := (0, 0);
     data := {| label := path.basename (fsPath file);
                fullPath := fsPath file;
                directory := if String.eqb directory "." then "root" else directory |} |}.

Record NodeState : Type := {
  nodes : list Node;
  fileToNodeId : gmap string string;
  nodeIdCounter : nat
}.

Definition addNode (rootDir : string) (st : NodeState) (file : Uri) : NodeState :=
  let id := pretty (nodeIdCounter st) in
  {| nodes := nodes st ++ [createNode rootDir id file];
     fileToNodeId := <[fsPath file := id]> (fileToNodeId st);
     nodeIdCounter := S (nodeIdCounter st) |}.

Definition createNodes (rootDir : string) (files : list Uri) : NodeState :=
  fold_left (addNode rootDir) files
            {| nodes := []; fileToNodeId := ∅; nodeIdCounter := 0 |}.

Definition supported : list string :=
  ["typescript"; "typescriptreact"; "javascript"; "javascriptreact";
   "python"; "go"; "java"].

(** The language of a file: [None] is [undefined]. *)
Definition languageOf (config : Config) (file : Uri) : option string :=
  let ext := JS.toLowerCase (path.extname (fsPath file)) in
  let languageId := JS.toLowerCase <$> (languageMapping config !! ext) in
  let languageId :=
    if bool_decide (languageId = Some "c++") then Some "cpp" else languageId in
  let languageId :=
    if String.eqb ext ".tsx" then Some "typescriptreact" else languageId in
  if String.eqb ext ".jsx" then Some "javascriptreact" else languageId.

Definition mkEdge (sourceId targetId : string) : Edge :=
  {| edgeId := "e" +:+ sourceId +:+ "-" +:+ targetId;
     source := sourceId;
     target := targetId |}.

(** The edges pushed for one resolved path. *)
Definition edgesOfResolved (ids : gmap string string) (sourceId resolvedPath : string)
    : list Edge :=
  match ids !! resolvedPath with
  | Some targetId =>
      if bool_decide (sourceId ≠ targetId) then [mkEdge sourceId targetId] else []
  | None => []
  end.

Definition edgesOfImport (ids : gmap string string) (rootDir : string)
    (files : list Uri) (file : Uri) (sourceId importPath : string) : list Edge :=
  let resolvedPaths := value (resolveImport importPath (fsPath file) rootDir files) in
  flat_map (edgesOfResolved ids sourceId) resolvedPaths.

(** The body of [files.map(async (file) => ...)]: the edges one file
    contributes and the error it records, if any. *)
Definition edgesOfFile (config : Config) (ids : gmap string string)
    (rootDir : string) (files : list Uri) (file : Uri)
    : list Edge * list string :=
  let languageId := languageOf config file in
  if negb (bool_decide (default "" languageId ∈ supported)) then ([], [])
  else
    match fs.readFile (fsPath file) with
    | None => ([], [path.basename (fsPath file)])
    | Some content =>
        match RegexParser.parseImports content (default "" languageId) with
        | RegexParser.Rejected => ([], [path.basename (fsPath file)])
        | RegexParser.Resolved imports =>
            match ids !! fsPath file with
            | None => ([], [])
            | Some sourceId =>
                if String.eqb sourceId "" then ([], [])
                else (flat_map (edgesOfImport ids rootDir files file sourceId) imports, [])
            end
        end
    end.

Record Graph : Type := { graphNodes : list Node; graphEdges : list Edge }.

(** [generate], with the files' bodies run to completion one after the
    other. *)
Definition generate (config : Config) (rootDir : string) (files : list Uri) : Graph :=
  let st := createNodes rootDir files in
  {| graphNodes := nodes st;
     graphEdges :=
       flat_map (fun file => fst (edgesOfFile config (fileToNodeId st) rootDir files file))
                files |}.

(** The [errors] array once every body has run, one after the other; an
    entry stands for the message, which begins with the file's base name. *)
Definition errorsOf (config : Config) (rootDir : string) (files : list Uri) : list string :=
  let st := createNodes rootDir files in
  flat_map (fun file => snd (edgesOfFile config (fileToNodeId st) rootDir files file))
           files.

(** The bodies are asynchronous: each pushes its edges in order, and
    the pushes of different files interleave as their reads complete.
    Every outcome of [generate] has the nodes of the sequential run and
    a rearrangement of its edges. *)
Definition generates (config : Config) (rootDir : string) (files : list Uri)
    (g : Graph) : Prop :=
  graphNodes g = graphNodes (generate config rootDir files)
  /\ Permutation (graphEdges g) (graphEdges (generate config rootDir files)).

End WithHost.

End DependencyService.

(** ** Numbers and the geometry libraries *)

(** The numbers of the layout.  Nothing is assumed of the arithmetic:
    [truthy] is false on zero and on [NaN], [ltb] is [<]. *)
Class JSNumber : Type := {
  num : Type;
  ofZ : Z -> num;
  add : num -> num -> num;
  sub : num -> num -> num;
  div : num -> num -> num;
  hypot : num -> num -> num;
  ltb : num -> num -> bool;
  truthy : num -> bool
}.

Definition point `{JSNumber} : Type := (num * num)%type.

(** d3-delaunay and d3-polygon.  [cellPolygon points bounds i] is
    [Delaunay.from(points).voronoi(bounds).cellPolygon(i)], [None] for
    [null]; [polygonHull points] is [None] for [null]. *)
Class Geometry `{JSNumber} : Type := {
  cellPolygon : list point -> (num * num * num * num) -> nat -> option (list point);
  polygonHull : list point -> option (list point)
}.

(** ** Layout *)

Module Layout.

(** A reference to a node object. *)
Definition ref : Type := nat.

Section WithNumber.
Context `{N : JSNumber}.

(** [fx?: number | null]. *)
Inductive pin : Type :=
| undefined
| null
| fixed (v : num).

(** A node object; [lastClick] is the [_lastClick] property the
    renderer attaches to it. *)
Record GraphNode : Type := {
  id : string;
  label : string;
  directory : string;
  description : option string;
  fullPath : option string;
  x : option num;
  y : option num;
  fx : pin;
  fy : pin;
  lastClick : option Z
}.

(** A link once the simulation has replaced the ids of its ends by the
    node objects. *)
Record GraphLink : Type := { source : ref; target : ref }.

(** The part of the d3 simulation the class drives. *)
Record Simulation : Type := { alphaTarget : Q; running : bool }.

(** The layout, with the store the node objects live in; [nodes] holds
    references, so two entries may be one object. *)
Record t : Type := {
  store : gmap ref GraphNode;
  nodes : list ref;
  links : list GraphLink;
  simulation : Simulation
}.

Definition setPin (fx' fy' : pin) (n : GraphNode) : GraphNode :=
  {| id := id n; label := label n; directory := directory n;
     description := description n; fullPath := fullPath n;
     x := x n; y := y n; fx := fx'; fy := fy'; lastClick := lastClick n |}.

(** A node without its pin: what [dragMove] and [dragEnd] leave alone. *)
Definition unpinned (n : GraphNode) : GraphNode := setPin undefined undefined n.

Definition setLastClick (now : Z) (n : GraphNode) : GraphNode :=
  {| id := id n; label := label n; directory := directory n;
     description := description n; fullPath := fullPath n;
     x := x n; y := y n; fx := fx n; fy := fy n; lastClick := Some now |}.

Definition withStore (st : gmap ref GraphNode) (l : t) : t :=
  {| store := st; nodes := nodes l; links := links l; simulation := simulation l |}.

Definition withSimulation (s : Simulation) (l : t) : t :=
  {| store := store l; nodes := nodes l; links := links l; simulation := s |}.

(** The first reference above the objects of a store. *)
Definition top (st : gmap ref GraphNode) : ref :=
  map_fold (fun r _ t => Nat.max (S r) t) 0%nat st.

#[global] Instance offset_inj (base : ref) : Inj (=) (=) (Nat.add base) :=
  fun r r' H => proj1 (Nat.add_cancel_l r r' base) H.

(** What [setData] does to the layout, given the node objects and the
    links that it builds from the data, [built], addressed from zero.  They
    are new objects, allocated above those of the store; the objects of the
    former data stay in the store as they are, out of [nodes], since a
    sprite drawn for one of them still holds it.  The simulation is the
    same object, restarted by [alpha(1).restart()]. *)
Definition setData (l built : t) : t :=
  let base := top (store l) in
  {| store := store l ∪ kmap (Nat.add base) (store built);
     nodes := map (Nat.add base) (nodes built);
     links := map (fun k => {| source := (base + source k)%nat;
                               target := (base + target k)%nat |}) (links built);
     simulation := {| alphaTarget := alphaTarget (simulation l); running := true |} |}.

(** [getNodes()], with the objects read from the store. *)
Definition getNodes (l : t) : list GraphNode :=
  omap (fun r => store l !! r) (nodes l).

(** The same array, each object with its reference. *)
Definition getNodeRefs (l : t) : list (ref * GraphNode) :=
  omap (fun r => (fun n => (r, n)) <$> store l !! r) (nodes l).

(** [getNodes().find(n => n.id === id)], as a reference. *)
Definition findNode (l : t) (i : string) : option ref :=
  List.find (fun r => match store l !! r with
                      | Some n => String.eqb (id n) i
                      | None => false
                      end) (nodes l).

(** [this.simulation.alphaTarget(0.3).restart()]. *)
Definition dragStart (l : t) : t :=
  withSimulation {| alphaTarget := 3 # 10; running := true |} l.

(** [node.fx = x; node.fy = y]. *)
Definition dragMove (l : t) (node : ref) (x y : num) : t :=
  withStore (alter (setPin (fixed x) (fixed y)) node (store l)) l.

(** [this.simulation.alphaTarget(0); node.fx = null; node.fy = null].
    The simulation is created by the constructor, so the guard
    [if (!this.simulation) return] never fires. *)
Definition dragEnd (l : t) (node : ref) : t :=
  let l := withSimulation {| alphaTarget := 0; running := running (simulation l) |} l in
  withStore (alter (setPin null null) node (store l)) l.

(** [v || 0] for an optional coordinate. *)
Definition orZero (v : option num) : num :=
  match v with
  | Some n => if truthy n then n else ofZ 0
  | None => ofZ 0
  end.

(** [node.directory || 'root']. *)
Definition directoryOrRoot (n : GraphNode) : string :=
  if String.eqb (directory n) "" then "root" else directory n.

End WithNumber.

End Layout.

(** ** HullGenerator *)

Module HullGenerator.
Import Layout.

Inductive HullType : Type := plate | landmass.

Section WithGeometry.
Context `{G : Geometry}.

Record Hull : Type := {
  hullId : string;
  path : list point;
  color : string;
  type : HullType
}.

Record Cluster : Type := { sumX : num; sumY : num; count : num }.

(** [clusterMap] is kept as the list of its own properties, in insertion
    order; [ownLookup] reads one of them. *)
Definition ownLookup (m : list (string * Cluster)) (k : string) : option Cluster :=
  snd <$> List.find (fun e => String.eqb (fst e) k) m.

(** An update in place of the own property [k], if there is one. *)
Fixpoint ownUpdate (f : Cluster -> Cluster) (k : string) (m : list (string * Cluster))
    : list (string * Cluster) :=
  match m with
  | [] => []
  | (k', c) :: m' =>
      if String.eqb k' k then (k', f c) :: m' else (k', c) :: ownUpdate f k m'
  end.

Definition accumulate (n : GraphNode) (c : Cluster) : Cluster :=
  {| sumX := add (sumX c) (orZero (x n));
     sumY := add (sumY c) (orZero (y n));
     count := add (count c) (ofZ 1) |}.

(** The body of the first [nodes.forEach].  [clusterMap[dir]] reads
    the own property, or else the value inherited under that name; an
    inherited value is truthy, so no own property is created for it
    and the three updates land on the inherited object. *)
Definition addToCluster (m : list (string * Cluster)) (n : GraphNode)
    : list (string * Cluster) :=
  let dir := directoryOrRoot n in
  let m :=
    match ownLookup m dir with
    | Some _ => m
    | None =>
        if JS.inherited dir then m
        else m ++ [(dir, {| sumX := ofZ 0; sumY := ofZ 0; count := ofZ 0 |})]
    end in
  ownUpdate (accumulate n) dir m.

Definition clusterMapOf (nodes : list GraphNode) : list (string * Cluster) :=
  fold_left addToCluster nodes [].

(** The nodes of directory [d], in order. *)
Definition members (d : string) (nodes : list GraphNode) : list GraphNode :=
  filter (fun n => directoryOrRoot n = d) nodes.

(** The sums and the count of a list of nodes, added up from zero in
    order. *)
Definition clusterOf (ns : list GraphNode) : Cluster :=
  fold_left (fun c n => accumulate n c) ns
            {| sumX := ofZ 0; sumY := ofZ 0; count := ofZ 0 |}.

(** The directories of the nodes in order of first appearance, but for
    the names every object inherits. *)
Definition keysOf (nodes : list GraphNode) : list string :=
  fold_left (fun ks n =>
               let d := directoryOrRoot n in
               if bool_decide (d ∈ ks) || JS.inherited d then ks else ks ++ [d])
            nodes [].

Definition isDigit (c : ascii) : bool :=
  let n := N_of_ascii c in ((48 <=? n) && (n <=? 57))%N.

Definition digitsValue (cs : list ascii) : N :=
  fold_left (fun v c => (10 * v + (N_of_ascii c - 48))%N) cs 0%N.

(** The array index a property name denotes, if any: a canonical
    decimal numeral below [2^32 - 1]. *)
Definition arrayIndex (k : string) : option N :=
  let cs := list_ascii_of_string k in
  let v := digitsValue cs in
  if forallb isDigit cs && String.eqb (pretty v) k && (v <? 4294967295)%N
  then Some v else None.

Definition indexed (e : string * Cluster) : option (N * (string * Cluster)) :=
  (fun i => (i, e)) <$> arrayIndex (fst e).

Definition indexLe (a b : N * (string * Cluster)) : Prop := (fst a <= fst b)%N.

#[local] Instance indexLe_dec : RelDecision indexLe :=
  fun a b => N.le_dec (fst a) (fst b).

(** [Object.entries(clusterMap)]: the array indices in ascending
    order, then the other names in insertion order. *)
Definition entries (m : list (string * Cluster)) : list (string * Cluster) :=
  map snd (merge_sort indexLe (omap indexed m))
  ++ filter (fun e => arrayIndex (fst e) = None) m.

Record Centroid : Type := { dir : string; cx : num; cy : num }.

Definition centroidOf (e : string * Cluster) : Centroid :=
  {| dir := fst e;
     cx := div (sumX (snd e)) (count (snd e));
     cy := div (sumY (snd e)) (count (snd e)) |}.

Definition bounds : num * num * num * num :=
  (ofZ (-2000), ofZ (-2000), ofZ 4000, ofZ 4000).

(** The callback of [centroids.map]: [None] is the [null] that the
    filter drops. *)
Definition plateOf (colorFn : string -> string) (points : list point)
    (i : nat) (c : Centroid) : option Hull :=
  match cellPolygon points bounds i with
  | None => None
  | Some cell =>
      Some {| hullId := dir c; path := cell; color := colorFn (dir c); type := plate |}
  end.

Definition platesOf (colorFn : string -> string) (centroids : list Centroid)
    : list Hull :=
  let points := map (fun c => (cx c, cy c)) centroids in
  omap (fun ic => plateOf colorFn points (fst ic) (snd ic))
       (imap (fun i c => (i, c)) centroids).

Definition padded (n : GraphNode) : list point :=
  let pad := ofZ 80 in
  [ (sub (orZero (x n)) pad, sub (orZero (y n)) pad);
    (add (orZero (x n)) pad, sub (orZero (y n)) pad);
    (add (orZero (x n)) pad, add (orZero (y n)) pad);
    (sub (orZero (x n)) pad, add (orZero (y n)) pad) ].

Definition landmassOf (nodes : list GraphNode) : option Hull :=
  match polygonHull (flat_map padded nodes) with
  | Some landPoly =>
      Some {| hullId := "global_landmass"; path := landPoly;
              color := "#111111"; type := landmass |}
  | None => None
  end.

Definition computeLandforms (nodes : list GraphNode) (colorFn : string -> string)
    : option Hull * list Hull :=
  if Nat.ltb (List.length nodes) 3 then (None, [])
  else
    let centroids := map centroidOf (entries (clusterMapOf nodes)) in
    (landmassOf nodes, platesOf colorFn centroids).

End WithGeometry.

End HullGenerator.

(** ** Renderer *)

Module Renderer.
Import Layout HullGenerator.

Inductive Theme : Type := LIGHT | DARK.

(** The shape drawn for a plate, with the [lastClickTime] its listener
    closes over. *)
Record PlateGfx : Type := { plateId : string; lastClickTime : Z }.

(** The container drawn for a node, with what its listeners close over,
    the node object and [isDragging], and the number of copies of [onMove]
    and [onUp] attached to it: [on] adds a copy at each call, and [off]
    removes every copy. *)
Record Sprite : Type := { node : ref; isDragging : bool; listeners : nat }.

Section WithGeometry.
Context `{G : Geometry}.

Record t : Type := {
  currentTheme : Theme;
  selectedNodeId : option string;
  selectedClusterId : option string;
  highlightNeighbors : list string;
  shapes : gmap ref PlateGfx;
  nextShape : ref;
  hullLayer : list ref;
  nodesMap : gmap string Sprite;
  stageDownPos : option point;
  lastStageClickTime : Z
}.

(** The renderer after its constructor and [init]. *)
Definition create : t :=
  {| currentTheme := LIGHT;
     selectedNodeId := None;
     selectedClusterId := None;
     highlightNeighbors := [];
     shapes := ∅;
     nextShape := 0%nat;
     hullLayer := [];
     nodesMap := ∅;
     stageDownPos := None;
     lastStageClickTime := 0 |}.

Definition toggleTheme (r : t) : t :=
  {| currentTheme := match currentTheme r with LIGHT => DARK | DARK => LIGHT end;
     selectedNodeId := selectedNodeId r;
     selectedClusterId := selectedClusterId r;
     highlightNeighbors := highlightNeighbors r;
     shapes := shapes r;
     nextShape := nextShape r;
     hullLayer := hullLayer r;
     nodesMap := nodesMap r;
     stageDownPos := stageDownPos r;
     lastStageClickTime := lastStageClickTime r |}.

Definition updateSelection (selectedNodeId' : option string) (neighbors : list string)
    (selectedClusterId' : option string) (r : t) : t :=
  {| currentTheme := currentTheme r;
     selectedNodeId := selectedNodeId';
     selectedClusterId := selectedClusterId';
     highlightNeighbors := neighbors;
     shapes := shapes r;
     nextShape := nextShape r;
     hullLayer := hullLayer r;
     nodesMap := nodesMap r;
     stageDownPos := stageDownPos r;
     lastStageClickTime := lastStageClickTime r |}.

Definition withShapes (shapes' : gmap ref PlateGfx) (next : ref) (layer : list ref)
    (r : t) : t :=
  {| currentTheme := currentTheme r;
     selectedNodeId := selectedNodeId r;
     selectedClusterId := selectedClusterId r;
     highlightNeighbors := highlightNeighbors r;
     shapes := shapes';
     nextShape := next;
     hullLayer := layer;
     nodesMap := nodesMap r;
     stageDownPos := stageDownPos r;
     lastStageClickTime := lastStageClickTime r |}.

Definition withNodesMap (m : gmap string Sprite) (r : t) : t :=
  {| currentTheme := currentTheme r;
     selectedNodeId := selectedNodeId r;
     selectedClusterId := selectedClusterId r;
     highlightNeighbors := highlightNeighbors r;
     shapes := shapes r;
     nextShape := nextShape r;
     hullLayer := hullLayer r;
     nodesMap := m;
     stageDownPos := stageDownPos r;
     lastStageClickTime := lastStageClickTime r |}.

Definition withStage (down : option point) (last : Z) (r : t) : t :=
  {| currentTheme := currentTheme r;
     selectedNodeId := selectedNodeId r;
     selectedClusterId := selectedClusterId r;
     highlightNeighbors := highlightNeighbors r;
     shapes := shapes r;
     nextShape := nextShape r;
     hullLayer := hullLayer r;
     nodesMap := nodesMap r;
     stageDownPos := down;
     lastStageClickTime := last |}.

(** [plates.forEach]: a new shape per plate, its [lastClickTime] zero. *)
Definition addPlate (r : t) (p : Hull) : t :=
  withShapes (<[nextShape r := {| plateId := hullId p; lastClickTime := 0 |}]> (shapes r))
             (S (nextShape r)) (hullLayer r ++ [nextShape r]) r.

(** [nodes.forEach]: a sprite is created the first time an id is seen. *)
Definition addSprite (r : t) (n : ref * GraphNode) : t :=
  match nodesMap r !! id (snd n) with
  | Some _ => r
  | None =>
      withNodesMap (<[id (snd n) := {| node := fst n; isDragging := false;
                                       listeners := 0 |}]> (nodesMap r)) r
  end.

(** What [render] does to the interactive state: the plate shapes are
    removed and, under a landmass with a non-empty path, created anew; the
    sprites of new nodes are added.  Drawing itself is not part of the
    state. *)
Definition render (r : t) (nodes : list (ref * GraphNode)) (plates : list Hull)
    (landmass : option Hull) : t :=
  let r := withShapes (shapes r) (nextShape r) [] r in
  let r :=
    match landmass with
    | Some lm =>
        if Nat.ltb 0 (List.length (path lm)) then fold_left addPlate plates r else r
    | None => r
    end in
  fold_left addSprite nodes r.

(** [s.replace('#', '0x')]: the first ['#'] of [s], if any, becomes
    [0x]. *)
Fixpoint replaceHash (cs : list ascii) : list ascii :=
  match cs with
  | [] => []
  | c :: cs' =>
      if Ascii.eqb c "#" then "0"%char :: "x"%char :: cs' else c :: replaceHash cs'
  end.

Fixpoint skipSpaces (cs : list ascii) : list ascii :=
  match cs with
  | c :: cs' => if Regex.isSpace c then skipSpaces cs' else cs
  | [] => []
  end.

(** The value of a digit in radix 16. *)
Definition digit16 (c : ascii) : option Z :=
  let n := Z.of_N (N_of_ascii c) in
  if (48 <=? n) && (n <=? 57) then Some (n - 48)
  else if (97 <=? n) && (n <=? 102) then Some (n - 87)
  else if (65 <=? n) && (n <=? 70) then Some (n - 55)
  else None.

(** The digits at the front of [cs], added to [acc]; [seen] tells
    whether a digit has been read. *)
Fixpoint digits16 (cs : list ascii) (acc : Z) (seen : bool) : option Z :=
  match cs with
  | c :: cs' =>
      match digit16 c with
      | Some d => digits16 cs' (16 * acc + d) true
      | None => if seen then Some acc else None
      end
  | [] => if seen then Some acc else None
  end.

(** [parseInt(s, 16)]: white space, a sign, [0x] or [0X], then the
    digits up to the first character that is none; [None] is [NaN].  The
    value is the exact one, which a number holds when it is below [2^53],
    as it is for the six digits of a colour. *)
Definition parseInt16 (cs : list ascii) : option Z :=
  let cs := skipSpaces cs in
  let sign_cs :=
    match cs with
    | c :: cs' =>
        if Ascii.eqb c "-" then (-1, cs')
        else if Ascii.eqb c "+" then (1, cs') else (1, cs)
    | [] => (1, cs)
    end in
  let cs :=
    match snd sign_cs with
    | c0 :: c1 :: cs' =>
        if Ascii.eqb c0 "0" && (Ascii.eqb c1 "x" || Ascii.eqb c1 "X")
        then cs' else snd sign_cs
    | _ => snd sign_cs
    end in
  Z.mul (fst sign_cs) <$> digits16 cs 0 false.

(** [const color = parseInt(plate.color.replace('#', '0x'), 16)], the
    fill colour of a plate shape. *)
Definition plateFill (color : string) : option Z :=
  parseInt16 (replaceHash (list_ascii_of_string color)).

(** The colours of [THEMES] that the nodes are drawn with. *)
Record Palette : Type := { RED : Z; BLUE : Z; DARKTEXT : Z; STROKE : Z }.

Definition palette (theme : Theme) : Palette :=
  match theme with
  | LIGHT => {| RED := 0xD62828; BLUE := 0x0077B6; DARKTEXT := 0x212529;
                STROKE := 0x333333 |}
  | DARK => {| RED := 0xFF6B6B; BLUE := 0x4D96FF; DARKTEXT := 0xDDDDDD;
               STROKE := 0xFFFFFF |}
  end.

(** How a node is drawn: the sprite's [alpha] and scale, and the fill and
    the stroke of its circle. *)
Record NodeStyle : Type := {
  alpha : Q;
  scale : Q;
  fillColor : Z;
  strokeColor : Z
}.

(** The style [render] computes for a node from the selection. *)
Definition nodeStyle (r : t) (n : GraphNode) : NodeStyle :=
  let pal := palette (currentTheme r) in
  match selectedNodeId r with
  | Some selected =>
      if String.eqb (id n) selected
      then {| alpha := 1; scale := 8 # 5; fillColor := RED pal; strokeColor := RED pal |}
      else if bool_decide (id n ∈ highlightNeighbors r)
      then {| alpha := 1; scale := 13 # 10; fillColor := BLUE pal; strokeColor := BLUE pal |}
      else {| alpha := 7 # 20; scale := 4 # 5; fillColor := 0xFFFFFF;
              strokeColor := STROKE pal |}
  | None =>
      match selectedClusterId r with
      | Some cluster =>
          if String.eqb (directory n) cluster
          then {| alpha := 1; scale := 6 # 5; fillColor := 0xFFFFFF;
                  strokeColor := DARKTEXT pal |}
          else {| alpha := 1 # 4; scale := 1; fillColor := 0xFFFFFF;
                  strokeColor := STROKE pal |}
      | None =>
          {| alpha := 1; scale := 1; fillColor := 0xFFFFFF; strokeColor := STROKE pal |}
      end
  end.

(** The click count a node sprite reports:
    [node._lastClick && now - node._lastClick < 300]. *)
Definition nodeClickCount (lastClick : option Z) (now : Z) : Z :=
  match lastClick with
  | Some t => if negb (t =? 0) && (now - t <? 300) then 2 else 1
  | None => 1
  end.

(** The click count a plate or the stage reports:
    [now - lastClickTime < 300]. *)
Definition clickCount (lastClickTime now : Z) : Z :=
  if now - lastClickTime <? 300 then 2 else 1.

End WithGeometry.

End Renderer.

(** ** InputManager *)

Module InputManager.

Section WithNumber.
Context `{N : JSNumber}.

(** The part of the input manager that pans: [isDragging], the last
    pointer position, [isPanEnabled], and the calls made to [onPan].  The
    wheel handler and the zoom fields it alone touches are left out. *)
Record t : Type := {
  isDragging : bool;
  lastX : num;
  lastY : num;
  isPanEnabled : bool;
  pans : list (num * num)
}.

Definition create : t :=
  {| isDragging := false; lastX := ofZ 0; lastY := ofZ 0; isPanEnabled := true;
     pans := [] |}.

Definition setPanEnabled (enabled : bool) (m : t) : t :=
  {| isDragging := if negb enabled then false else isDragging m;
     lastX := lastX m; lastY := lastY m;
     isPanEnabled := enabled;
     pans := pans m |}.

(** [handleDown]; [onCanvas] is [e.target.tagName === 'CANVAS']. *)
Definition handleDown (onCanvas : bool) (clientX clientY : num) (m : t) : t :=
  if negb onCanvas then m
  else if negb (isPanEnabled m) then m
  else {| isDragging := true; lastX := clientX; lastY := clientY;
          isPanEnabled := isPanEnabled m; pans := pans m |}.

Definition handleMove (clientX clientY : num) (m : t) : t :=
  if negb (isDragging m) then m
  else
    let dx := sub clientX (lastX m) in
    let dy := sub clientY (lastY m) in
    {| isDragging := isDragging m; lastX := clientX; lastY := clientY;
       isPanEnabled := isPanEnabled m; pans := pans m ++ [(dx, dy)] |}.

Definition handleUp (m : t) : t :=
  {| isDragging := false; lastX := lastX m; lastY := lastY m;
     isPanEnabled := isPanEnabled m; pans := pans m |}.

(** What reaches the input manager: the engine's [setPanEnabled] and the
    pointer events of its listeners. *)
Inductive Event : Type :=
| SetPanEnabled (enabled : bool)
| Down (onCanvas : bool) (clientX clientY : num)
| Move (clientX clientY : num)
| Up.

Definition step (m : t) (ev : Event) : t :=
  match ev with
  | SetPanEnabled enabled => setPanEnabled enabled m
  | Down onCanvas clientX clientY => handleDown onCanvas clientX clientY m
  | Move clientX clientY => handleMove clientX clientY m
  | Up => handleUp m
  end.

Definition run (m : t) (events : list Event) : t := fold_left step events m.

(** An event that does not switch panning on. *)
Definition keepsPanOff (ev : Event) : bool :=
  match ev with
  | SetPanEnabled enabled => negb enabled
  | _ => true
  end.

End WithNumber.

End InputManager.

(** ** GraphEngine *)

Module GraphEngine.
Import Layout HullGenerator.

(** A click the renderer reports through its callbacks. *)
Inductive Click : Type :=
| onClickNode (id : string) (clickCount : Z)
| onClickHull (id : string) (clickCount : Z)
| onClickBackground (clickCount : Z).

Section WithGeometry.
Context `{G : Geometry}.

(** What the engine asks of the camera and tells its listener. *)
Inductive Effect : Type :=
| smoothLookAt (x y : option num) (scale : Q)
| nodeSelected (n : GraphNode)
| clusterSelected (id : string) (members : nat)
| selectionCleared.

Record t : Type := {
  layout : Layout.t;
  renderer : Renderer.t;
  isRunning : bool;
  selectedNodeId : option string;
  panEnabled : bool;
  onSelectionChange : bool;
  clicks : list Click;
  effects : list Effect
}.

(** The engine after its constructor, around an empty layout. *)
Definition create : t :=
  {| layout := {| store := ∅; nodes := []; links := [];
                  simulation := {| alphaTarget := 0; running := false |} |};
     renderer := Renderer.create;
     isRunning := false;
     selectedNodeId := None;
     panEnabled := true;
     onSelectionChange := false;
     clicks := [];
     effects := [] |}.

Definition withLayout (l : Layout.t) (e : t) : t :=
  {| layout := l; renderer := renderer e; isRunning := isRunning e;
     selectedNodeId := selectedNodeId e; panEnabled := panEnabled e;
     onSelectionChange := onSelectionChange e;
     clicks := clicks e; effects := effects e |}.

Definition withRenderer (r : Renderer.t) (e : t) : t :=
  {| layout := layout e; renderer := r; isRunning := isRunning e;
     selectedNodeId := selectedNodeId e; panEnabled := panEnabled e;
     onSelectionChange := onSelectionChange e;
     clicks := clicks e; effects := effects e |}.

Definition withRunning (b : bool) (e : t) : t :=
  {| layout := layout e; renderer := renderer e; isRunning := b;
     selectedNodeId := selectedNodeId e; panEnabled := panEnabled e;
     onSelectionChange := onSelectionChange e;
     clicks := clicks e; effects := effects e |}.

Definition withSelected (s : option string) (e : t) : t :=
  {| layout := layout e; renderer := renderer e; isRunning := isRunning e;
     selectedNodeId := s; panEnabled := panEnabled e;
     onSelectionChange := onSelectionChange e;
     clicks := clicks e; effects := effects e |}.

Definition withPan (b : bool) (e : t) : t :=
  {| layout := layout e; renderer := renderer e; isRunning := isRunning e;
     selectedNodeId := selectedNodeId e; panEnabled := b;
     onSelectionChange := onSelectionChange e;
     clicks := clicks e; effects := effects e |}.

Definition withListener (b : bool) (e : t) : t :=
  {| layout := layout e; renderer := renderer e; isRunning := isRunning e;
     selectedNodeId := selectedNodeId e; panEnabled := panEnabled e;
     onSelectionChange := b;
     clicks := clicks e; effects := effects e |}.

Definition report (c : Click) (e : t) : t :=
  {| layout := layout e; renderer := renderer e; isRunning := isRunning e;
     selectedNodeId := selectedNodeId e; panEnabled := panEnabled e;
     onSelectionChange := onSelectionChange e;
     clicks := clicks e ++ [c]; effects := effects e |}.

Definition effect (f : Effect) (e : t) : t :=
  {| layout := layout e; renderer := renderer e; isRunning := isRunning e;
     selectedNodeId := selectedNodeId e; panEnabled := panEnabled e;
     onSelectionChange := onSelectionChange e;
     clicks := clicks e; effects := effects e ++ [f] |}.

(** [if (this.onSelectionChange) this.onSelectionChange(data)]. *)
Definition notify (f : Effect) (e : t) : t :=
  if onSelectionChange e then effect f e else e.

(** [getColor]: it reads nothing of the engine. *)
Definition getColor (this : t) (str : string) : string :=
  Color.colorOfCodes (JS.charCodes str).

(** [init], given the node objects and the links that [setData] builds
    from the data. *)
Definition init (built : Layout.t) (e : t) : t :=
  withRunning true (withLayout (setData (layout e) built) e).

(** [update]: the landforms are recomputed from the nodes and rendered.
    Its last step only writes the zoom bound of the input manager, which
    nothing here reads, and is left out. *)
Definition update (e : t) : t :=
  if negb (isRunning e) then e
  else
    let nodes := getNodes (layout e) in
    let lf := computeLandforms nodes (getColor e) in
    withRenderer (Renderer.render (renderer e) (getNodeRefs (layout e)) (snd lf) (fst lf)) e.

Definition toggleTheme (e : t) : t :=
  update (withRenderer (Renderer.toggleTheme (renderer e)) e).

Definition resetCamera (e : t) : t :=
  let e := withSelected None e in
  let e := withRenderer (Renderer.updateSelection None [] None (renderer e)) e in
  let e := update e in
  let e := notify selectionCleared e in
  effect (smoothLookAt (Some (ofZ 0)) (Some (ofZ 0)) 1) e.

Definition idOf (l : Layout.t) (r : ref) : option string := id <$> store l !! r.

(** [node._lastClick] of the node object at [r]: [None] is [undefined]. *)
Definition lastClickOf (e : t) (r : ref) : option Z := store (layout e) !! r ≫= lastClick.

(** The body of [getLinks().forEach] in [handleNodeClick]. *)
Definition addNeighbors (l : Layout.t) (i : string) (neighbors : list string)
    (link : GraphLink) : list string :=
  match idOf l (source link), idOf l (target link) with
  | Some s, Some t =>
      let neighbors := if String.eqb s i then JS.setAdd t neighbors else neighbors in
      if String.eqb t i then JS.setAdd s neighbors else neighbors
  | _, _ => neighbors
  end.

Definition handleNodeClick (i : string) (clickCount : Z) (e : t) : t :=
  if clickCount =? 2 then
    match findNode (layout e) i with
    | None => e
    | Some r =>
        match store (layout e) !! r with
        | None => e
        | Some node =>
            let e := withSelected (Some i) e in
            let neighbors := fold_left (addNeighbors (layout e) i) (links (layout e)) [] in
            let e := withRenderer
                       (Renderer.updateSelection (Some i) neighbors None (renderer e)) e in
            let e := update e in
            let e := effect (smoothLookAt (x node) (y node) (3 # 2)) e in
            notify (nodeSelected node) e
        end
    end
  else e.

(** [nodes.reduce((s, n) => s + (n.x || 0), 0) / nodes.length]. *)
Definition average (f : GraphNode -> option num) (ns : list GraphNode) : num :=
  div (fold_left (fun s n => add s (orZero (f n))) ns (ofZ 0))
      (ofZ (Z.of_nat (List.length ns))).

Definition handleHullClick (i : string) (clickCount : Z) (e : t) : t :=
  if clickCount =? 2 then
    let e := withSelected None e in
    let e := withRenderer (Renderer.updateSelection None [] (Some i) (renderer e)) e in
    let e := update e in
    let nodes := filter (fun n => directoryOrRoot n = i) (getNodes (layout e)) in
    let e :=
      if Nat.ltb 0 (List.length nodes)
      then effect (smoothLookAt (Some (average x nodes)) (Some (average y nodes)) (3 # 2)) e
      else e in
    notify (clusterSelected i (List.length nodes)) e
  else e.

Definition handleBackgroundClick (clickCount : Z) (e : t) : t :=
  let e := withSelected None e in
  let e := withRenderer (Renderer.updateSelection None [] None (renderer e)) e in
  let e := update e in
  let e := notify selectionCleared e in
  if clickCount =? 2
  then effect (smoothLookAt (Some (ofZ 0)) (Some (ofZ 0)) 1) e
  else e.

Definition handleDragStart (i : string) (e : t) : t :=
  let e := withPan false e in
  let e := withLayout (dragStart (layout e)) e in
  update e.

Definition handleDragMove (i : string) (px py : num) (e : t) : t :=
  match findNode (layout e) i with
  | Some node => update (withLayout (dragMove (layout e) node px py) e)
  | None => e
  end.

Definition handleDragEnd (i : string) (e : t) : t :=
  let e := withPan true e in
  match findNode (layout e) i with
  | Some node => update (withLayout (dragEnd (layout e) node) e)
  | None => e
  end.

End WithGeometry.

End GraphEngine.

(** ** The renderer's listeners, bound to the engine's handlers *)

Module Listeners.
Import Layout HullGenerator.
Import GraphEngine.

Section WithGeometry.
Context `{G : Geometry}.

Definition setSprite (i : string) (sp : Renderer.Sprite) (e : t) : t :=
  withRenderer (Renderer.withNodesMap (<[i := sp]> (Renderer.nodesMap (renderer e)))
                                      (renderer e)) e.

(** [container.on('pointerdown', ...)] of the sprite of node [i]: one
    more copy of [onMove] and of [onUp] is attached at each call. *)
Definition nodePointerDown (i : string) (e : t) : t :=
  match Renderer.nodesMap (renderer e) !! i with
  | None => e
  | Some sp =>
      let e := setSprite i {| Renderer.node := Renderer.node sp;
                              Renderer.isDragging := false;
                              Renderer.listeners := Renderer.listeners sp |} e in
      let e := handleDragStart i e in
      match Renderer.nodesMap (renderer e) !! i with
      | None => e
      | Some sp =>
          setSprite i {| Renderer.node := Renderer.node sp;
                         Renderer.isDragging := Renderer.isDragging sp;
                         Renderer.listeners := S (Renderer.listeners sp) |} e
      end
  end.

(** One call of [onMove], at a pointer position already mapped into the
    container. *)
Definition onMove (i : string) (px py : num) (e : t) : t :=
  match Renderer.nodesMap (renderer e) !! i with
  | None => e
  | Some sp =>
      let e := setSprite i {| Renderer.node := Renderer.node sp;
                              Renderer.isDragging := true;
                              Renderer.listeners := Renderer.listeners sp |} e in
      handleDragMove i px py e
  end.

(** A [globalpointermove] at the sprite of node [i]: the emitter calls
    every copy of [onMove] that is attached when the event arrives. *)
Definition nodePointerMove (i : string) (px py : num) (e : t) : t :=
  match Renderer.nodesMap (renderer e) !! i with
  | None => e
  | Some sp => Nat.iter (Renderer.listeners sp) (onMove i px py) e
  end.

(** [(node as any)._lastClick = now], on the node object of the sprite. *)
Definition stampNode (r : ref) (now : Z) (e : t) : t :=
  withLayout (withStore (alter (setLastClick now) r (store (layout e))) (layout e)) e.

(** One call of [onUp], at time [now]: the three [off] remove every copy
    of the listeners. *)
Definition onUp (i : string) (now : Z) (e : t) : t :=
  match Renderer.nodesMap (renderer e) !! i with
  | None => e
  | Some sp =>
      let e := setSprite i {| Renderer.node := Renderer.node sp;
                              Renderer.isDragging := Renderer.isDragging sp;
                              Renderer.listeners := 0 |} e in
      let e := handleDragEnd i e in
      if negb (Renderer.isDragging sp) then
        let last := lastClickOf e (Renderer.node sp) in
        let count := Renderer.nodeClickCount last now in
        let e := handleNodeClick i count (report (onClickNode i count) e) in
        stampNode (Renderer.node sp) now e
      else e
  end.

(** A [pointerup] or [pointerupoutside] at the sprite of node [i]: the
    emitter walks the listeners that are attached when the event arrives,
    so [onUp] runs once for each copy, although the first call removes them
    all; [now] is the time the calls read. *)
Definition nodePointerUp (i : string) (now : Z) (e : t) : t :=
  match Renderer.nodesMap (renderer e) !! i with
  | None => e
  | Some sp => Nat.iter (Renderer.listeners sp) (onUp i now) e
  end.

(** [lastClickTime = now], on the shape whose listener ran. *)
Definition stampShape (shape : ref) (now : Z) (e : t) : t :=
  let r := renderer e in
  withRenderer
    (Renderer.withShapes
       (alter (fun g => {| Renderer.plateId := Renderer.plateId g;
                           Renderer.lastClickTime := now |}) shape (Renderer.shapes r))
       (Renderer.nextShape r) (Renderer.hullLayer r) r) e.

(** [gfx.on('pointerdown', ...)] of a plate shape on display, at time
    [now]. *)
Definition platePointerDown (shape : ref) (now : Z) (e : t) : t :=
  if bool_decide (shape ∈ Renderer.hullLayer (renderer e)) then
    match Renderer.shapes (renderer e) !! shape with
    | None => e
    | Some g =>
        let count := Renderer.clickCount (Renderer.lastClickTime g) now in
        let e := handleHullClick (Renderer.plateId g) count
                   (report (onClickHull (Renderer.plateId g) count) e) in
        stampShape shape now e
    end
  else e.

(** [stage.on('pointerdown', ...)]; [onStage] is [e.target === stage]. *)
Definition stagePointerDown (onStage : bool) (pos : point) (e : t) : t :=
  if onStage
  then withRenderer (Renderer.withStage (Some pos)
                       (Renderer.lastStageClickTime (renderer e)) (renderer e)) e
  else e.

Definition clearStageDown (e : t) : t :=
  withRenderer (Renderer.withStage None
                  (Renderer.lastStageClickTime (renderer e)) (renderer e)) e.

(** [stage.on('pointerup', ...)], at time [now]. *)
Definition stagePointerUp (onStage : bool) (pos : point) (now : Z) (e : t) : t :=
  let e :=
    match Renderer.stageDownPos (renderer e) with
    | Some down =>
        if onStage then
          let dist := hypot (sub (fst pos) (fst down)) (sub (snd pos) (snd down)) in
          if ltb dist (ofZ 5) then
            let count := Renderer.clickCount (Renderer.lastStageClickTime (renderer e)) now in
            let e := handleBackgroundClick count (report (onClickBackground count) e) in
            withRenderer (Renderer.withStage (Renderer.stageDownPos (renderer e)) now
                            (renderer e)) e
          else e
        else e
    | None => e
    end in
  clearStageDown e.

(** [stage.on('pointerupoutside', ...)]. *)
Definition stagePointerUpOutside (e : t) : t := clearStageDown e.

(** Everything that can happen to an engine. *)
Inductive Action : Type :=
| Init (built : Layout.t)
| Tick
| ToggleTheme
| ResetCamera
| SetListener (b : bool)
| NodeDown (i : string)
| NodeMove (i : string) (px py : num)
| NodeUp (i : string) (now : Z)
| PlateDown (shape : ref) (now : Z)
| StageDown (onStage : bool) (pos : point)
| StageUp (onStage : bool) (pos : point) (now : Z)
| StageUpOutside.

Definition step (e : t) (a : Action) : t :=
  match a with
  | Init built => init built e
  | Tick => update e
  | ToggleTheme => toggleTheme e
  | ResetCamera => resetCamera e
  | SetListener b => withListener b e
  | NodeDown i => nodePointerDown i e
  | NodeMove i px py => nodePointerMove i px py e
  | NodeUp i now => nodePointerUp i now e
  | PlateDown shape now => platePointerDown shape now e
  | StageDown onStage pos => stagePointerDown onStage pos e
  | StageUp onStage pos now => stagePointerUp onStage pos now e
  | StageUpOutside => stagePointerUpOutside e
  end.

Definition run (e : t) (actions : list Action) : t := fold_left step actions e.

(** The node object at [r], its pin apart. *)
Definition nodeObject (e : t) (r : ref) : option GraphNode :=
  unpinned <$> store (layout e) !! r.

(** [e'] differs from [e] in nothing a click is counted by: no click was
    reported, every node object is as it was but for its pin, and every
    sprite is as it was. *)
Definition undisturbed (e e' : t) : Prop :=
  clicks e' = clicks e
  /\ (forall r, nodeObject e' r = nodeObject e r)
  /\ (forall j sp, Renderer.nodesMap (renderer e) !! j = Some sp ->
                   Renderer.nodesMap (renderer e') !! j = Some sp).

(** A selected node and a selected cluster are not both set. *)
Definition exclusive (e : t) : Prop :=
  Renderer.selectedNodeId (renderer e) = None
  \/ Renderer.selectedClusterId (renderer e) = None.

(** The engine's own [selectedNodeId] is the renderer's, and neighbours
    are highlighted only around a selected node. *)
Definition mirrored (e : t) : Prop :=
  selectedNodeId e = Renderer.selectedNodeId (renderer e)
  /\ (Renderer.selectedNodeId (renderer e) = None ->
      Renderer.highlightNeighbors (renderer e) = []).

(** The selection: what the renderer styles by, and the engine's own
    field. *)
Definition selection (e : t)
    : option string * list string * option string * option string :=
  (Renderer.selectedNodeId (renderer e), Renderer.highlightNeighbors (renderer e),
   Renderer.selectedClusterId (renderer e), selectedNodeId e).

(** What a step can do to the selection: nothing, select a node and no
    cluster, or leave no node selected. *)
Definition selectionStep (e e' : t) : Prop :=
  selection e' = selection e
  \/ (exists i ns, selection e' = (Some i, ns, None, Some i))
  \/ (exists c, selection e' = (None, [], c, None)).

(** Every sprite holds a node object of the store, and is kept under the
    [id] of that object. *)
Definition alive (e : t) : Prop :=
  forall j sp, Renderer.nodesMap (renderer e) !! j = Some sp ->
               id <$> store (layout e) !! Renderer.node sp = Some j.

(** What the state of a drag keeps of the state [e] it began in, with the
    layout [l] and the sprite [sp] it has reached. *)
Definition dragState (i : string) (e e' : t) (l : Layout.t) (pan : bool)
    (sp : Renderer.Sprite) : Prop :=
  layout e' = l /\ panEnabled e' = pan /\ clicks e' = clicks e
  /\ effects e' = effects e /\ selection e' = selection e
  /\ Renderer.nodesMap (renderer e') !! i = Some sp.

End WithGeometry.

End Listeners.

(** ** A small workspace, for the examples *)

Module Example.
Import DependencyService.

Definition parts (p : string) : list string := splitSlash p.

(** POSIX [path] functions, on normalized paths. *)
Definition posixDirname (p : string) : string :=
  match removelast (parts p) with
  | [] => "."
  | [""] => "/"
  | ds => joinWith "/" ds
  end.

Definition posixBasename (p : string) : string := List.last (parts p) "".

Fixpoint lastDot (cs : list ascii) : option (list ascii) :=
  match cs with
  | [] => None
  | c :: cs' =>
      match lastDot cs' with
      | Some ext => Some ext
      | None => if Ascii.eqb c "." then Some (c :: cs') else None
      end
  end.

Definition posixExtname (p : string) : string :=
  match list_ascii_of_string (posixBasename p) with
  | [] => ""
  | c :: cs => match lastDot cs with
               | Some ext => string_of_list_ascii ext
               | None => ""
               end
  end.

Definition posixJoin (ps : list string) : string :=
  joinWith "/" (filter (fun p => p <> "") ps).

Definition posixResolve (from to : string) : string :=
  if JS.startsWith "./" to
  then posixJoin [from; JS.substring to 2 (Z.of_nat (String.length to))]
  else if JS.startsWith "/" to then to
  else posixJoin [from; to].

Definition posixRelative (from to : string) : string :=
  if JS.startsWith (from +:+ "/") to
  then JS.substring to (Z.of_nat (String.length from) + 1) (Z.of_nat (String.length to))
  else to.

(** The files of the workspace [/r], with their text. *)
Definition contents : list (string * string) :=
  [ ("/r/a.ts", "import { b } from './b'; import { a } from './a';");
    ("/r/b.ts", "export const b = 1;");
    ("/r/c.ts", "export const c = 2;");
    ("/r/lib/util.ts", "import { b } from 'b';");
    ("/r/util/x.ts", "export const x = 3;") ].

Definition directories : list string := ["/r"; "/r/lib"; "/r/util"].

#[global] Instance fsHost : fs.Host := {|
  fs.existsSync p := bool_decide (p ∈ map fst contents ++ directories);
  fs.isFile p := bool_decide (p ∈ map fst contents);
  fs.isDirectory p := bool_decide (p ∈ directories);
  fs.readFile p := snd <$> List.find (fun e => String.eqb (fst e) p) contents
|}.

#[global] Instance pathHost : path.Host := {|
  path.join := posixJoin;
  path.resolve := posixResolve;
  path.dirname := posixDirname;
  path.basename := posixBasename;
  path.extname := posixExtname;
  path.relative := posixRelative;
  path.sep := "/"
|}.

Definition files : list Uri := map (fun e => {| fsPath := fst e |}) contents.

Definition config : Config :=
  {| languageMapping := {[ ".ts" := "TypeScript" ]} |}.

(** Integers as numbers: enough to run the layout code. *)
#[global] Instance intNumber : JSNumber := {|
  num := Z;
  ofZ z := z;
  add := Z.add;
  sub := Z.sub;
  div := Z.div;
  hypot a b := Z.sqrt (a * a + b * b);
  ltb := Z.ltb;
  truthy z := negb (z =? 0)
|}.

(** A stand-in for the geometry libraries: every site gets the whole
    bounding box as its cell, and the hull of three or more points is the
    list of the points. *)
#[global] Instance boxGeometry : Geometry := {|
  cellPolygon points bounds i :=
    let '(x0, y0, x1, y1) := bounds in
    if Nat.ltb i (List.length points)
    then Some [(x0, y0); (x1, y0); (x1, y1); (x0, y1)] else None;
  polygonHull points := if Nat.ltb (List.length points) 3 then None else Some points
|}.

Definition mkNode (i dir : string) (px py : Z) : Layout.GraphNode :=
  {| Layout.id := i; Layout.label := i; Layout.directory := dir;
     Layout.description := None; Layout.fullPath := None;
     Layout.x := Some px; Layout.y := Some py;
     Layout.fx := Layout.undefined; Layout.fy := Layout.undefined;
     Layout.lastClick := None |}.

(** Three nodes in two directories, with one link from the first to the
    second. *)
Definition layout : Layout.t :=
  {| Layout.store := {[ 0%nat := mkNode "0" "src" 0 0;
                        1%nat := mkNode "1" "src" 100 0;
                        2%nat := mkNode "2" "root" 0 100 ]};
     Layout.nodes := [0%nat; 1%nat; 2%nat];
     Layout.links := [ {| Layout.source := 0%nat; Layout.target := 1%nat |} ];
     Layout.simulation := {| Layout.alphaTarget := 0; Layout.running := false |} |}.

(** The engine once the layout is set and drawn. *)
Definition engine : GraphEngine.t :=
  Listeners.run GraphEngine.create [Listeners.Init layout; Listeners.Tick].

(** The sprite that the first drawing creates for node [0]. *)
Definition sprite0 : Renderer.Sprite :=
  {| Renderer.node := 0%nat; Renderer.isDragging := false; Renderer.listeners := 0 |}.

(** The nodes of [layout], as a list. *)
Definition threeNodes : list Layout.GraphNode :=
  [mkNode "0" "src" 0 0; mkNode "1" "src" 100 0; mkNode "2" "root" 0 100].

(** Three nodes with three directory values, one of them empty, placed in
    three directions from the origin. *)
Definition mixedNodes : list Layout.GraphNode :=
  [mkNode "0" "" 100 0; mkNode "1" "root" 0 100; mkNode "2" "src" (-100) (-100)].

(** Three nodes, two of them in a directory named [constructor]. *)
Definition constructorNodes : list Layout.GraphNode :=
  [mkNode "0" "constructor" 100 0; mkNode "1" "constructor" 0 100;
   mkNode "2" "src" (-100) (-100)].

(** An outcome of [generate] on the workspace in which the edges arrived
    in the opposite order. *)
Definition graph : Graph :=
  {| graphNodes := graphNodes (generate config "/r" files);
     graphEdges := rev (graphEdges (generate config "/r" files)) |}.

End Example.

(** Membership in a list that computes. *)
Ltac elem_of_computed :=
  apply list_elem_of_In; vm_compute;
  repeat (first [left; reflexivity | right]).

(** * Properties *)

(** ** RegexParser *)

(** C5.  On the text [import (], newline, tab, ["fmt"], newline, tab,
    ["os"], newline, [)] with language [go], [parseImports] resolves to
    the two entries [fmt] and [os], each once, and nothing else. *)
Theorem parseImports_go_block :
  RegexParser.parseImports RegexParser.goBlock "go" = RegexParser.Resolved ["fmt"; "os"].
Proof. vm_compute. reflexivity. Qed.

(** ** DependencyService.generate *)

Section GenerateFacts.
Import DependencyService.
Context `{F : fs.Host} `{P : path.Host}.

Lemma addNode_ids rootDir st file :
  (forall p i, fileToNodeId st !! p = Some i -> i ∈ map nodeId (nodes st)) ->
  forall p i, fileToNodeId (addNode rootDir st file) !! p = Some i ->
              i ∈ map nodeId (nodes (addNode rootDir st file)).
Proof.
  intros Hinv p i. unfold addNode; simpl.
  rewrite map_app, elem_of_app. simpl.
  destruct (decide (fsPath file = p)) as [-> | Hne].
  - rewrite lookup_insert_eq. intros [= <-]. right. apply list_elem_of_singleton. reflexivity.
  - rewrite lookup_insert_ne by done. intros Hp. left. eauto.
Qed.

Lemma fold_addNode_ids rootDir files : forall st,
  (forall p i, fileToNodeId st !! p = Some i -> i ∈ map nodeId (nodes st)) ->
  forall p i, fileToNodeId (fold_left (addNode rootDir) files st) !! p = Some i ->
              i ∈ map nodeId (nodes (fold_left (addNode rootDir) files st)).
Proof.
  induction files as [| f files IH]; intros st Hinv; simpl; [exact Hinv |].
  apply IH. apply addNode_ids. exact Hinv.
Qed.

Lemma createNodes_ids rootDir files p i :
  fileToNodeId (createNodes rootDir files) !! p = Some i ->
  i ∈ map nodeId (nodes (createNodes rootDir files)).
Proof.
  apply fold_addNode_ids. intros q j. simpl. rewrite lookup_empty. discriminate.
Qed.

Lemma edgesOfResolved_spec ids sourceId resolvedPath e :
  e ∈ edgesOfResolved ids sourceId resolvedPath ->
  source e = sourceId /\ ids !! resolvedPath = Some (target e) /\ source e <> target e.
Proof.
  unfold edgesOfResolved. destruct (ids !! resolvedPath) as [targetId |] eqn:E.
  - case_bool_decide as Hne.
    + intros ->%list_elem_of_singleton. simpl. auto.
    + intros Hin. inversion Hin.
  - intros Hin. inversion Hin.
Qed.

Lemma edgesOfFile_spec config ids rootDir files file e :
  e ∈ fst (edgesOfFile config ids rootDir files file) ->
  ids !! fsPath file = Some (source e)
  /\ (exists p, ids !! p = Some (target e))
  /\ source e <> target e.
Proof.
  unfold edgesOfFile.
  destruct (negb _); [intros Hin; inversion Hin |].
  destruct (fs.readFile _) as [content |]; [| intros Hin; inversion Hin].
  destruct (RegexParser.parseImports _ _) as [imports |]; [| intros Hin; inversion Hin].
  destruct (ids !! fsPath file) as [sourceId |] eqn:E; [| intros Hin; inversion Hin].
  destruct (String.eqb sourceId ""); [intros Hin; inversion Hin |].
  simpl. rewrite list_elem_of_In, in_flat_map.
  intros (importPath & _ & Hin). unfold edgesOfImport in Hin.
  apply in_flat_map in Hin as (resolvedPath & _ & Hin).
  apply list_elem_of_In, edgesOfResolved_spec in Hin as (Hs & Ht & Hne).
  subst sourceId. eauto.
Qed.

Lemma generate_edge_spec config rootDir files e :
  e ∈ graphEdges (generate config rootDir files) ->
  let ids := fileToNodeId (createNodes rootDir files) in
  (exists p, ids !! p = Some (source e))
  /\ (exists p, ids !! p = Some (target e))
  /\ source e <> target e.
Proof.
  unfold generate; simpl. rewrite list_elem_of_In, in_flat_map.
  intros (file & _ & Hin). apply list_elem_of_In, edgesOfFile_spec in Hin as (Hs & Ht & Hne).
  eauto.
Qed.

Lemma createNodes_snoc rootDir files file :
  createNodes rootDir (files ++ [file]) = addNode rootDir (createNodes rootDir files) file.
Proof. unfold createNodes. rewrite fold_left_app. reflexivity. Qed.

(** Step 1 numbers the files in order and maps exactly their paths. *)
Lemma createNodes_spec rootDir files :
  map nodeId (nodes (createNodes rootDir files)) = map pretty (seq 0 (List.length files))
  /\ map (fun n => fullPath (data n)) (nodes (createNodes rootDir files)) = map fsPath files
  /\ nodeIdCounter (createNodes rootDir files) = List.length files
  /\ (forall p, is_Some (fileToNodeId (createNodes rootDir files) !! p)
                <-> p ∈ map fsPath files).
Proof.
  induction files as [| file files (Hids & Hpaths & Hcount & Hdom)] using rev_ind.
  - repeat split; try reflexivity.
    + simpl. rewrite lookup_empty. intros [? ?]. discriminate.
    + intros Hin. inversion Hin.
  - rewrite createNodes_snoc. unfold addNode. cbn [nodes fileToNodeId nodeIdCounter].
    rewrite !map_app, length_app, seq_app, map_app, Hids, Hpaths, Hcount. simpl.
    repeat split; try reflexivity; try lia.
    + rewrite lookup_insert_is_Some, Hdom, elem_of_app, list_elem_of_singleton.
      intros [<- | [_ Hin]]; auto.
    + rewrite lookup_insert_is_Some, Hdom, elem_of_app, list_elem_of_singleton.
      intros [Hin | ->]; [| auto].
      destruct (decide (fsPath file = p)); auto.
Qed.

(** C1.  In every outcome of [generate], whatever the order in which the
    edges were pushed, the source and the target of every edge are ids of
    nodes of that outcome: each is the id that step 1 gave to one of the
    files, the map from paths to ids holds exactly the files, and the ids
    of the nodes are the numerals of [0], ..., [n - 1], all different. *)
Theorem generate_edges_reference_nodes config rootDir files g :
  generates config rootDir files g ->
  Forall (fun e => source e ∈ map nodeId (graphNodes g)
                   /\ target e ∈ map nodeId (graphNodes g)) (graphEdges g)
  /\ Forall (fun e =>
              exists sourceFile targetFile,
                sourceFile ∈ map fsPath files /\ targetFile ∈ map fsPath files
                /\ fileToNodeId (createNodes rootDir files) !! sourceFile = Some (source e)
                /\ fileToNodeId (createNodes rootDir files) !! targetFile = Some (target e))
            (graphEdges g)
  /\ map nodeId (graphNodes g) = map pretty (seq 0 (List.length files))
  /\ NoDup (map nodeId (graphNodes g)).
Proof.
  intros [Hn He]. rewrite Hn.
  destruct (createNodes_spec rootDir files) as (Hids & _ & _ & Hdom).
  assert (Hedge : forall e, e ∈ graphEdges g ->
            e ∈ graphEdges (generate config rootDir files)).
  { intros e Hin. rewrite <- He. exact Hin. }
  split; [| split; [| split]].
  - apply Forall_forall. intros e Hin.
    apply Hedge, generate_edge_spec in Hin as ((p & Hp) & (q & Hq) & _).
    split; eapply createNodes_ids; eassumption.
  - apply Forall_forall. intros e Hin.
    apply Hedge, generate_edge_spec in Hin as ((p & Hp) & (q & Hq) & _).
    exists p, q. repeat split; try assumption; apply Hdom; eauto.
  - exact Hids.
  - simpl. rewrite Hids. apply (NoDup_fmap_2 pretty), NoDup_seq.
Qed.

(** C2.  In every outcome of [generate] no edge has its source equal to
    its target, also when an import resolves to the importing file. *)
Theorem generate_no_self_loop config rootDir files g :
  generates config rootDir files g ->
  Forall (fun e => source e <> target e) (graphEdges g).
Proof.
  intros [_ He]. apply Forall_forall. intros e Hin.
  assert (Hin' : e ∈ graphEdges (generate config rootDir files)).
  { rewrite <- He. exact Hin. }
  apply generate_edge_spec in Hin' as (_ & _ & Hne). exact Hne.
Qed.
End GenerateFacts.

(** ** DependencyService.resolveImport *)

Section ResolveFacts.
Import DependencyService.

(** The shape of the non-relative branch: three strategies in a row, each
    run only while no hit has been found. *)
Lemma strategy_chain {A : Type} (root : Probe (list A))
    (src fuzzy : list A -> Probe (list A)) :
  let r :=
    bind root (fun hits =>
      bind (if Nat.eqb (List.length hits) 0 then src hits else ret hits) (fun hits =>
        if Nat.eqb (List.length hits) 0 then fuzzy hits else ret hits)) in
  (value root <> [] -> r = root)
  /\ (value root = [] -> value (src []) <> [] ->
      value r = value (src []) /\ calls r = calls root ++ calls (src []))
  /\ (value root = [] -> value (src []) = [] ->
      value r = value (fuzzy []) /\ calls r = calls root ++ calls (src []) ++ calls (fuzzy [])).
Proof.
  destruct root as [[| h hr] cr]; unfold bind at 1; cbn [value calls List.length Nat.eqb].
  - split; [congruence |].
    destruct (src []) as [[| s hs] cs]; unfold bind; cbn [value calls List.length Nat.eqb].
    + split; [congruence |]. split; reflexivity.
    + split; [| congruence]. intros _ _. unfold ret. cbn [value calls].
      rewrite List.app_nil_r. split; reflexivity.
  - split; [| split; congruence]. intros _. unfold bind, ret.
    cbn [value calls List.length Nat.eqb]. rewrite !List.app_nil_r. reflexivity.
Qed.

Context `{F : fs.Host} `{P : path.Host}.

(** C3.  For an import that does not start with a dot, the result is that
    of the root-relative probe when it has a hit, else that of the
    src-relative probe when it has a hit, else that of the fuzzy match;
    and the file system is asked nothing on behalf of a later strategy
    once an earlier one has a hit.  In particular a hit of the
    root-relative probe makes the whole resolution equal to that probe,
    calls included. *)
Theorem resolveImport_strategy_order
    (importPath sourceFile rootPath : string) (allFiles : list Uri) :
  JS.startsWith "." importPath = false ->
  let root := probeCandidate allFiles (path.join [rootPath; importPath]) [] in
  let src := probeCandidate allFiles (path.join [rootPath; "src"; importPath]) [] in
  let fuzzy := fuzzyMatch allFiles rootPath importPath [] in
  let r := resolveImport importPath sourceFile rootPath allFiles in
  (value root <> [] -> r = root)
  /\ (value root = [] -> value src <> [] ->
      value r = value src /\ calls r = calls root ++ calls src)
  /\ (value root = [] -> value src = [] ->
      value r = value fuzzy /\ calls r = calls root ++ calls src ++ calls fuzzy).
Proof.
  intros Hrel. unfold resolveImport. rewrite Hrel.
  exact (strategy_chain
           (probeCandidate allFiles (path.join [rootPath; importPath]) [])
           (probeCandidate allFiles (path.join [rootPath; "src"; importPath]))
           (fuzzyMatch allFiles rootPath importPath)).
Qed.

End ResolveFacts.

(** C3, on the example workspace: [lib/util] has a root-relative hit,
    and the directory [util] that a fuzzy match would find is never asked
    for. *)
Lemma resolveImport_strategy_order_witness :
  JS.startsWith "." "lib/util" = false
  /\ DependencyService.value
       (DependencyService.probeCandidate Example.files (path.join ["/r"; "lib/util"]) [])
     = ["/r/lib/util.ts"]
  /\ DependencyService.resolveImport "lib/util" "/r/a.ts" "/r" Example.files
     = DependencyService.probeCandidate Example.files (path.join ["/r"; "lib/util"]) []
  /\ DependencyService.value
       (DependencyService.fuzzyMatch Example.files "/r" "lib/util" []) = ["/r/util/x.ts"]
  /\ existsb (fun c => match c with
                       | DependencyService.ExistsSync p
                       | DependencyService.LstatSync p => String.eqb p "/r/util"
                       end)
             (DependencyService.calls
                (DependencyService.resolveImport "lib/util" "/r/a.ts" "/r" Example.files))
     = false.
Proof.
  assert (Hv : DependencyService.value
                 (DependencyService.probeCandidate Example.files
                    (path.join ["/r"; "lib/util"]) [])
               = ["/r/lib/util.ts"]) by (vm_compute; reflexivity).
  split; [reflexivity |]. split; [exact Hv |]. split.
  - refine (proj1 (resolveImport_strategy_order "lib/util" "/r/a.ts" "/r" Example.files
                     eq_refl) _).
    rewrite Hv. discriminate.
  - split; vm_compute; reflexivity.
Defined.

(** ** Layout *)

Section LayoutFacts.
Context `{N : JSNumber}.
Import Layout.

Lemma store_dragMove l node px py r :
  store (dragMove l node px py) !! r
  = if decide (r = node) then setPin (fixed px) (fixed py) <$> store l !! r
    else store l !! r.
Proof.
  unfold dragMove. simpl. rewrite lookup_alter.
  destruct (decide (node = r)), (decide (r = node)); congruence.
Qed.

Lemma store_dragEnd l node r :
  store (dragEnd l node) !! r
  = if decide (r = node) then setPin null null <$> store l !! r else store l !! r.
Proof.
  unfold dragEnd. simpl. rewrite lookup_alter.
  destruct (decide (node = r)), (decide (r = node)); congruence.
Qed.

(** C9.  [dragMove] sets the pin of the given node object to the given
    position and changes nothing else of it, no other node object, and
    neither the working set, the links nor the simulation; [dragEnd] sets
    the pin of the given node object to [null], changes nothing else of it
    and no other node object, and brings the energy floor back to zero. *)
Theorem drag_pins_exactly_the_node (l : Layout.t) (node : ref) (px py : num) :
  (forall n, store l !! node = Some n ->
     exists n', store (dragMove l node px py) !! node = Some n'
       /\ fx n' = fixed px /\ fy n' = fixed py
       /\ unpinned n' = unpinned n)
  /\ (forall other, other <> node ->
        store (dragMove l node px py) !! other = store l !! other)
  /\ nodes (dragMove l node px py) = nodes l
  /\ links (dragMove l node px py) = links l
  /\ simulation (dragMove l node px py) = simulation l
  /\ (forall n, store l !! node = Some n ->
        exists n', store (dragEnd l node) !! node = Some n'
          /\ fx n' = null /\ fy n' = null
          /\ unpinned n' = unpinned n)
  /\ (forall other, other <> node ->
        store (dragEnd l node) !! other = store l !! other)
  /\ nodes (dragEnd l node) = nodes l
  /\ links (dragEnd l node) = links l
  /\ alphaTarget (simulation (dragEnd l node)) = 0%Q.
Proof.
  repeat split; try reflexivity.
  - intros n Hn. exists (setPin (fixed px) (fixed py) n).
    rewrite store_dragMove, decide_True, Hn by reflexivity. repeat split.
  - intros other Hne. rewrite store_dragMove, decide_False by exact Hne. reflexivity.
  - intros n Hn. exists (setPin null null n).
    rewrite store_dragEnd, decide_True, Hn by reflexivity. repeat split.
  - intros other Hne. rewrite store_dragEnd, decide_False by exact Hne. reflexivity.
Qed.
End LayoutFacts.

Section LayoutExamples.
Import Layout.

(** C9, on the example layout: node [1] is pinned at (7, 9), node [0] is
    as it was. *)
Lemma drag_pins_exactly_the_node_witness :
  store Example.layout !! 1%nat = Some (Example.mkNode "1" "src" 100 0)
  /\ (exists n', store (dragMove Example.layout 1%nat 7 9) !! 1%nat = Some n'
        /\ fx n' = fixed 7 /\ fy n' = fixed 9
        /\ unpinned n' = unpinned (Example.mkNode "1" "src" 100 0))
  /\ store (dragMove Example.layout 1%nat 7 9) !! 0%nat = store Example.layout !! 0%nat.
Proof.
  pose proof (drag_pins_exactly_the_node Example.layout 1%nat 7 9) as (Hm & Ho & _).
  split; [reflexivity |]. split.
  - apply Hm. reflexivity.
  - apply Ho. discriminate.
Defined.

End LayoutExamples.

(** ** GraphEngine.getColor *)

Section ColorFacts.

Lemma ToInt32_small z : - 2 ^ 31 <= z < 2 ^ 31 -> JS.ToInt32 z = z.
Proof. intros Hz. unfold JS.ToInt32. rewrite Z.mod_small; lia. Qed.

Lemma band_mask_range h : 0 <= JS.band h 16777215 < 2 ^ 24.
Proof.
  unfold JS.band.
  rewrite (ToInt32_small 16777215) by lia.
  assert (Hr : 0 <= Z.land (JS.ToInt32 h) 16777215 < 2 ^ 24).
  { split.
    - apply Z.land_nonneg. right. lia.
    - change 16777215 with (Z.ones 24). rewrite Z.land_ones by lia.
      apply Z.mod_pos_bound. lia. }
  rewrite ToInt32_small; lia.
Qed.

Lemma hexDigit_lower d : 0 <= d < 16 -> Color.isLowerHex (JS.hexDigit d) = true.
Proof.
  intros Hd.
  assert (Hc : d = 0 \/ d = 1 \/ d = 2 \/ d = 3 \/ d = 4 \/ d = 5 \/ d = 6 \/ d = 7 \/
               d = 8 \/ d = 9 \/ d = 10 \/ d = 11 \/ d = 12 \/ d = 13 \/ d = 14 \/ d = 15)
    by lia.
  repeat (destruct Hc as [-> | Hc]; [reflexivity |]). subst. reflexivity.
Qed.

Lemma upper_of_lower c : Color.isLowerHex c = true -> Color.isUpperHex (JS.upperChar c) = true.
Proof. destruct c as [[] [] [] [] [] [] [] []]; vm_compute; congruence. Qed.

Lemma hexDigits_lower fuel : forall n,
  0 <= n -> forallb Color.isLowerHex (JS.hexDigits fuel n) = true.
Proof.
  induction fuel as [| fuel IH]; intros n Hn; simpl.
  - rewrite hexDigit_lower; [reflexivity | apply Z.mod_pos_bound; lia].
  - destruct (n <? 16) eqn:E.
    + apply Z.ltb_lt in E. simpl. rewrite hexDigit_lower; [reflexivity | lia].
    + rewrite forallb_app, IH by (apply Z.div_pos; lia). simpl.
      rewrite hexDigit_lower; [reflexivity | apply Z.mod_pos_bound; lia].
Qed.

Lemma hexDigits_length fuel : forall n k,
  0 <= n < 16 ^ Z.of_nat (S k) ->
  (1 <= List.length (JS.hexDigits fuel n) <= S k)%nat.
Proof.
  induction fuel as [| fuel IH]; intros n k Hn; simpl JS.hexDigits.
  - simpl. lia.
  - destruct (n <? 16) eqn:E.
    + simpl. lia.
    + apply Z.ltb_ge in E. rewrite length_app. simpl.
      destruct k as [| k].
      * simpl in Hn. lia.
      * assert (Hq : 0 <= n / 16 < 16 ^ Z.of_nat (S k)).
        { split; [apply Z.div_pos; lia |].
          apply Z.div_lt_upper_bound; [lia |].
          replace (16 * 16 ^ Z.of_nat (S k)) with (16 ^ Z.of_nat (S (S k))); [lia |].
          rewrite (Nat2Z.inj_succ (S k)), Z.pow_succ_r by lia. reflexivity. }
        specialize (IH (n / 16) k Hq). lia.
Qed.

Lemma hexDigitValue_hexDigit d : 0 <= d < 16 -> JS.hexDigitValue (JS.hexDigit d) = d.
Proof.
  intros Hd.
  assert (Hc : d = 0 \/ d = 1 \/ d = 2 \/ d = 3 \/ d = 4 \/ d = 5 \/ d = 6 \/ d = 7 \/
               d = 8 \/ d = 9 \/ d = 10 \/ d = 11 \/ d = 12 \/ d = 13 \/ d = 14 \/ d = 15)
    by lia.
  repeat (destruct Hc as [-> | Hc]; [reflexivity |]). subst. reflexivity.
Qed.

Lemma hexValue_snoc ds d : JS.hexValue (ds ++ [d]) = 16 * JS.hexValue ds + JS.hexDigitValue d.
Proof. unfold JS.hexValue. rewrite fold_left_app. reflexivity. Qed.

(** With enough fuel the digits are those of the number. *)
Lemma hexDigits_value fuel : forall n,
  0 <= n < 16 ^ Z.of_nat (S fuel) -> JS.hexValue (JS.hexDigits fuel n) = n.
Proof.
  induction fuel as [| fuel IH]; intros n Hn; simpl JS.hexDigits.
  - change (16 ^ Z.of_nat 1) with 16 in Hn.
    rewrite Z.mod_small by lia. unfold JS.hexValue. simpl.
    rewrite hexDigitValue_hexDigit by lia. lia.
  - destruct (n <? 16) eqn:E.
    + apply Z.ltb_lt in E. unfold JS.hexValue. simpl.
      rewrite hexDigitValue_hexDigit by lia. lia.
    + apply Z.ltb_ge in E. rewrite hexValue_snoc, IH.
      * rewrite hexDigitValue_hexDigit by (apply Z.mod_pos_bound; lia).
        symmetry. apply Z.div_mod. lia.
      * split; [apply Z.div_pos; lia |].
        apply Z.div_lt_upper_bound; [lia |].
        replace (16 * 16 ^ Z.of_nat (S fuel)) with (16 ^ Z.of_nat (S (S fuel))); [lia |].
        rewrite (Nat2Z.inj_succ (S fuel)), Z.pow_succ_r by lia. reflexivity.
Qed.

(** [toString16] writes the number itself: no digit is lost to the fuel. *)
Lemma toString16_value n :
  0 <= n -> JS.hexValue (list_ascii_of_string (JS.toString16 n)) = n.
Proof.
  intros Hn. unfold JS.toString16.
  destruct (n <? 0) eqn:E; [apply Z.ltb_lt in E; lia |].
  rewrite list_ascii_of_string_of_list_ascii. apply hexDigits_value.
  split; [exact Hn |].
  destruct (Z.eq_dec n 0) as [-> | Hne]; [reflexivity |].
  assert (Hpos : 0 < n) by lia.
  pose proof (Z.log2_spec n Hpos) as [_ Hlt].
  pose proof (Z.log2_nonneg n) as Hlog.
  eapply Z.lt_le_trans; [exact Hlt |].
  rewrite Nat2Z.inj_succ, Z2Nat.id by exact Hlog.
  change 16 with (2 ^ 4). rewrite <- Z.pow_mul_r by lia.
  apply Z.pow_le_mono_r; lia.
Qed.

(** The padding and the prefix, on the characters of [c]. *)
Lemma padded_chars (us : list ascii) :
  (1 <= List.length us <= 6)%nat ->
  list_ascii_of_string
    ("#" +:+ JS.substring "00000" 0 (6 - Z.of_nat (String.length (string_of_list_ascii us)))
         +:+ string_of_list_ascii us)
  = "#"%char :: repeat "0"%char (6 - List.length us) ++ us.
Proof.
  intros Hlen.
  destruct us as [| a1 [| a2 [| a3 [| a4 [| a5 [| a6 [| a7 us]]]]]]];
    simpl in Hlen; try lia; reflexivity.
Qed.

Lemma toUpperCase_list ds :
  JS.toUpperCase (string_of_list_ascii ds) = string_of_list_ascii (map JS.upperChar ds).
Proof. unfold JS.toUpperCase. rewrite list_ascii_of_string_of_list_ascii. reflexivity. Qed.

Lemma forallb_upper ds :
  forallb Color.isLowerHex ds = true -> forallb Color.isUpperHex (map JS.upperChar ds) = true.
Proof.
  induction ds as [| d ds IH]; simpl; [reflexivity |].
  intros Hd. apply andb_true_iff in Hd as [H1 H2].
  rewrite upper_of_lower, IH; auto.
Qed.

Lemma forallb_repeat_zero k : forallb Color.isUpperHex (repeat "0"%char k) = true.
Proof. induction k as [| k IH]; simpl; [reflexivity | exact IH]. Qed.

Lemma hexColor_wellFormed h : Color.wellFormedColor (Color.hexColor h) = true.
Proof.
  unfold Color.hexColor.
  pose proof (band_mask_range h) as Hv.
  set (v := JS.band h 16777215) in *.
  unfold JS.toString16.
  destruct (v <? 0) eqn:E; [apply Z.ltb_lt in E; lia |].
  rewrite toUpperCase_list.
  set (ds := JS.hexDigits _ v).
  assert (Hlen : (1 <= List.length ds <= 6)%nat).
  { apply (hexDigits_length _ v 5). change (16 ^ Z.of_nat 6) with (2 ^ 24). exact Hv. }
  assert (Hhex : forallb Color.isLowerHex ds = true) by (apply hexDigits_lower; lia).
  assert (Hlen' : (1 <= List.length (map JS.upperChar ds) <= 6)%nat)
    by (rewrite length_map; exact Hlen).
  cbv zeta. unfold Color.wellFormedColor. rewrite padded_chars by exact Hlen'.
  rewrite forallb_app, forallb_repeat_zero, forallb_upper by exact Hhex.
  rewrite length_app, repeat_length.
  replace (6 - List.length (map JS.upperChar ds) + List.length (map JS.upperChar ds))%nat
    with 6%nat by lia.
  reflexivity.
Qed.

End ColorFacts.

Section GetColorFacts.
Context `{G : Geometry}.
Import Layout HullGenerator.

(** C10.  Whatever the engine and the string, [getColor] returns ['#']
    followed by exactly six upper-case hexadecimal digits; so does the
    hash-to-color step on every sequence of code units and on every
    integer hash, negative ones included. *)
Theorem getColor_well_formed (this : GraphEngine.t) (str : string) :
  Color.wellFormedColor (GraphEngine.getColor this str) = true
  /\ (forall codes : list Z, Color.wellFormedColor (Color.colorOfCodes codes) = true)
  /\ (forall hash : Z, Color.wellFormedColor (Color.hexColor hash) = true)
  /\ GraphEngine.getColor this "" = "#000000".
Proof.
  split; [apply hexColor_wellFormed |].
  split; [intros codes; apply hexColor_wellFormed |].
  split; [exact hexColor_wellFormed | reflexivity].
Qed.

Lemma plateOf_color colorFn points i c p :
  plateOf colorFn points i c = Some p ->
  hullId p = dir c /\ color p = colorFn (dir c) /\ type p = plate
  /\ cellPolygon points bounds i = Some (path p).
Proof.
  unfold plateOf. destruct (cellPolygon points bounds i) as [cell |]; [| discriminate].
  intros [= <-]. simpl. auto.
Qed.

Lemma platesOf_color colorFn centroids p :
  p ∈ platesOf colorFn centroids -> color p = colorFn (hullId p).
Proof.
  unfold platesOf. rewrite list_elem_of_omap. intros ([i c] & _ & Hp).
  apply plateOf_color in Hp as (-> & -> & _). reflexivity.
Qed.

Lemma computeLandforms_color nodes colorFn p :
  p ∈ snd (computeLandforms nodes colorFn) -> color p = colorFn (hullId p).
Proof.
  unfold computeLandforms. destruct (Nat.ltb _ 3); simpl.
  - intros Hin. inversion Hin.
  - apply platesOf_color.
Qed.

(** C8.  The color of a name is the same for every engine, and is the
    color of the name's code units; so two plates with the same id,
    computed for any two engines from any two node lists, have the same
    color. *)
Theorem getColor_deterministic (this other : GraphEngine.t) (str : string) :
  GraphEngine.getColor this str = GraphEngine.getColor other str
  /\ GraphEngine.getColor this str = Color.colorOfCodes (JS.charCodes str)
  /\ (forall nodes nodes' p p',
        p ∈ snd (computeLandforms nodes (GraphEngine.getColor this)) ->
        p' ∈ snd (computeLandforms nodes' (GraphEngine.getColor other)) ->
        hullId p = hullId p' -> color p = color p').
Proof.
  split; [reflexivity |]. split; [reflexivity |].
  intros nodes nodes' p p' Hp Hp' Hid.
  apply computeLandforms_color in Hp, Hp'. rewrite Hp, Hp', Hid. reflexivity.
Qed.

End GetColorFacts.

(** ** HullGenerator.computeLandforms *)

Section HullFacts.
Context `{G : Geometry}.
Import Layout HullGenerator.

Lemma ownLookup_map (F : string -> Cluster) (ks : list string) (d : string) :
  ownLookup (map (fun k => (k, F k)) ks) d = if bool_decide (d ∈ ks) then Some (F d) else None.
Proof.
  unfold ownLookup. induction ks as [| k ks IH]; simpl.
  - reflexivity.
  - destruct (String.eqb_spec k d) as [-> | Hne]; simpl.
    + rewrite bool_decide_eq_true_2 by apply list_elem_of_here. reflexivity.
    + rewrite IH. destruct (decide (d ∈ ks)) as [Hin | Hnin].
      * rewrite !bool_decide_eq_true_2; [reflexivity | apply list_elem_of_further | ]; done.
      * rewrite !bool_decide_eq_false_2; [reflexivity | | done].
        intros [? | ?]%elem_of_cons; congruence.
Qed.

Lemma ownUpdate_absent f d (m : list (string * Cluster)) :
  d ∉ map fst m -> ownUpdate f d m = m.
Proof.
  induction m as [| [k c] m IH]; simpl; [reflexivity |].
  intros Hnin. destruct (String.eqb_spec k d) as [-> | Hne].
  - exfalso. apply Hnin. apply list_elem_of_here.
  - rewrite IH; [reflexivity |]. intros Hin. apply Hnin. apply list_elem_of_further, Hin.
Qed.

Lemma ownUpdate_map (F F' : string -> Cluster) f (ks : list string) (d : string) :
  NoDup ks ->
  F' d = f (F d) ->
  (forall k, k <> d -> F' k = F k) ->
  ownUpdate f d (map (fun k => (k, F k)) ks) = map (fun k => (k, F' k)) ks.
Proof.
  intros Hnd Hd Hother. induction Hnd as [| k ks Hk Hnd IH]; simpl; [reflexivity |].
  destruct (String.eqb_spec k d) as [-> | Hne].
  - rewrite Hd. f_equal. apply map_ext_in. intros k Hin. rewrite Hother; [reflexivity |].
    intros ->. apply Hk, list_elem_of_In, Hin.
  - rewrite Hother by exact Hne. f_equal. exact IH.
Qed.

Lemma members_snoc d nodes n :
  members d (nodes ++ [n])
  = members d nodes ++ (if decide (directoryOrRoot n = d) then [n] else []).
Proof.
  unfold members. rewrite filter_app. reflexivity.
Qed.

Lemma clusterOf_snoc ns n : clusterOf (ns ++ [n]) = accumulate n (clusterOf ns).
Proof. unfold clusterOf. rewrite fold_left_app. reflexivity. Qed.

Lemma keysOf_snoc nodes n :
  keysOf (nodes ++ [n])
  = let d := directoryOrRoot n in
    if bool_decide (d ∈ keysOf nodes) || JS.inherited d then keysOf nodes
    else keysOf nodes ++ [d].
Proof. unfold keysOf. rewrite fold_left_app. reflexivity. Qed.

Lemma keysOf_spec nodes :
  NoDup (keysOf nodes)
  /\ forall k, k ∈ keysOf nodes
               <-> k ∈ map directoryOrRoot nodes /\ JS.inherited k = false.
Proof.
  induction nodes as [| n nodes [IHnd IHin]] using rev_ind.
  - split; [constructor |]. intros k. simpl. split.
    + intros Hin. inversion Hin.
    + intros [Hin _]. inversion Hin.
  - rewrite keysOf_snoc. cbv zeta. rewrite map_app. simpl map.
    destruct (bool_decide (directoryOrRoot n ∈ keysOf nodes)) eqn:Ein; simpl.
    + apply bool_decide_eq_true_1 in Ein. split; [exact IHnd |].
      intros k. rewrite IHin, elem_of_app, list_elem_of_singleton. split.
      * intros [Hin Hk]. auto.
      * intros [[Hin | ->] Hk]; [auto |]. apply IHin. exact Ein.
    + apply bool_decide_eq_false_1 in Ein.
      destruct (JS.inherited (directoryOrRoot n)) eqn:Einh.
      * split; [exact IHnd |].
        intros k. rewrite IHin, elem_of_app, list_elem_of_singleton. split.
        -- intros [Hin Hk]. auto.
        -- intros [[Hin | ->] Hk]; [auto | congruence].
      * split.
        -- apply NoDup_app. split; [exact IHnd |]. split.
           ++ intros k Hk ->%list_elem_of_singleton. exact (Ein Hk).
           ++ apply NoDup_singleton.
        -- intros k. rewrite !elem_of_app, list_elem_of_singleton, IHin. split.
           ++ intros [[Hin Hk] | ->]; auto.
           ++ intros [[Hin | ->] Hk]; auto.
Qed.

Lemma members_none d nodes :
  d ∉ map directoryOrRoot nodes -> members d nodes = [].
Proof.
  unfold members. induction nodes as [| n nodes IH]; simpl; [reflexivity |].
  intros Hnin. apply not_elem_of_cons in Hnin as [Hne Hnin].
  rewrite filter_cons_False by congruence. apply IH. exact Hnin.
Qed.

Lemma ownUpdate_last f d c (m : list (string * Cluster)) :
  d ∉ map fst m -> ownUpdate f d (m ++ [(d, c)]) = m ++ [(d, f c)].
Proof.
  induction m as [| [k c'] m IHm]; intros Hm; simpl.
  - rewrite String.eqb_refl. reflexivity.
  - apply not_elem_of_cons in Hm as [Hne Hm]. simpl in Hne.
    destruct (String.eqb_spec k d) as [-> | _]; [congruence |].
    rewrite IHm by exact Hm. reflexivity.
Qed.

(** The cluster map holds, for each key, the sums over the key's
    members. *)
Lemma clusterMapOf_spec nodes :
  clusterMapOf nodes = map (fun k => (k, clusterOf (members k nodes))) (keysOf nodes).
Proof.
  induction nodes as [| n nodes IH] using rev_ind; [reflexivity |].
  unfold clusterMapOf in *. rewrite fold_left_app. simpl fold_left. rewrite IH. clear IH.
  destruct (keysOf_spec nodes) as [Hnd Hin].
  rewrite keysOf_snoc. cbv zeta. unfold addToCluster.
  set (d := directoryOrRoot n).
  rewrite ownLookup_map.
  assert (Hmem : forall k, k <> d -> members k (nodes ++ [n]) = members k nodes).
  { intros k Hk. rewrite members_snoc. fold d. rewrite decide_False by congruence.
    apply List.app_nil_r. }
  assert (Hd : members d (nodes ++ [n]) = members d nodes ++ [n]).
  { rewrite members_snoc. fold d. rewrite decide_True by reflexivity. reflexivity. }
  destruct (bool_decide (d ∈ keysOf nodes)) eqn:Ein; simpl orb.
  - apply ownUpdate_map; [exact Hnd | | ].
    + rewrite Hd. apply clusterOf_snoc.
    + intros k Hk. rewrite Hmem by exact Hk. reflexivity.
  - apply bool_decide_eq_false_1 in Ein.
    destruct (JS.inherited d) eqn:Einh.
    + rewrite ownUpdate_absent.
      * apply map_ext_in. intros k Hk. rewrite Hmem; [reflexivity |].
        intros ->. apply Ein, list_elem_of_In, Hk.
      * rewrite map_map. simpl. rewrite map_id. exact Ein.
    + assert (Hfst : forall F : string -> Cluster,
                map fst (map (fun k => (k, F k)) (keysOf nodes)) = keysOf nodes).
      { intros F. rewrite map_map. simpl. apply map_id. }
      assert (Hnone : members d nodes = []).
      { apply members_none. intros Hd'. apply Ein, Hin. split; assumption. }
      rewrite ownUpdate_last by (rewrite Hfst; exact Ein).
      rewrite map_app. simpl map. rewrite Hd, Hnone. simpl app. f_equal.
      apply map_ext_in. intros k Hk. rewrite Hmem; [reflexivity |].
      intros ->. apply Ein, list_elem_of_In, Hk.
Qed.

Lemma indexed_keys (m : list (string * Cluster)) :
  map snd (omap indexed m) = filter (fun e => ~ arrayIndex (fst e) = None) m.
Proof.
  induction m as [| e m IH]; [reflexivity |].
  simpl omap. unfold indexed at 1. rewrite filter_cons.
  destruct (decide (arrayIndex (fst e) <> None)) as [Hd | Hd];
    destruct (arrayIndex (fst e)) as [i |]; simpl.
  - f_equal. exact IH.
  - congruence.
  - exfalso. apply Hd. discriminate.
  - exact IH.
Qed.

(** [Object.entries] lists every own property once. *)
Lemma entries_Permutation (m : list (string * Cluster)) : entries m ≡ₚ m.
Proof.
  unfold entries.
  rewrite (merge_sort_Permutation indexLe (omap indexed m)), indexed_keys.
  rewrite Permutation_app_comm.
  apply (filter_app_complement (fun e : string * Cluster => arrayIndex (fst e) = None)).
Qed.

Lemma keysOf_remove_dups nodes :
  Forall (fun n => JS.inherited (directoryOrRoot n) = false) nodes ->
  keysOf nodes ≡ₚ remove_dups (map directoryOrRoot nodes).
Proof.
  intros Hinh. destruct (keysOf_spec nodes) as [Hnd Hin].
  apply NoDup_Permutation; [exact Hnd | apply NoDup_remove_dups |].
  intros k. rewrite Hin, elem_of_remove_dups. split; [tauto |].
  intros Hk. split; [exact Hk |].
  apply list_elem_of_fmap in Hk as (n & -> & Hn).
  rewrite Forall_forall in Hinh. apply Hinh. exact Hn.
Qed.

Lemma length_omap_le {A B : Type} (f : A -> option B) (l : list A) :
  (List.length (omap f l) <= List.length l)%nat.
Proof.
  induction l as [| a l IH]; [simpl; lia |].
  change (omap f (a :: l)) with (match f a with Some b => b :: omap f l | None => omap f l end).
  destruct (f a); simpl; lia.
Qed.

Lemma platesOf_elem colorFn (centroids : list Centroid) p :
  p ∈ platesOf colorFn centroids
  <-> exists i c cell,
        centroids !! i = Some c
        /\ cellPolygon (map (fun c => (cx c, cy c)) centroids) bounds i = Some cell
        /\ p = {| hullId := dir c; path := cell; color := colorFn (dir c); type := plate |}.
Proof.
  unfold platesOf. rewrite list_elem_of_omap. split.
  - intros ([i c] & Hin & Hp). apply elem_of_lookup_imap in Hin as (j & c' & [= -> ->] & Hc).
    simpl in Hp. unfold plateOf in Hp.
    destruct (cellPolygon _ bounds j) as [cell |] eqn:Ecell; [| discriminate].
    injection Hp as <-. exists j, c', cell. auto.
  - intros (i & c & cell & Hc & Hcell & ->). exists (i, c). split.
    + apply elem_of_lookup_imap. exists i, c. auto.
    + simpl. unfold plateOf. rewrite Hcell. reflexivity.
Qed.

Lemma omap_imap_sublist (f : nat -> Centroid -> option Hull) (g : nat -> nat)
    (centroids : list Centroid) :
  (forall i c p, f i c = Some p -> hullId p = dir c) ->
  sublist (map hullId (omap (fun ic => f (fst ic) (snd ic))
                            (imap (fun i c => (g i, c)) centroids)))
          (map dir centroids).
Proof.
  intros Hf. revert g. induction centroids as [| c cs IH]; intros g.
  - simpl. constructor.
  - rewrite imap_cons. simpl omap. simpl map.
    specialize (IH (fun i => g (S i))).
    destruct (f (g 0%nat) c) as [p |] eqn:E; simpl.
    + rewrite (Hf _ _ _ E). apply sublist_skip. exact IH.
    + apply sublist_cons. exact IH.
Qed.

Lemma platesOf_NoDup colorFn (centroids : list Centroid) :
  NoDup (map dir centroids) -> NoDup (map hullId (platesOf colorFn centroids)).
Proof.
  intros Hnd. apply (sublist_NoDup _ (map dir centroids)); [exact Hnd |].
  unfold platesOf.
  apply (omap_imap_sublist
           (plateOf colorFn (map (fun c => (cx c, cy c)) centroids)) (fun i => i) centroids).
  intros i c p Hp. unfold plateOf in Hp.
  destruct (cellPolygon _ bounds i); [| discriminate]. injection Hp as <-. reflexivity.
Qed.

(** The plates as the code computes them.  Fewer than three nodes give
    no landmass and no plates.  Three or more nodes, none of them in a
    directory named like a property that every object inherits, give the
    plates of one centroid per distinct directory (the empty directory
    counting as [root]): each centroid is the sum of its members'
    coordinates over their number, each plate carries its directory, the
    cell of its centroid within the bounds and the color of its directory,
    a directory whose cell is [null] has no plate, and no directory has
    two. *)
Lemma computeLandforms_plates (nodes : list GraphNode) (colorFn : string -> string) :
  (List.length nodes < 3 -> computeLandforms nodes colorFn = (None, []))%nat
  /\ (3 <= List.length nodes ->
      Forall (fun n => JS.inherited (directoryOrRoot n) = false) nodes ->
      exists centroids : list Centroid,
        snd (computeLandforms nodes colorFn) = platesOf colorFn centroids
        /\ map dir centroids ≡ₚ remove_dups (map directoryOrRoot nodes)
        /\ Forall (fun c => c = centroidOf (dir c, clusterOf (members (dir c) nodes)))
                  centroids
        /\ (forall p, p ∈ platesOf colorFn centroids
              <-> exists i c cell,
                    centroids !! i = Some c
                    /\ cellPolygon (map (fun c => (cx c, cy c)) centroids) bounds i
                       = Some cell
                    /\ p = {| hullId := dir c; path := cell;
                              color := colorFn (dir c); type := plate |})
        /\ NoDup (map hullId (platesOf colorFn centroids)))%nat.
Proof.
  split.
  - intros Hlt. unfold computeLandforms.
    destruct (Nat.ltb_spec (List.length nodes) 3) as [_ | Hge]; [reflexivity | lia].
  - intros Hge Hinh. unfold computeLandforms.
    destruct (Nat.ltb_spec (List.length nodes) 3) as [Hlt | _]; [lia |].
    set (m := clusterMapOf nodes).
    exists (map centroidOf (entries m)). cbn [snd].
    assert (Hdirs : map dir (map centroidOf (entries m)) ≡ₚ keysOf nodes).
    { rewrite map_map. simpl. change (fun x : string * Cluster => fst x) with (@fst string Cluster).
      rewrite (entries_Permutation m). unfold m. rewrite clusterMapOf_spec, map_map. simpl.
      rewrite map_id. reflexivity. }
    split; [reflexivity |]. split; [| split; [| split]].
    + rewrite Hdirs. apply keysOf_remove_dups. exact Hinh.
    + apply Forall_forall. intros c Hc.
      apply list_elem_of_fmap in Hc as (e & -> & He).
      rewrite (entries_Permutation m) in He. unfold m in He.
      rewrite clusterMapOf_spec in He.
      apply list_elem_of_fmap in He as (k & -> & _). reflexivity.
    + apply platesOf_elem.
    + apply platesOf_NoDup. rewrite Hdirs. apply keysOf_spec.
Qed.

Lemma omap_imap_total (f : nat -> Centroid -> option Hull) (g : nat -> nat)
    (centroids : list Centroid) :
  (forall i c, centroids !! i = Some c ->
               exists p, f (g i) c = Some p /\ hullId p = dir c) ->
  map hullId (omap (fun ic => f (fst ic) (snd ic))
                   (imap (fun i c => (g i, c)) centroids))
  = map dir centroids.
Proof.
  revert g. induction centroids as [| c cs IH]; intros g Hf; [reflexivity |].
  rewrite imap_cons. simpl omap. simpl map.
  destruct (Hf 0%nat c eq_refl) as (p & -> & Hp). simpl. rewrite Hp. f_equal.
  apply (IH (fun i => g (S i))). intros i c' Hc'. exact (Hf (S i) c' Hc').
Qed.

(** Where the diagram has a cell for every centroid, there is a plate for
    every centroid, in order. *)
Lemma platesOf_total colorFn (centroids : list Centroid) :
  (forall i, (i < List.length centroids)%nat ->
             is_Some (cellPolygon (map (fun c => (cx c, cy c)) centroids) bounds i)) ->
  map hullId (platesOf colorFn centroids) = map dir centroids.
Proof.
  intros Hcells. unfold platesOf.
  apply (omap_imap_total
           (plateOf colorFn (map (fun c => (cx c, cy c)) centroids)) (fun i => i) centroids).
  intros i c Hc. unfold plateOf.
  destruct (Hcells i (lookup_lt_Some _ _ _ Hc)) as [cell ->]. eexists. split; reflexivity.
Qed.

(** No plate carries a name that every object inherits. *)
Lemma computeLandforms_own_directories (nodes : list GraphNode) colorFn p :
  p ∈ snd (computeLandforms nodes colorFn) ->
  JS.inherited (hullId p) = false /\ hullId p ∈ map directoryOrRoot nodes.
Proof.
  unfold computeLandforms.
  destruct (Nat.ltb (List.length nodes) 3); cbn [snd]; [intros Hp; inversion Hp |].
  intros Hp. apply platesOf_elem in Hp as (i & c & cell & Hc & _ & ->). cbn [hullId].
  apply list_elem_of_lookup_2 in Hc.
  apply list_elem_of_fmap in Hc as (e & -> & He).
  rewrite (entries_Permutation (clusterMapOf nodes)), clusterMapOf_spec in He.
  apply list_elem_of_fmap in He as (k & -> & Hk). cbn [centroidOf dir fst].
  destruct (keysOf_spec nodes) as [_ Hin]. apply Hin in Hk as [Hk Hinh]. split; assumption.
Qed.

(** Where the claim of one plate per directory holds: on three nodes or
    more whose directories are not empty and not names that every object
    inherits, with a cell of the diagram for every centroid, the plates
    carry the distinct directory values, each once. *)
Lemma computeLandforms_one_plate_per_directory (nodes : list GraphNode)
    (colorFn : string -> string) :
  (3 <= List.length nodes)%nat ->
  Forall (fun n => directory n <> "" /\ JS.inherited (directory n) = false) nodes ->
  let centroids := map centroidOf (entries (clusterMapOf nodes)) in
  (forall i, (i < List.length centroids)%nat ->
             is_Some (cellPolygon (map (fun c => (cx c, cy c)) centroids) bounds i)) ->
  map hullId (snd (computeLandforms nodes colorFn)) ≡ₚ remove_dups (map directory nodes)
  /\ List.length (snd (computeLandforms nodes colorFn))
     = List.length (remove_dups (map directory nodes)).
Proof.
  intros Hge Hdirs centroids Hcells.
  assert (map directoryOrRoot nodes = map directory nodes) as Hmap.
  { apply map_ext_Forall. eapply Forall_impl; [exact Hdirs |].
    intros n [Hne _]. unfold directoryOrRoot.
    destruct (String.eqb_spec (directory n) ""); [contradiction | reflexivity]. }
  assert (Forall (fun n => JS.inherited (directoryOrRoot n) = false) nodes) as Hinh.
  { apply Forall_forall. intros n Hn. rewrite Forall_forall in Hdirs.
    destruct (Hdirs n Hn) as [Hne Hi]. unfold directoryOrRoot.
    destruct (String.eqb_spec (directory n) ""); [contradiction | exact Hi]. }
  destruct (proj2 (computeLandforms_plates nodes colorFn) Hge Hinh)
    as (cs & Hplates & Hperm & _).
  assert (snd (computeLandforms nodes colorFn) = platesOf colorFn centroids) as Heq.
  { unfold computeLandforms.
    destruct (Nat.ltb_spec (List.length nodes) 3) as [Hlt | _]; [lia | reflexivity]. }
  assert (map dir centroids ≡ₚ remove_dups (map directory nodes)) as Hcent.
  { rewrite <- Hmap. unfold centroids.
    rewrite map_map. simpl.
    change (fun x : string * Cluster => fst x) with (@fst string Cluster).
    rewrite (entries_Permutation (clusterMapOf nodes)), clusterMapOf_spec, map_map. simpl.
    rewrite map_id. apply keysOf_remove_dups. exact Hinh. }
  assert (map hullId (snd (computeLandforms nodes colorFn)) ≡ₚ remove_dups (map directory nodes))
    as Hres.
  { rewrite Heq, (platesOf_total colorFn centroids Hcells). exact Hcent. }
  split; [exact Hres |].
  rewrite <- (length_map hullId), Hres. reflexivity.
Qed.

End HullFacts.

(** ** Renderer and GraphEngine: clicks and selection *)

Section RendererFacts.
Context `{G : Geometry}.
Import Layout HullGenerator.

(** [render] leaves alone whatever the shapes and the sprites do not
    touch. *)
Lemma render_preserves {A : Type} (proj : Renderer.t -> A) :
  (forall r s n l, proj (Renderer.withShapes s n l r) = proj r) ->
  (forall r m, proj (Renderer.withNodesMap m r) = proj r) ->
  forall r ns ps lm, proj (Renderer.render r ns ps lm) = proj r.
Proof.
  intros Hshapes Hmap r ns ps lm. unfold Renderer.render.
  assert (Hplates : forall ps r, proj (fold_left Renderer.addPlate ps r) = proj r).
  { clear r ps. induction ps as [| p ps IH]; intros r; simpl; [reflexivity |].
    rewrite IH. apply Hshapes. }
  assert (Hsprites : forall ns r, proj (fold_left Renderer.addSprite ns r) = proj r).
  { clear r ns. induction ns as [| n ns IH]; intros r; simpl; [reflexivity |].
    rewrite IH. unfold Renderer.addSprite.
    destruct (Renderer.nodesMap r !! id (snd n)); [reflexivity | apply Hmap]. }
  rewrite Hsprites.
  destruct lm as [lm |]; [destruct (Nat.ltb 0 _) |]; rewrite ?Hplates; apply Hshapes.
Qed.

(** A sprite, once created, stays as it is through [render]. *)
Lemma render_nodesMap r ns ps lm i sp :
  Renderer.nodesMap r !! i = Some sp ->
  Renderer.nodesMap (Renderer.render r ns ps lm) !! i = Some sp.
Proof.
  intros Hsp. unfold Renderer.render.
  assert (Hsprites : forall ns r, Renderer.nodesMap r !! i = Some sp ->
            Renderer.nodesMap (fold_left Renderer.addSprite ns r) !! i = Some sp).
  { clear. induction ns as [| n ns IH]; intros r Hr; simpl; [exact Hr |].
    apply IH. unfold Renderer.addSprite.
    destruct (Renderer.nodesMap r !! id (snd n)) eqn:E; [exact Hr |].
    simpl. rewrite lookup_insert_ne; [exact Hr |]. intros Heq. congruence. }
  apply Hsprites.
  assert (Hplates : forall ps r, Renderer.nodesMap (fold_left Renderer.addPlate ps r)
                                 = Renderer.nodesMap r).
  { clear. induction ps as [| p ps IH]; intros r; simpl; [reflexivity |].
    rewrite IH. reflexivity. }
  destruct lm as [lm |]; [destruct (Nat.ltb 0 _) |]; rewrite ?Hplates; exact Hsp.
Qed.
End RendererFacts.

Section EngineFacts.
Context `{G : Geometry}.
Import Layout HullGenerator GraphEngine Listeners.

Lemma update_layout e : layout (update e) = layout e.
Proof. unfold update. destruct (negb (isRunning e)); reflexivity. Qed.

Lemma update_clicks e : clicks (update e) = clicks e.
Proof. unfold update. destruct (negb (isRunning e)); reflexivity. Qed.

Lemma update_selected e : selectedNodeId (update e) = selectedNodeId e.
Proof. unfold update. destruct (negb (isRunning e)); reflexivity. Qed.

Lemma update_renderer {A : Type} (proj : Renderer.t -> A) e :
  (forall r s n l, proj (Renderer.withShapes s n l r) = proj r) ->
  (forall r m, proj (Renderer.withNodesMap m r) = proj r) ->
  proj (renderer (update e)) = proj (renderer e).
Proof.
  intros Hs Hm. unfold update. destruct (negb (isRunning e)); [reflexivity |].
  simpl. apply render_preserves; assumption.
Qed.

Lemma update_nodesMap e i sp :
  Renderer.nodesMap (renderer e) !! i = Some sp ->
  Renderer.nodesMap (renderer (update e)) !! i = Some sp.
Proof.
  intros Hsp. unfold update. destruct (negb (isRunning e)); [exact Hsp |].
  simpl. apply render_nodesMap. exact Hsp.
Qed.

Lemma selection_update e : selection (update e) = selection e.
Proof.
  unfold selection. rewrite update_selected.
  rewrite (update_renderer Renderer.selectedNodeId), (update_renderer Renderer.highlightNeighbors),
    (update_renderer Renderer.selectedClusterId); reflexivity.
Qed.

Lemma selection_notify f e : selection (notify f e) = selection e.
Proof. unfold notify. destruct (onSelectionChange e); reflexivity. Qed.

Lemma selection_handleDragStart i e : selection (handleDragStart i e) = selection e.
Proof. unfold handleDragStart. rewrite selection_update. reflexivity. Qed.

Lemma selection_handleDragMove i px py e : selection (handleDragMove i px py e) = selection e.
Proof.
  unfold handleDragMove. destruct (findNode (layout e) i); [| reflexivity].
  rewrite selection_update. reflexivity.
Qed.

Lemma selection_handleDragEnd i e : selection (handleDragEnd i e) = selection e.
Proof.
  unfold handleDragEnd. cbv zeta.
  destruct (findNode (layout (withPan true e)) i); [| reflexivity].
  rewrite selection_update. reflexivity.
Qed.

Lemma handleNodeClick_single i e : handleNodeClick i 1 e = e.
Proof. reflexivity. Qed.

Lemma handleHullClick_single i e : handleHullClick i 1 e = e.
Proof. reflexivity. Qed.

Lemma findNode_store l i r : findNode l i = Some r -> exists n, store l !! r = Some n /\ id n = i.
Proof.
  unfold findNode. intros Hf. apply find_some in Hf as [_ Hr].
  destruct (store l !! r) as [n |]; [| discriminate].
  exists n. split; [reflexivity |]. apply String.eqb_eq. exact Hr.
Qed.

Lemma selection_handleNodeClick_double i e r :
  findNode (layout e) i = Some r ->
  selection (handleNodeClick i 2 e)
  = (Some i, fold_left (addNeighbors (layout e) i) (links (layout e)) [], None, Some i).
Proof.
  intros Hf. unfold handleNodeClick. simpl Z.eqb. cbv iota. rewrite Hf.
  destruct (findNode_store _ _ _ Hf) as (n & Hn & _). rewrite Hn. cbv zeta.
  rewrite selection_notify. unfold effect at 1.
  unfold selection. cbn [renderer selectedNodeId]. rewrite update_selected.
  rewrite (update_renderer Renderer.selectedNodeId), (update_renderer Renderer.highlightNeighbors),
    (update_renderer Renderer.selectedClusterId); reflexivity.
Qed.

Lemma selection_handleNodeClick i c e :
  selection (handleNodeClick i c e) = selection e
  \/ exists ns, selection (handleNodeClick i c e) = (Some i, ns, None, Some i).
Proof.
  unfold handleNodeClick. destruct (c =? 2) eqn:Ec; [| left; reflexivity].
  destruct (findNode (layout e) i) as [r |] eqn:Hf; [| left; reflexivity].
  right. eexists. apply Z.eqb_eq in Ec. subst c.
  pose proof (selection_handleNodeClick_double i e r Hf) as Hd.
  unfold handleNodeClick in Hd. simpl Z.eqb in Hd. cbv iota in Hd. rewrite Hf in Hd. exact Hd.
Qed.

Lemma selection_handleHullClick_double i e :
  selection (handleHullClick i 2 e) = (None, [], Some i, None).
Proof.
  unfold handleHullClick. simpl Z.eqb. cbv iota zeta.
  rewrite selection_notify.
  match goal with |- selection (if ?b then _ else _) = _ => destruct b end;
    unfold selection; cbn [renderer selectedNodeId effect]; rewrite update_selected;
    rewrite (update_renderer Renderer.selectedNodeId), (update_renderer Renderer.highlightNeighbors),
      (update_renderer Renderer.selectedClusterId); reflexivity.
Qed.

Lemma selection_handleHullClick i c e :
  selection (handleHullClick i c e) = selection e
  \/ selection (handleHullClick i c e) = (None, [], Some i, None).
Proof.
  destruct (c =? 2) eqn:Ec.
  - apply Z.eqb_eq in Ec. subst c. right. apply selection_handleHullClick_double.
  - left. unfold handleHullClick. rewrite Ec. reflexivity.
Qed.

Lemma selection_handleBackgroundClick c e :
  selection (handleBackgroundClick c e) = (None, [], None, None).
Proof.
  unfold handleBackgroundClick. cbv zeta.
  assert (Hn : forall e0, selection e0 = (None, [], None, None) ->
                 selection (if c =? 2
                            then effect (smoothLookAt (Some (ofZ 0)) (Some (ofZ 0)) 1) e0
                            else e0) = (None, [], None, None)).
  { intros e0 He0. destruct (c =? 2); exact He0. }
  apply Hn. rewrite selection_notify, selection_update. reflexivity.
Qed.

Lemma selection_resetCamera e : selection (resetCamera e) = (None, [], None, None).
Proof.
  unfold resetCamera. cbv zeta.
  change (selection (notify selectionCleared
            (update (withRenderer (Renderer.updateSelection None [] None
                       (renderer (withSelected None e))) (withSelected None e))))
          = (None, [], None, None)).
  rewrite selection_notify, selection_update. reflexivity.
Qed.

End EngineFacts.

Section ListenerFacts.
Context `{G : Geometry}.
Import Layout HullGenerator GraphEngine Listeners.

Lemma lastClickOf_nodeObject e r : lastClickOf e r = nodeObject e r ≫= lastClick.
Proof.
  unfold lastClickOf, nodeObject. destruct (store (layout e) !! r); reflexivity.
Qed.

Lemma nodeObject_alter_pin e a b r0 r :
  unpinned <$> alter (setPin a b) r0 (store (layout e)) !! r = nodeObject e r.
Proof.
  unfold nodeObject. rewrite lookup_alter. destruct (decide (r0 = r)) as [-> | _]; [| reflexivity].
  destruct (store (layout e) !! r); reflexivity.
Qed.

Lemma undisturbed_refl e : undisturbed e e.
Proof. repeat split; auto. Qed.

Lemma undisturbed_trans e1 e2 e3 :
  undisturbed e1 e2 -> undisturbed e2 e3 -> undisturbed e1 e3.
Proof.
  intros (Hc & Hn & Hs) (Hc' & Hn' & Hs'). repeat split.
  - congruence.
  - intros r. rewrite Hn', Hn. reflexivity.
  - intros j sp Hj. apply Hs', Hs, Hj.
Qed.

Lemma undisturbed_update e : undisturbed e (update e).
Proof.
  repeat split.
  - apply update_clicks.
  - intros r. unfold nodeObject. rewrite update_layout. reflexivity.
  - intros j sp. apply update_nodesMap.
Qed.

Lemma undisturbed_notify f e : undisturbed e (notify f e).
Proof. unfold notify. destruct (onSelectionChange e); repeat split; auto. Qed.

Lemma undisturbed_handleDragStart i e : undisturbed e (handleDragStart i e).
Proof.
  unfold handleDragStart. cbv zeta.
  eapply undisturbed_trans; [| apply undisturbed_update]. repeat split; auto.
Qed.

Lemma undisturbed_handleDragEnd i e : undisturbed e (handleDragEnd i e).
Proof.
  unfold handleDragEnd. cbv zeta.
  destruct (findNode (layout (withPan true e)) i) as [r0 |].
  - eapply undisturbed_trans; [| apply undisturbed_update]. repeat split; auto.
    intros r. exact (nodeObject_alter_pin e null null r0 r).
  - repeat split; auto.
Qed.

Lemma undisturbed_handleNodeClick i c e : undisturbed e (handleNodeClick i c e).
Proof.
  unfold handleNodeClick. destruct (c =? 2); [| apply undisturbed_refl].
  destruct (findNode (layout e) i) as [r0 |]; [| apply undisturbed_refl].
  destruct (store (layout e) !! r0) as [n |]; [| apply undisturbed_refl]. cbv zeta.
  eapply undisturbed_trans; [| apply undisturbed_notify].
  eapply undisturbed_trans; [| repeat split; auto].
  eapply undisturbed_trans; [| apply undisturbed_update].
  repeat split; auto.
Qed.

(** The sprite of [i] after a press on it. *)
Lemma nodePointerDown_spec i e sp :
  Renderer.nodesMap (renderer e) !! i = Some sp ->
  let e' := nodePointerDown i e in
  clicks e' = clicks e
  /\ (forall r, nodeObject e' r = nodeObject e r)
  /\ (forall j sp', j <> i -> Renderer.nodesMap (renderer e) !! j = Some sp' ->
                    Renderer.nodesMap (renderer e') !! j = Some sp')
  /\ Renderer.nodesMap (renderer e') !! i
     = Some {| Renderer.node := Renderer.node sp; Renderer.isDragging := false;
               Renderer.listeners := S (Renderer.listeners sp) |}
  /\ selection e' = selection e.
Proof.
  intros Hsp. unfold nodePointerDown. rewrite Hsp. cbv zeta.
  set (sp1 := {| Renderer.node := Renderer.node sp; Renderer.isDragging := false;
                 Renderer.listeners := Renderer.listeners sp |}).
  set (e1 := setSprite i sp1 e).
  destruct (undisturbed_handleDragStart i e1) as (Hc & Hn & Hs).
  assert (H1 : Renderer.nodesMap (renderer e1) !! i = Some sp1).
  { unfold e1, setSprite. simpl. apply lookup_insert_eq. }
  rewrite (Hs _ _ H1). unfold setSprite. cbn [renderer clicks layout withRenderer].
  repeat split.
  - rewrite Hc. reflexivity.
  - intros r. unfold nodeObject. cbn [layout]. apply Hn.
  - intros j sp' Hj Hsp'. cbn [Renderer.nodesMap Renderer.withNodesMap].
    rewrite lookup_insert_ne by congruence. apply Hs. unfold e1, setSprite. simpl.
    rewrite lookup_insert_ne by congruence. exact Hsp'.
  - cbn [Renderer.nodesMap Renderer.withNodesMap]. apply lookup_insert_eq.
  - transitivity (selection (handleDragStart i e1)); [reflexivity |].
    rewrite selection_handleDragStart. reflexivity.
Qed.

Lemma nodePointerUp_spec i now e sp :
  Renderer.nodesMap (renderer e) !! i = Some sp ->
  Renderer.listeners sp = 1%nat ->
  Renderer.isDragging sp = false ->
  let e' := nodePointerUp i now e in
  let count := Renderer.nodeClickCount (lastClickOf e (Renderer.node sp)) now in
  clicks e' = clicks e ++ [onClickNode i count]
  /\ (forall r, r <> Renderer.node sp -> nodeObject e' r = nodeObject e r)
  /\ nodeObject e' (Renderer.node sp) = setLastClick now <$> nodeObject e (Renderer.node sp)
  /\ (forall j sp', j <> i -> Renderer.nodesMap (renderer e) !! j = Some sp' ->
                    Renderer.nodesMap (renderer e') !! j = Some sp')
  /\ Renderer.nodesMap (renderer e') !! i
     = Some {| Renderer.node := Renderer.node sp; Renderer.isDragging := false;
               Renderer.listeners := 0 |}
  /\ (count = 1 -> selection e' = selection e).
Proof.
  intros Hsp Hl Hd. unfold nodePointerUp. rewrite Hsp, Hl. cbn [Nat.iter nat_rect].
  unfold onUp. rewrite Hsp, Hd. cbv zeta. simpl negb. cbv iota.
  set (sp1 := {| Renderer.node := Renderer.node sp; Renderer.isDragging := false;
                 Renderer.listeners := 0 |}).
  set (e1 := setSprite i sp1 e).
  set (e2 := handleDragEnd i e1).
  assert (H12 : undisturbed e1 e2) by apply undisturbed_handleDragEnd.
  assert (Hlast : lastClickOf e2 (Renderer.node sp) = lastClickOf e (Renderer.node sp)).
  { rewrite !lastClickOf_nodeObject. destruct H12 as (_ & Hn & _). rewrite Hn. reflexivity. }
  rewrite Hlast.
  set (count := Renderer.nodeClickCount (lastClickOf e (Renderer.node sp)) now).
  set (e3 := report (onClickNode i count) e2).
  set (e4 := handleNodeClick i count e3).
  assert (H34 : undisturbed e3 e4) by apply undisturbed_handleNodeClick.
  destruct H12 as (Hc12 & Hn12 & Hs12). destruct H34 as (Hc34 & Hn34 & Hs34).
  assert (Hobj : forall r, unpinned <$> store (layout e4) !! r = nodeObject e r).
  { intros r. change (nodeObject e4 r = nodeObject e r). rewrite Hn34.
    change (nodeObject e2 r = nodeObject e r). rewrite Hn12. reflexivity. }
  repeat split.
  - cbn [clicks stampNode withLayout]. rewrite Hc34. unfold e3. cbn [clicks report].
    rewrite Hc12. reflexivity.
  - intros r Hr. unfold nodeObject, stampNode. cbn [layout withLayout store withStore].
    rewrite lookup_alter_ne by congruence. apply Hobj.
  - unfold nodeObject at 1. unfold stampNode. cbn [layout withLayout store withStore].
    rewrite lookup_alter_eq. rewrite <- Hobj.
    destruct (store (layout e4) !! Renderer.node sp); reflexivity.
  - intros j sp' Hj Hsp'. cbn [renderer stampNode withLayout].
    apply Hs34. unfold e3. cbn [renderer report]. apply Hs12.
    unfold e1, setSprite. simpl. rewrite lookup_insert_ne by congruence. exact Hsp'.
  - cbn [renderer stampNode withLayout].
    apply Hs34. unfold e3. cbn [renderer report]. apply Hs12.
    unfold e1, setSprite. simpl. apply lookup_insert_eq.
  - intros Hcount.
    transitivity (selection e4); [reflexivity |].
    unfold e4. rewrite Hcount, handleNodeClick_single.
    transitivity (selection e2); [reflexivity |].
    unfold e2. rewrite selection_handleDragEnd. reflexivity.
Qed.

(** A press on the sprite of node [i]: pointer down, then up at [now]
    with no move in between. *)
Lemma node_press i now e sp :
  Renderer.nodesMap (renderer e) !! i = Some sp ->
  Renderer.listeners sp = 0%nat ->
  let e' := nodePointerUp i now (nodePointerDown i e) in
  let count := Renderer.nodeClickCount (lastClickOf e (Renderer.node sp)) now in
  clicks e' = clicks e ++ [onClickNode i count]
  /\ (forall r, r <> Renderer.node sp -> nodeObject e' r = nodeObject e r)
  /\ nodeObject e' (Renderer.node sp) = setLastClick now <$> nodeObject e (Renderer.node sp)
  /\ (forall j sp', j <> i -> Renderer.nodesMap (renderer e) !! j = Some sp' ->
                    Renderer.nodesMap (renderer e') !! j = Some sp')
  /\ Renderer.nodesMap (renderer e') !! i
     = Some {| Renderer.node := Renderer.node sp; Renderer.isDragging := false;
               Renderer.listeners := 0 |}
  /\ (count = 1 -> selection e' = selection e).
Proof.
  intros Hsp Hrest.
  destruct (nodePointerDown_spec i e sp Hsp) as (Hc & Hn & Hs & Hi & Hsel).
  rewrite Hrest in Hi.
  pose proof (nodePointerUp_spec i now (nodePointerDown i e) _ Hi eq_refl eq_refl) as Hup.
  cbv zeta in Hup. cbn [Renderer.node] in Hup.
  assert (Hlast : lastClickOf (nodePointerDown i e) (Renderer.node sp)
                  = lastClickOf e (Renderer.node sp)).
  { rewrite !lastClickOf_nodeObject, Hn. reflexivity. }
  rewrite Hlast in Hup. destruct Hup as (Hc' & Hn' & Hn'' & Hs' & Hi' & Hsel').
  cbv zeta. repeat split.
  - rewrite Hc', Hc. reflexivity.
  - intros r Hr. rewrite Hn' by exact Hr. apply Hn.
  - rewrite Hn'', Hn. reflexivity.
  - intros j sp' Hj Hsp'. apply Hs'; [exact Hj |]. apply Hs; assumption.
  - exact Hi'.
  - intros Hcount. rewrite Hsel' by exact Hcount. exact Hsel.
Qed.

End ListenerFacts.

Section ClickFacts.
Context `{G : Geometry}.
Import Layout HullGenerator GraphEngine Listeners.

Lemma clicks_notify f e : clicks (notify f e) = clicks e.
Proof. unfold notify. destruct (onSelectionChange e); reflexivity. Qed.

Lemma clicks_handleHullClick i c e : clicks (handleHullClick i c e) = clicks e.
Proof.
  unfold handleHullClick. destruct (c =? 2); [| reflexivity]. cbv zeta.
  rewrite clicks_notify.
  match goal with |- clicks (if ?b then _ else _) = _ => destruct b end;
    cbn [clicks effect]; rewrite update_clicks; reflexivity.
Qed.

Lemma clicks_handleBackgroundClick c e : clicks (handleBackgroundClick c e) = clicks e.
Proof.
  unfold handleBackgroundClick. cbv zeta.
  destruct (c =? 2); cbn [clicks effect]; rewrite clicks_notify, update_clicks; reflexivity.
Qed.

Lemma nodeClickCount_double last now :
  Renderer.nodeClickCount last now = 2
  <-> exists t, last = Some t /\ t <> 0 /\ now - t < 300.
Proof.
  unfold Renderer.nodeClickCount. destruct last as [t |].
  - destruct (Z.eqb_spec t 0) as [-> | Hne]; simpl.
    + split; [discriminate |]. intros (t & [= <-] & Hne & _). congruence.
    + destruct (Z.ltb_spec (now - t) 300) as [Hlt | Hge].
      * split; [| reflexivity]. intros _. exists t. auto.
      * split; [discriminate |]. intros (t' & [= <-] & _ & Hlt). lia.
  - split; [discriminate |]. intros (t & Hx & _). discriminate.
Qed.

Lemma nodeClickCount_cases last now :
  Renderer.nodeClickCount last now = 1 \/ Renderer.nodeClickCount last now = 2.
Proof.
  unfold Renderer.nodeClickCount. destruct last as [t |]; [| auto].
  destruct (negb (t =? 0) && (now - t <? 300)); auto.
Qed.

Lemma clickCount_double last now : Renderer.clickCount last now = 2 <-> now - last < 300.
Proof.
  unfold Renderer.clickCount. destruct (Z.ltb_spec (now - last) 300) as [Hlt | Hge].
  - split; auto.
  - split; [discriminate | lia].
Qed.

Lemma clickCount_cases last now :
  Renderer.clickCount last now = 1 \/ Renderer.clickCount last now = 2.
Proof. unfold Renderer.clickCount. destruct (now - last <? 300); auto. Qed.

Lemma lastClickOf_stamped e e' r now :
  nodeObject e' r = setLastClick now <$> nodeObject e r ->
  is_Some (store (layout e) !! r) ->
  lastClickOf e' r = Some now.
Proof.
  intros Hobj [n Hn]. rewrite lastClickOf_nodeObject, Hobj.
  unfold nodeObject. rewrite Hn. reflexivity.
Qed.

(** A press on a plate shape that is on display. *)
Lemma plate_press shape now e g :
  shape ∈ Renderer.hullLayer (renderer e) ->
  Renderer.shapes (renderer e) !! shape = Some g ->
  let e' := platePointerDown shape now e in
  let count := Renderer.clickCount (Renderer.lastClickTime g) now in
  clicks e' = clicks e ++ [onClickHull (Renderer.plateId g) count]
  /\ (count = 1 ->
      selection e' = selection e
      /\ shape ∈ Renderer.hullLayer (renderer e')
      /\ Renderer.shapes (renderer e') !! shape
         = Some {| Renderer.plateId := Renderer.plateId g; Renderer.lastClickTime := now |}).
Proof.
  intros Hin Hg. unfold platePointerDown. rewrite bool_decide_eq_true_2 by exact Hin.
  rewrite Hg. cbv zeta. split.
  - cbn [clicks stampShape withRenderer]. rewrite clicks_handleHullClick. reflexivity.
  - intros Hcount. rewrite Hcount, handleHullClick_single.
    split; [reflexivity |]. split; [exact Hin |].
    unfold stampShape. cbn [renderer withRenderer report Renderer.shapes Renderer.withShapes].
    rewrite lookup_alter_eq, Hg. reflexivity.
Qed.

(** A press on the background: pointer down and up on the stage, less
    than five pixels apart. *)
Lemma stage_press down pos now e :
  ltb (hypot (sub (fst pos) (fst down)) (sub (snd pos) (snd down))) (ofZ 5) = true ->
  let e' := stagePointerUp true pos now (stagePointerDown true down e) in
  clicks e' = clicks e
              ++ [onClickBackground (Renderer.clickCount
                                       (Renderer.lastStageClickTime (renderer e)) now)]
  /\ Renderer.lastStageClickTime (renderer e') = now
  /\ selection e' = (None, [], None, None).
Proof.
  intros Hnear. unfold stagePointerUp, stagePointerDown.
  cbn [renderer withRenderer Renderer.stageDownPos Renderer.withStage
       Renderer.lastStageClickTime].
  rewrite Hnear. cbv zeta. repeat split.
  - cbn [clicks clearStageDown withRenderer]. rewrite clicks_handleBackgroundClick. reflexivity.
  - match goal with
    | |- selection (clearStageDown (withRenderer _ ?e0)) = _ =>
        transitivity (selection e0); [reflexivity | apply selection_handleBackgroundClick]
    end.
Qed.

End ClickFacts.

Section SelectionFacts.
Context `{G : Geometry}.
Import Layout HullGenerator GraphEngine Listeners.

Lemma selection_nodePointerDown i e : selection (nodePointerDown i e) = selection e.
Proof.
  destruct (Renderer.nodesMap (renderer e) !! i) as [sp |] eqn:Hsp.
  - apply (nodePointerDown_spec i e sp Hsp).
  - unfold nodePointerDown. rewrite Hsp. reflexivity.
Qed.

Lemma selection_onMove i px py e : selection (onMove i px py e) = selection e.
Proof.
  unfold onMove. destruct (Renderer.nodesMap (renderer e) !! i) as [sp |]; [| reflexivity].
  cbv zeta. rewrite selection_handleDragMove. reflexivity.
Qed.

Lemma selection_nodePointerMove i px py e :
  selection (nodePointerMove i px py e) = selection e.
Proof.
  unfold nodePointerMove. destruct (Renderer.nodesMap (renderer e) !! i) as [sp |]; [| reflexivity].
  induction (Renderer.listeners sp) as [| k IH]; [reflexivity |].
  cbn [Nat.iter nat_rect]. rewrite selection_onMove. exact IH.
Qed.

Lemma selectionStep_trans e1 e2 e3 :
  selectionStep e1 e2 -> selectionStep e2 e3 -> selectionStep e1 e3.
Proof.
  intros H12 [H23 | [H23 | H23]].
  - unfold selectionStep in *. rewrite H23. exact H12.
  - right. left. exact H23.
  - right. right. exact H23.
Qed.

Lemma selectionStep_onUp i now e : selectionStep e (onUp i now e).
Proof.
  unfold onUp.
  destruct (Renderer.nodesMap (renderer e) !! i) as [sp |]; [| left; reflexivity].
  cbv zeta.
  set (e2 := handleDragEnd i _).
  assert (H2 : selection e2 = selection e).
  { unfold e2. rewrite selection_handleDragEnd. reflexivity. }
  destruct (negb (Renderer.isDragging sp)); [| left; exact H2].
  set (count := Renderer.nodeClickCount _ now).
  destruct (selection_handleNodeClick i count (report (onClickNode i count) e2))
    as [Hs | [ns Hs]].
  - left. transitivity (selection (handleNodeClick i count (report (onClickNode i count) e2)));
      [reflexivity |]. rewrite Hs. exact H2.
  - right. left. exists i, ns. exact Hs.
Qed.

Lemma selectionStep_nodePointerUp i now e : selectionStep e (nodePointerUp i now e).
Proof.
  unfold nodePointerUp.
  destruct (Renderer.nodesMap (renderer e) !! i) as [sp |]; [| left; reflexivity].
  induction (Renderer.listeners sp) as [| k IH]; [left; reflexivity |].
  cbn [Nat.iter nat_rect]. eapply selectionStep_trans; [exact IH | apply selectionStep_onUp].
Qed.

Lemma selectionStep_platePointerDown shape now e :
  selectionStep e (platePointerDown shape now e).
Proof.
  unfold platePointerDown. destruct (bool_decide _); [| left; reflexivity].
  destruct (Renderer.shapes (renderer e) !! shape) as [g |]; [| left; reflexivity]. cbv zeta.
  set (count := Renderer.clickCount _ now).
  destruct (selection_handleHullClick (Renderer.plateId g) count
              (report (onClickHull (Renderer.plateId g) count) e)) as [Hs | Hs].
  - left. exact Hs.
  - right. right. eexists. exact Hs.
Qed.

Lemma selectionStep_stagePointerUp onStage pos now e :
  selectionStep e (stagePointerUp onStage pos now e).
Proof.
  unfold stagePointerUp.
  destruct (Renderer.stageDownPos (renderer e)) as [down |]; [| left; reflexivity].
  destruct onStage; [| left; reflexivity].
  destruct (ltb _ _); [| left; reflexivity]. cbv zeta.
  right. right. exists None.
  match goal with
  | |- selection (clearStageDown (withRenderer _ ?e0)) = _ =>
      transitivity (selection e0); [reflexivity | apply selection_handleBackgroundClick]
  end.
Qed.

Lemma selectionStep_step e a : selectionStep e (step e a).
Proof.
  destruct a; simpl step.
  - left. reflexivity.
  - left. apply selection_update.
  - left. unfold toggleTheme. rewrite selection_update. reflexivity.
  - right. right. exists None. apply selection_resetCamera.
  - left. reflexivity.
  - left. apply selection_nodePointerDown.
  - left. apply selection_nodePointerMove.
  - apply selectionStep_nodePointerUp.
  - apply selectionStep_platePointerDown.
  - left. unfold stagePointerDown. destruct onStage; reflexivity.
  - apply selectionStep_stagePointerUp.
  - left. reflexivity.
Qed.

Lemma exclusive_selection e a b c d :
  selection e = (a, b, c, d) -> a = None \/ c = None -> exclusive e.
Proof. unfold selection, exclusive. intros [= <- _ <- _] Hor. exact Hor. Qed.

Lemma exclusive_step e a : exclusive e -> exclusive (step e a).
Proof.
  intros He. destruct (selectionStep_step e a) as [Hs | [(i & ns & Hs) | (c & Hs)]].
  - unfold exclusive in *. unfold selection in Hs. injection Hs as -> _ -> _. exact He.
  - eapply exclusive_selection; [exact Hs | right; reflexivity].
  - eapply exclusive_selection; [exact Hs | left; reflexivity].
Qed.

Lemma exclusive_run actions : forall e, exclusive e -> exclusive (run e actions).
Proof.
  induction actions as [| a actions IH]; intros e He; simpl; [exact He |].
  apply IH, exclusive_step, He.
Qed.

(** C7.  A double click on a node of the layout selects it, with its
    neighbours, and clears the cluster; a double click on a plate selects
    its cluster and clears the node and the neighbours; a click on the
    background clears all three.  Whatever happens to an engine, single
    steps or whole runs from its creation, a selected node and a selected
    cluster are never both set. *)
Theorem selection_exclusive (e : t) :
  (forall i r, findNode (layout e) i = Some r ->
     selection (handleNodeClick i 2 e)
     = (Some i, fold_left (addNeighbors (layout e) i) (links (layout e)) [], None, Some i))
  /\ (forall i, selection (handleHullClick i 2 e) = (None, [], Some i, None))
  /\ (forall clickCount,
        selection (handleBackgroundClick clickCount e) = (None, [], None, None))
  /\ (forall a, exclusive e -> exclusive (step e a))
  /\ (forall actions, exclusive (run create actions)).
Proof.
  split; [intros i r; apply selection_handleNodeClick_double |].
  split; [intros i; apply selection_handleHullClick_double |].
  split; [intros c; apply selection_handleBackgroundClick |].
  split.
  - intros a. apply exclusive_step.
  - intros actions. apply exclusive_run. left. reflexivity.
Qed.

End SelectionFacts.

Section ClickTheorem.
Context `{G : Geometry}.
Import Layout HullGenerator GraphEngine Listeners.

(** C6.  Each shape is counted by its own time stamp.
    - A press on a node (pointer down and up on its sprite with no move,
      the sprite having no press in progress when it begins) reports a
      double click exactly when the node object of the sprite has a
      recorded click less than 300ms before, a single click otherwise; it
      records its time on that node object and on no other.  So a second
      press on the same node within the window is a double click, and
      presses on two different nodes are counted each from its own record:
      two single clicks when neither node has one.
    - A press on a plate shape on display, and a press on the background,
      report a double click exactly when the time is less than 300ms after
      the shape's [lastClickTime]; after a single click the plate shape
      stays on display with the time of the press.
    - A single click on a node or on a plate leaves the selection as it
      was. *)
Theorem click_disambiguation (e : t) :
  (forall i sp now,
     Renderer.nodesMap (renderer e) !! i = Some sp ->
     Renderer.listeners sp = 0%nat ->
     let e' := run e [NodeDown i; NodeUp i now] in
     let count := Renderer.nodeClickCount (lastClickOf e (Renderer.node sp)) now in
     clicks e' = clicks e ++ [onClickNode i count]
     /\ (is_Some (store (layout e) !! Renderer.node sp) ->
         lastClickOf e' (Renderer.node sp) = Some now)
     /\ (forall r, r <> Renderer.node sp -> lastClickOf e' r = lastClickOf e r)
     /\ (count = 1 -> selection e' = selection e))
  /\ (forall last now,
        (Renderer.nodeClickCount last now = 2
         <-> exists t, last = Some t /\ t <> 0 /\ now - t < 300)
        /\ (Renderer.nodeClickCount last now = 1 \/ Renderer.nodeClickCount last now = 2))
  /\ (forall i sp t1 t2,
        Renderer.nodesMap (renderer e) !! i = Some sp ->
        Renderer.listeners sp = 0%nat ->
        is_Some (store (layout e) !! Renderer.node sp) ->
        t1 <> 0 ->
        clicks (run e [NodeDown i; NodeUp i t1; NodeDown i; NodeUp i t2])
        = clicks e
          ++ [onClickNode i (Renderer.nodeClickCount (lastClickOf e (Renderer.node sp)) t1);
              onClickNode i (if t2 - t1 <? 300 then 2 else 1)])
  /\ (forall a b spa spb t1 t2,
        a <> b ->
        Renderer.nodesMap (renderer e) !! a = Some spa ->
        Renderer.nodesMap (renderer e) !! b = Some spb ->
        Renderer.listeners spa = 0%nat ->
        Renderer.listeners spb = 0%nat ->
        Renderer.node spa <> Renderer.node spb ->
        let e' := run e [NodeDown a; NodeUp a t1; NodeDown b; NodeUp b t2] in
        clicks e'
        = clicks e
          ++ [onClickNode a (Renderer.nodeClickCount (lastClickOf e (Renderer.node spa)) t1);
              onClickNode b (Renderer.nodeClickCount (lastClickOf e (Renderer.node spb)) t2)]
        /\ (lastClickOf e (Renderer.node spa) = None ->
            lastClickOf e (Renderer.node spb) = None ->
            clicks e' = clicks e ++ [onClickNode a 1; onClickNode b 1]
            /\ selection e' = selection e))
  /\ (forall shape g now,
        shape ∈ Renderer.hullLayer (renderer e) ->
        Renderer.shapes (renderer e) !! shape = Some g ->
        let e' := run e [PlateDown shape now] in
        let count := Renderer.clickCount (Renderer.lastClickTime g) now in
        clicks e' = clicks e ++ [onClickHull (Renderer.plateId g) count]
        /\ (count = 1 ->
            selection e' = selection e
            /\ forall now',
                 clicks (run e' [PlateDown shape now'])
                 = clicks e' ++ [onClickHull (Renderer.plateId g)
                                             (if now' - now <? 300 then 2 else 1)]))
  /\ (forall down pos now,
        ltb (hypot (sub (fst pos) (fst down)) (sub (snd pos) (snd down))) (ofZ 5) = true ->
        let e' := run e [StageDown true down; StageUp true pos now] in
        clicks e' = clicks e
                    ++ [onClickBackground
                          (Renderer.clickCount (Renderer.lastStageClickTime (renderer e)) now)]
        /\ Renderer.lastStageClickTime (renderer e') = now)
  /\ (forall last now,
        (Renderer.clickCount last now = 2 <-> now - last < 300)
        /\ (Renderer.clickCount last now = 1 \/ Renderer.clickCount last now = 2))
  /\ (forall i, handleNodeClick i 1 e = e /\ handleHullClick i 1 e = e).
Proof.
  split; [| split; [| split; [| split; [| split; [| split; [| split]]]]]].
  - intros i sp now Hsp Hrest. cbv zeta. unfold run. cbn [fold_left step].
    destruct (node_press i now e sp Hsp Hrest) as (Hc & Hn & Hn' & _ & _ & Hsel).
    repeat split.
    + exact Hc.
    + intros Hsome. eapply lastClickOf_stamped; [exact Hn' | exact Hsome].
    + intros r Hr. rewrite !lastClickOf_nodeObject, Hn by exact Hr. reflexivity.
    + exact Hsel.
  - intros last now. split; [apply nodeClickCount_double | apply nodeClickCount_cases].
  - intros i sp t1 t2 Hsp Hrest Hsome Ht1. unfold run. cbn [fold_left step].
    destruct (node_press i t1 e sp Hsp Hrest) as (Hc & _ & Hn' & _ & Hi & _).
    set (e1 := nodePointerUp i t1 (nodePointerDown i e)) in *.
    destruct (node_press i t2 e1 _ Hi eq_refl) as (Hc2 & _). cbn [Renderer.node] in Hc2.
    rewrite Hc2, Hc, <- app_assoc. simpl app.
    rewrite (lastClickOf_stamped e e1 _ t1 Hn' Hsome).
    unfold Renderer.nodeClickCount at 2.
    destruct (Z.eqb_spec t1 0) as [-> | _]; [congruence |]. reflexivity.
  - intros a b spa spb t1 t2 Hab Ha Hb Hra Hrb Hnodes. cbv zeta. unfold run.
    cbn [fold_left step].
    destruct (node_press a t1 e spa Ha Hra) as (Hc & Hn & _ & Hs & _ & Hsel).
    set (e1 := nodePointerUp a t1 (nodePointerDown a e)) in *.
    assert (Hb1 : Renderer.nodesMap (renderer e1) !! b = Some spb).
    { apply Hs; [congruence | exact Hb]. }
    destruct (node_press b t2 e1 spb Hb1 Hrb) as (Hc2 & _ & _ & _ & _ & Hsel2).
    assert (Hlast : lastClickOf e1 (Renderer.node spb) = lastClickOf e (Renderer.node spb)).
    { rewrite !lastClickOf_nodeObject, Hn by congruence. reflexivity. }
    rewrite Hlast in Hc2, Hsel2.
    assert (Hclicks : clicks (nodePointerUp b t2 (nodePointerDown b e1))
                      = clicks e
                        ++ [onClickNode a (Renderer.nodeClickCount
                                             (lastClickOf e (Renderer.node spa)) t1);
                            onClickNode b (Renderer.nodeClickCount
                                             (lastClickOf e (Renderer.node spb)) t2)]).
    { rewrite Hc2, Hc, <- app_assoc. reflexivity. }
    split; [exact Hclicks |].
    intros Hla Hlb. rewrite Hla, Hlb in *. split; [exact Hclicks |].
    rewrite Hsel2 by reflexivity. apply Hsel. reflexivity.
  - intros shape g now Hin Hg. cbv zeta. unfold run. cbn [fold_left step].
    destruct (plate_press shape now e g Hin Hg) as (Hc & Hsingle).
    split; [exact Hc |]. intros Hcount.
    destruct (Hsingle Hcount) as (Hsel & Hin' & Hg').
    split; [exact Hsel |]. intros now'.
    destruct (plate_press shape now' _ _ Hin' Hg') as (Hc' & _). exact Hc'.
  - intros down pos now Hnear. cbv zeta. unfold run. cbn [fold_left step].
    destruct (stage_press down pos now e Hnear) as (Hc & Hl & _). split; assumption.
  - intros last now. split; [apply clickCount_double | apply clickCount_cases].
  - intros i. split; reflexivity.
Qed.

End ClickTheorem.

(** ** The node objects of the sprites *)

Section HeapFacts.
Context `{G : Geometry}.
Import Layout HullGenerator GraphEngine Listeners.

Lemma top_above (st : gmap ref GraphNode) r : is_Some (st !! r) -> (r < top st)%nat.
Proof.
  unfold top.
  apply (map_fold_weak_ind (fun t (m : gmap ref GraphNode) => is_Some (m !! r) -> (r < t)%nat)).
  - intros [n Hn]. rewrite lookup_empty in Hn. discriminate.
  - intros i n m t _ IH Hr. destruct (decide (i = r)) as [-> | Hne]; [lia |].
    rewrite lookup_insert_ne in Hr by exact Hne. specialize (IH Hr). lia.
Qed.

(** [setData] leaves the objects of the store where they are. *)
Lemma setData_old l built r :
  is_Some (store l !! r) -> store (setData l built) !! r = store l !! r.
Proof. intros Hr. unfold setData. cbn [store]. apply lookup_union_l'. exact Hr. Qed.

(** The objects it builds are all there, above the others. *)
Lemma setData_new l built r :
  store (setData l built) !! (top (store l) + r)%nat = store built !! r.
Proof.
  unfold setData. cbn [store]. rewrite lookup_union_r.
  - apply (lookup_kmap (Nat.add (top (store l)))).
  - destruct (store l !! (top (store l) + r)%nat) as [n |] eqn:E; [| reflexivity].
    assert (top (store l) + r < top (store l))%nat by (apply top_above; eauto). lia.
Qed.

Lemma alive_sprites e e' :
  (forall r j, id <$> store (layout e) !! r = Some j ->
               id <$> store (layout e') !! r = Some j) ->
  (forall j sp', Renderer.nodesMap (renderer e') !! j = Some sp' ->
     exists sp, Renderer.nodesMap (renderer e) !! j = Some sp
                /\ Renderer.node sp = Renderer.node sp') ->
  alive e -> alive e'.
Proof.
  intros Hst Hsp He j sp' Hj. destruct (Hsp j sp' Hj) as (sp & Hj' & <-).
  apply Hst. exact (He j sp Hj').
Qed.

Lemma id_alter_pin (f : GraphNode -> GraphNode) r (st : gmap ref GraphNode) r' :
  (forall n, id (f n) = id n) ->
  id <$> alter f r st !! r' = id <$> st !! r'.
Proof.
  intros Hf. destruct (decide (r = r')) as [-> | Hne].
  - rewrite lookup_alter_eq. destruct (st !! r'); cbn; [rewrite Hf |]; reflexivity.
  - rewrite lookup_alter_ne by exact Hne. reflexivity.
Qed.

Lemma alive_same e e' :
  store (layout e') = store (layout e) ->
  Renderer.nodesMap (renderer e') = Renderer.nodesMap (renderer e) ->
  alive e -> alive e'.
Proof.
  intros Hst Hm. apply alive_sprites.
  - intros r j. rewrite Hst. auto.
  - intros j sp'. rewrite Hm. eauto.
Qed.

Lemma fold_addSprite_origin ns : forall r i sp,
  Renderer.nodesMap (fold_left Renderer.addSprite ns r) !! i = Some sp ->
  Renderer.nodesMap r !! i = Some sp
  \/ exists n, n ∈ ns /\ Renderer.node sp = fst n /\ id (snd n) = i.
Proof.
  induction ns as [| n ns IH]; intros r i sp Hsp; [left; exact Hsp |].
  cbn [fold_left] in Hsp. destruct (IH _ _ _ Hsp) as [Hr | (n' & Hn' & Heq)].
  - unfold Renderer.addSprite in Hr.
    destruct (Renderer.nodesMap r !! id (snd n)) eqn:E; [left; exact Hr |].
    cbn [Renderer.nodesMap Renderer.withNodesMap] in Hr.
    apply lookup_insert_Some in Hr as [[Hi <-] | [_ Hr]].
    + right. exists n. split; [apply list_elem_of_here | split; [reflexivity | exact Hi]].
    + left. exact Hr.
  - right. exists n'. split; [apply list_elem_of_further, Hn' | exact Heq].
Qed.

Lemma render_origin r ns ps lm i sp :
  Renderer.nodesMap (Renderer.render r ns ps lm) !! i = Some sp ->
  Renderer.nodesMap r !! i = Some sp
  \/ exists n, n ∈ ns /\ Renderer.node sp = fst n /\ id (snd n) = i.
Proof.
  unfold Renderer.render. intros Hsp.
  apply fold_addSprite_origin in Hsp as [Hr | Hn]; [left | right; exact Hn].
  assert (Hplates : forall ps r, Renderer.nodesMap (fold_left Renderer.addPlate ps r)
                                 = Renderer.nodesMap r).
  { clear. induction ps as [| p ps IH]; intros r; simpl; [reflexivity |].
    rewrite IH. reflexivity. }
  destruct lm as [lm |]; [destruct (Nat.ltb 0 _) |]; rewrite ?Hplates in Hr; exact Hr.
Qed.

Lemma alive_update e : alive e -> alive (update e).
Proof.
  intros He j sp Hj. rewrite update_layout. unfold update in Hj.
  destruct (negb (isRunning e)); [exact (He j sp Hj) |].
  cbn [renderer withRenderer] in Hj.
  apply render_origin in Hj as [Hold | ([r n] & Hn & Heq & Hid)]; [exact (He j sp Hold) |].
  cbn [fst snd] in Heq, Hid. rewrite Heq. unfold getNodeRefs in Hn.
  apply list_elem_of_omap in Hn as (r' & _ & Hr').
  destruct (store (layout e) !! r') as [n' |] eqn:E; [| discriminate].
  cbn in Hr'. injection Hr' as <- <-. rewrite E. cbn. rewrite Hid. reflexivity.
Qed.

Lemma alive_notify f e : alive e -> alive (notify f e).
Proof. unfold notify. destruct (onSelectionChange e); [apply alive_same |]; auto. Qed.

Lemma alive_alter f r e :
  (forall n, id (f n) = id n) ->
  alive e -> alive (withLayout (withStore (alter f r (store (layout e))) (layout e)) e).
Proof.
  intros Hf. apply alive_sprites.
  - intros r' j. cbn [layout withLayout store withStore]. rewrite id_alter_pin by exact Hf.
    auto.
  - intros j sp' Hj. eauto.
Qed.

Lemma alive_setSprite i sp sp' e :
  Renderer.nodesMap (renderer e) !! i = Some sp ->
  Renderer.node sp' = Renderer.node sp ->
  alive e -> alive (setSprite i sp' e).
Proof.
  intros Hsp Hnode. apply alive_sprites; [auto |].
  intros j sp0 Hj. unfold setSprite in Hj. cbn in Hj.
  apply lookup_insert_Some in Hj as [[<- <-] | [_ Hj]]; eauto.
Qed.

Lemma alive_handleDragStart i e : alive e -> alive (handleDragStart i e).
Proof.
  intros He. unfold handleDragStart. cbv zeta. apply alive_update.
  revert He. apply alive_same; reflexivity.
Qed.

Lemma alive_handleDragMove i px py e : alive e -> alive (handleDragMove i px py e).
Proof.
  intros He. unfold handleDragMove. destruct (findNode (layout e) i) as [r |]; [| exact He].
  apply alive_update. apply (alive_alter _ r e); [reflexivity | exact He].
Qed.

Lemma alive_handleDragEnd i e : alive e -> alive (handleDragEnd i e).
Proof.
  intros He. unfold handleDragEnd. cbv zeta.
  assert (alive (withPan true e)) as Hp by (revert He; apply alive_same; reflexivity).
  destruct (findNode (layout (withPan true e)) i) as [r |]; [| exact Hp].
  apply alive_update. revert Hp. apply alive_sprites.
  - intros r' j. cbn [layout withLayout withPan dragEnd store withStore withSimulation].
    rewrite id_alter_pin by reflexivity. auto.
  - intros j sp' Hj. eauto.
Qed.

Lemma alive_handleNodeClick i c e : alive e -> alive (handleNodeClick i c e).
Proof.
  intros He. unfold handleNodeClick. destruct (c =? 2); [| exact He].
  destruct (findNode (layout e) i) as [r |]; [| exact He].
  destruct (store (layout e) !! r) as [n |]; [| exact He]. cbv zeta.
  apply alive_notify.
  assert (forall f e0, alive e0 -> alive (effect f e0)) as Heff.
  { intros f e0. apply alive_same; reflexivity. }
  apply Heff. apply alive_update. revert He. apply alive_same; reflexivity.
Qed.

Lemma alive_handleHullClick i c e : alive e -> alive (handleHullClick i c e).
Proof.
  intros He. unfold handleHullClick. destruct (c =? 2); [| exact He]. cbv zeta.
  apply alive_notify.
  set (e1 := update _).
  assert (alive e1) as H1.
  { apply alive_update. revert He. apply alive_same; reflexivity. }
  destruct (Nat.ltb 0 _); [| exact H1]. revert H1. apply alive_same; reflexivity.
Qed.

Lemma alive_handleBackgroundClick c e : alive e -> alive (handleBackgroundClick c e).
Proof.
  intros He. unfold handleBackgroundClick. cbv zeta.
  set (e1 := notify _ _).
  assert (alive e1) as H1.
  { apply alive_notify, alive_update. revert He. apply alive_same; reflexivity. }
  destruct (c =? 2); [| exact H1]. revert H1. apply alive_same; reflexivity.
Qed.

Lemma alive_onMove i px py e : alive e -> alive (onMove i px py e).
Proof.
  intros He. unfold onMove.
  destruct (Renderer.nodesMap (renderer e) !! i) as [sp |] eqn:Hsp; [| exact He]. cbv zeta.
  apply alive_handleDragMove. revert He. by apply (alive_setSprite i sp).
Qed.

Lemma alive_onUp i now e : alive e -> alive (onUp i now e).
Proof.
  intros He. unfold onUp.
  destruct (Renderer.nodesMap (renderer e) !! i) as [sp |] eqn:Hsp; [| exact He]. cbv zeta.
  set (e2 := handleDragEnd i _).
  assert (alive e2) as H2.
  { apply alive_handleDragEnd. revert He. by apply (alive_setSprite i sp). }
  destruct (negb (Renderer.isDragging sp)); [| exact H2].
  unfold stampNode. apply alive_alter; [reflexivity |]. apply alive_handleNodeClick.
  revert H2. apply alive_same; reflexivity.
Qed.

Lemma alive_iter (f : t -> t) n e :
  (forall e0, alive e0 -> alive (f e0)) -> alive e -> alive (Nat.iter n f e).
Proof. intros Hf He. induction n as [| n IH]; [exact He | exact (Hf _ IH)]. Qed.

Lemma alive_step e a : alive e -> alive (step e a).
Proof.
  intros He. destruct a; cbn [step].
  - unfold init. revert He. apply alive_sprites.
    + intros r j Hr. cbn [layout withRunning withLayout].
      rewrite setData_old; [exact Hr |]. destruct (store (layout e) !! r); [eauto | discriminate].
    + intros j sp' Hj. eauto.
  - by apply alive_update.
  - unfold toggleTheme. apply alive_update. revert He. apply alive_same; reflexivity.
  - unfold resetCamera. cbv zeta.
    assert (forall f e0, alive e0 -> alive (effect f e0)) as Heff.
    { intros f e0. apply alive_same; reflexivity. }
    apply Heff, alive_notify, alive_update. revert He. apply alive_same; reflexivity.
  - revert He. apply alive_same; reflexivity.
  - unfold nodePointerDown.
    destruct (Renderer.nodesMap (renderer e) !! i) as [sp |] eqn:Hsp; [| exact He]. cbv zeta.
    set (e1 := handleDragStart i _).
    assert (alive e1) as H1.
    { apply alive_handleDragStart. revert He. by apply (alive_setSprite i sp). }
    destruct (Renderer.nodesMap (renderer e1) !! i) as [sp1 |] eqn:Hsp1; [| exact H1].
    revert H1. by apply (alive_setSprite i sp1).
  - unfold nodePointerMove.
    destruct (Renderer.nodesMap (renderer e) !! i) as [sp |]; [| exact He].
    apply alive_iter; [apply alive_onMove | exact He].
  - unfold nodePointerUp.
    destruct (Renderer.nodesMap (renderer e) !! i) as [sp |]; [| exact He].
    apply alive_iter; [apply alive_onUp | exact He].
  - unfold platePointerDown. destruct (bool_decide _); [| exact He].
    destruct (Renderer.shapes (renderer e) !! shape) as [g |]; [| exact He]. cbv zeta.
    set (e1 := handleHullClick _ _ _).
    assert (alive e1) as H1.
    { apply alive_handleHullClick. revert He. apply alive_same; reflexivity. }
    revert H1. apply alive_same; reflexivity.
  - unfold stagePointerDown. destruct onStage; [| exact He].
    revert He. apply alive_same; reflexivity.
  - unfold stagePointerUp. cbv zeta.
    set (e1 := match Renderer.stageDownPos (renderer e) with Some _ => _ | None => _ end).
    assert (alive e1) as H1.
    { unfold e1. destruct (Renderer.stageDownPos (renderer e)) as [down |]; [| exact He].
      destruct onStage; [| exact He]. destruct (ltb _ _); [| exact He]. cbv zeta.
      set (e2 := handleBackgroundClick _ _).
      assert (alive e2) as H2.
      { apply alive_handleBackgroundClick. revert He. apply alive_same; reflexivity. }
      revert H2. apply alive_same; reflexivity. }
    revert H1. apply alive_same; reflexivity.
  - revert He. apply alive_same; reflexivity.
Qed.

(** Whatever happens to an engine from its creation on, every sprite holds
    a node object of the store, the one with its [id]: no click is lost for
    want of the object, also when the layout has been given new data since
    the sprite was drawn, and two sprites never hold one object. *)
Lemma alive_run actions : alive (run create actions).
Proof.
  assert (forall e, alive e -> alive (run e actions)) as Hrun.
  { induction actions as [| a actions IH]; intros e He; [exact He |].
    cbn [run fold_left]. apply IH, alive_step, He. }
  apply Hrun. intros j sp Hj. cbn in Hj. rewrite lookup_empty in Hj. discriminate.
Qed.

Lemma alive_distinct e a b spa spb :
  alive e -> a <> b ->
  Renderer.nodesMap (renderer e) !! a = Some spa ->
  Renderer.nodesMap (renderer e) !! b = Some spb ->
  is_Some (store (layout e) !! Renderer.node spa)
  /\ is_Some (store (layout e) !! Renderer.node spb)
  /\ Renderer.node spa <> Renderer.node spb.
Proof.
  intros He Hab Ha Hb. pose proof (He a spa Ha) as Hia. pose proof (He b spb Hb) as Hib.
  split; [| split].
  - destruct (store (layout e) !! Renderer.node spa); [eauto | discriminate].
  - destruct (store (layout e) !! Renderer.node spb); [eauto | discriminate].
  - intros Heq. rewrite Heq in Hia. congruence.
Qed.

(** A call of [onUp] detaches the listeners of the sprite. *)
Lemma onUp_sprite i now e sp :
  Renderer.nodesMap (renderer e) !! i = Some sp ->
  Renderer.nodesMap (renderer (onUp i now e)) !! i
  = Some {| Renderer.node := Renderer.node sp; Renderer.isDragging := Renderer.isDragging sp;
            Renderer.listeners := 0 |}.
Proof.
  intros Hsp. unfold onUp. rewrite Hsp. cbv zeta.
  set (sp' := {| Renderer.node := Renderer.node sp;
                 Renderer.isDragging := Renderer.isDragging sp;
                 Renderer.listeners := 0 |}).
  set (e2 := handleDragEnd i _).
  assert (Renderer.nodesMap (renderer e2) !! i = Some sp') as H2.
  { apply undisturbed_handleDragEnd. unfold setSprite. cbn. apply lookup_insert_eq. }
  destruct (negb (Renderer.isDragging sp)); [| exact H2].
  cbn [renderer stampNode withLayout].
  apply undisturbed_handleNodeClick. cbn [renderer report]. exact H2.
Qed.

(** A release ends every press in progress on the sprite. *)
Lemma nodePointerUp_listeners i now e sp :
  Renderer.nodesMap (renderer e) !! i = Some sp ->
  exists sp', Renderer.nodesMap (renderer (nodePointerUp i now e)) !! i = Some sp'
              /\ Renderer.listeners sp' = 0%nat.
Proof.
  intros Hsp. unfold nodePointerUp. rewrite Hsp.
  destruct (Renderer.listeners sp) as [| k] eqn:Hl; [exists sp; auto |].
  change (Nat.iter (S k) (onUp i now) e) with (onUp i now (Nat.iter k (onUp i now) e)).
  assert (is_Some (Renderer.nodesMap (renderer (Nat.iter k (onUp i now) e)) !! i))
    as [sp1 Hsp1].
  { clear Hl. induction k as [| k IH]; [eauto |].
    change (Nat.iter (S k) (onUp i now) e) with (onUp i now (Nat.iter k (onUp i now) e)).
    destruct IH as [sp0 H0]. rewrite (onUp_sprite _ _ _ _ H0). eauto. }
  rewrite (onUp_sprite _ _ _ _ Hsp1). eexists. split; reflexivity.
Qed.

End HeapFacts.

(** ** The theorems on the example workspace and layout *)

Section Examples.
Import DependencyService Layout HullGenerator GraphEngine Listeners.

(** The graph with its edges reversed is an outcome of [generate]. *)
Lemma generates_graph : generates Example.config "/r" Example.files Example.graph.
Proof. split; [reflexivity |]. symmetry. apply Permutation_rev. Qed.

(** C1, on the example workspace with the edges in the opposite order. *)
Lemma generate_edges_reference_nodes_witness :
  generates Example.config "/r" Example.files Example.graph
  /\ Forall (fun e => DependencyService.source e ∈ map nodeId (graphNodes Example.graph)
                      /\ DependencyService.target e ∈ map nodeId (graphNodes Example.graph))
            (graphEdges Example.graph).
Proof.
  split; [exact generates_graph |].
  exact (proj1 (generate_edges_reference_nodes Example.config "/r" Example.files
                  Example.graph generates_graph)).
Defined.

(** C2, on the example workspace, where [a.ts] imports itself. *)
Lemma generate_no_self_loop_witness :
  generates Example.config "/r" Example.files Example.graph
  /\ value (resolveImport "./a" "/r/a.ts" "/r" Example.files) = ["/r/a.ts"]
  /\ Forall (fun e => DependencyService.source e <> DependencyService.target e)
            (graphEdges Example.graph).
Proof.
  split; [exact generates_graph |]. split; [vm_compute; reflexivity |].
  exact (generate_no_self_loop Example.config "/r" Example.files Example.graph
           generates_graph).
Defined.

(** The scenario of three files of which the first imports the second:
    three of the five nodes, and the one edge between them. *)
Example generate_scenario :
  map (fun e => (DependencyService.source e, DependencyService.target e))
      (graphEdges (generate Example.config "/r" Example.files))
  = [("0", "1"); ("3", "1")].
Proof. vm_compute. reflexivity. Qed.

(** The plates of three nodes in two directories, on the stand-in
    geometry. *)
Lemma computeLandforms_one_plate_per_directory_example :
  map hullId (snd (computeLandforms Example.threeNodes (fun d => d)))
  ≡ₚ remove_dups (map directory Example.threeNodes)
  /\ List.length (snd (computeLandforms Example.threeNodes (fun d => d))) = 2%nat.
Proof.
  apply (computeLandforms_one_plate_per_directory Example.threeNodes (fun d => d)).
  - simpl. lia.
  - repeat constructor; discriminate.
  - intros i Hi. vm_compute in Hi.
    destruct i as [| [| i]]; [eexists; vm_compute; reflexivity ..|].
    exfalso. apply Nat.ltb_lt in Hi. vm_compute in Hi. discriminate.
Qed.

(** C4.  One plate per distinct directory is what the code computes
    unless a directory is named like a property that every object
    inherits; there it fails.  The nodes of the files [constructor/a.ts],
    [constructor/b.ts] and [src/c.ts] are three nodes with two directory
    values, placed in three directions.  On the stand-in geometry they get
    the one plate of [src]; whatever the geometry libraries answer and
    whatever the colours, they get one plate at most and none for
    [constructor].  In general no plate ever carries an inherited name. *)
Theorem computeLandforms_inherited_directory :
  List.length Example.constructorNodes = 3%nat
  /\ remove_dups (map directory Example.constructorNodes) = ["constructor"; "src"]
  /\ map hullId (snd (computeLandforms Example.constructorNodes (fun d => d))) = ["src"]
  /\ (forall (G : Geometry) (colorFn : string -> string),
        (List.length (snd (computeLandforms Example.constructorNodes colorFn)) <= 1)%nat
        /\ "constructor" ∉ map hullId (snd (computeLandforms Example.constructorNodes
                                                               colorFn)))
  /\ (forall (N : JSNumber) (G : Geometry) (nodes : list GraphNode)
             (colorFn : string -> string) (p : Hull),
        p ∈ snd (computeLandforms nodes colorFn) -> JS.inherited (hullId p) = false).
Proof.
  split; [reflexivity |]. split; [vm_compute; reflexivity |].
  split; [vm_compute; reflexivity |]. split.
  - intros G colorFn. split.
    + unfold computeLandforms. simpl Nat.ltb. cbv iota. cbn [snd].
      unfold platesOf. etransitivity; [apply length_omap_le |].
      rewrite length_imap, length_map. vm_compute. lia.
    + intros Hin. apply list_elem_of_fmap in Hin as (p & Hid & Hp).
      apply computeLandforms_own_directories in Hp as [Hinh _].
      rewrite <- Hid in Hinh. vm_compute in Hinh. discriminate.
  - intros N G nodes colorFn p Hp.
    exact (proj1 (computeLandforms_own_directories nodes colorFn p Hp)).
Qed.

(** C8, on the plate of [src] computed for two engines, the second with
    the other theme, from two node lists. *)
Lemma getColor_deterministic_witness :
  exists p p',
    p ∈ snd (computeLandforms Example.threeNodes (getColor Example.engine))
    /\ p' ∈ snd (computeLandforms Example.mixedNodes
                   (getColor (toggleTheme Example.engine)))
    /\ hullId p = "src" /\ hullId p' = "src" /\ color p = color p'.
Proof.
  assert (Hp : exists p, snd (computeLandforms Example.threeNodes (getColor Example.engine))
                         !! 0%nat = Some p /\ hullId p = "src").
  { eexists. split; [vm_compute; reflexivity | reflexivity]. }
  assert (Hp' : exists p', snd (computeLandforms Example.mixedNodes
                                  (getColor (toggleTheme Example.engine)))
                           !! 1%nat = Some p' /\ hullId p' = "src").
  { eexists. split; [vm_compute; reflexivity | reflexivity]. }
  destruct Hp as (p & Hp & Hid). destruct Hp' as (p' & Hp' & Hid').
  exists p, p'.
  assert (Hin : p ∈ snd (computeLandforms Example.threeNodes (getColor Example.engine))).
  { apply list_elem_of_lookup. exists 0%nat. exact Hp. }
  assert (Hin' : p' ∈ snd (computeLandforms Example.mixedNodes
                             (getColor (toggleTheme Example.engine)))).
  { apply list_elem_of_lookup. exists 1%nat. exact Hp'. }
  repeat split; try assumption.
  apply (proj2 (proj2 (getColor_deterministic Example.engine
                         (toggleTheme Example.engine) ""))
           Example.threeNodes Example.mixedNodes p p' Hin Hin').
  rewrite Hid, Hid'. reflexivity.
Defined.

(** C6, on the example engine: two presses on one node 200ms apart, and
    two presses on two nodes 200ms apart. *)
Lemma click_disambiguation_witness :
  Renderer.nodesMap (renderer Example.engine) !! "0" = Some Example.sprite0
  /\ clicks (run Example.engine [NodeDown "0"; NodeUp "0" 1000; NodeDown "0"; NodeUp "0" 1200])
     = [onClickNode "0" 1; onClickNode "0" 2]
  /\ clicks (run Example.engine [NodeDown "0"; NodeUp "0" 1000; NodeDown "1"; NodeUp "1" 1200])
     = [onClickNode "0" 1; onClickNode "1" 1].
Proof.
  assert (Hsp : Renderer.nodesMap (renderer Example.engine) !! "0" = Some Example.sprite0)
    by (vm_compute; reflexivity).
  assert (Hsome : is_Some (store (layout Example.engine) !! Renderer.node Example.sprite0)).
  { eexists. vm_compute. reflexivity. }
  assert (Ht : 1000 <> 0) by discriminate.
  pose proof (click_disambiguation Example.engine) as (_ & _ & Hsame & _).
  split; [exact Hsp |]. split.
  - rewrite (Hsame "0" Example.sprite0 1000 1200 Hsp eq_refl Hsome Ht). vm_compute.
    reflexivity.
  - vm_compute. reflexivity.
Defined.

(** Two pointer downs on a sprite before the release attach [onUp] twice,
    and the one release then reports a single and a double click. *)
Example overlapping_presses_report_twice :
  clicks (run Example.engine [NodeDown "0"; NodeDown "0"; NodeUp "0" 1000])
  = [onClickNode "0" 1; onClickNode "0" 2].
Proof. vm_compute. reflexivity. Qed.

(** A sprite keeps the node object it was drawn for: once the layout has
    new data, node [0] of the layout is a new object, and the presses on
    the sprite are still counted on the former one. *)
Example sprite_keeps_its_node :
  findNode (layout (run Example.engine [Init Example.layout; Tick])) "0" = Some 3%nat
  /\ Renderer.node <$> Renderer.nodesMap
                         (renderer (run Example.engine [Init Example.layout; Tick])) !! "0"
     = Some 0%nat
  /\ clicks (run Example.engine [Init Example.layout; Tick; NodeDown "0"; NodeUp "0" 1000;
                                 NodeDown "0"; NodeUp "0" 1100])
     = [onClickNode "0" 1; onClickNode "0" 2].
Proof. vm_compute. repeat split; reflexivity. Qed.

(** C7, on the example engine: a double click on node [1], whose one
    link comes from node [0]. *)
Lemma selection_exclusive_witness :
  findNode (layout Example.engine) "1" = Some 1%nat
  /\ selection (handleNodeClick "1" 2 Example.engine) = (Some "1", ["0"], None, Some "1").
Proof.
  assert (Hf : findNode (layout Example.engine) "1" = Some 1%nat) by (vm_compute; reflexivity).
  split; [exact Hf |].
  rewrite (proj1 (selection_exclusive Example.engine) "1" 1%nat Hf).
  vm_compute. reflexivity.
Defined.

End Examples.

(** ** The nodes, edges and errors of [generate] *)

Section GenerateMore.
Import DependencyService.
Context `{F : fs.Host} `{P : path.Host}.

Lemma pretty_N_go_length x : forall s,
  (String.length s <= String.length (pretty_N_go x s))%nat.
Proof.
  induction (N.lt_wf_0 x) as [x _ IH]; intros s.
  destruct (decide (x = 0%N)) as [->|Hx].
  - rewrite pretty_N_go_0. lia.
  - rewrite pretty_N_go_step by lia.
    etrans; [|apply IH; apply N.div_lt; lia]. simpl. lia.
Qed.

Lemma pretty_nat_nonempty (n : nat) : pretty n <> "".
Proof.
  unfold pretty, pretty_nat, pretty, pretty_N.
  destruct (decide (N.of_nat n = 0%N)) as [_|Hn]; [discriminate|].
  rewrite pretty_N_go_step by lia.
  intros Heq.
  pose proof (pretty_N_go_length (N.of_nat n `div` 10)
                (String (pretty_N_char (N.of_nat n `mod` 10)) "")) as Hlen.
  rewrite Heq in Hlen. simpl in Hlen. lia.
Qed.

Lemma fold_addNode_nodes rootDir files : forall st,
  nodes (fold_left (addNode rootDir) files st)
  = nodes st ++ imap (fun i file => createNode rootDir (pretty (nodeIdCounter st + i)%nat) file)
                     files.
Proof.
  induction files as [|file files IH]; intros st; simpl.
  - by rewrite List.app_nil_r.
  - rewrite IH. simpl. rewrite <- List.app_assoc. simpl.
    rewrite Nat.add_0_r. do 2 f_equal.
    apply imap_ext. intros i x _. simpl. do 2 f_equal. lia.
Qed.

Lemma elem_of_flat_map {A B : Type} (f : A -> list B) (l : list A) (b : B) :
  b ∈ flat_map f l <-> exists a, a ∈ l /\ b ∈ f a.
Proof.
  rewrite list_elem_of_In, in_flat_map.
  split; intros (a & Ha & Hb); exists a; split; by apply list_elem_of_In.
Qed.

Lemma createNodes_id_nonempty rootDir files p i :
  fileToNodeId (createNodes rootDir files) !! p = Some i -> i <> "".
Proof.
  intros Hp. apply createNodes_ids in Hp.
  destruct (createNodes_spec rootDir files) as (Hids & _).
  rewrite Hids in Hp. apply list_elem_of_fmap in Hp as (n & -> & _).
  apply pretty_nat_nonempty.
Qed.

(** The edges one file contributes, spelled out. *)
Lemma edgesOfFile_elem config ids rootDir files file e :
  e ∈ fst (edgesOfFile config ids rootDir files file)
  <-> exists content imports importPath resolvedPath s t,
        default "" (languageOf config file) ∈ supported
        /\ fs.readFile (fsPath file) = Some content
        /\ RegexParser.parseImports content (default "" (languageOf config file))
           = RegexParser.Resolved imports
        /\ importPath ∈ imports
        /\ resolvedPath ∈ value (resolveImport importPath (fsPath file) rootDir files)
        /\ ids !! fsPath file = Some s /\ s <> ""
        /\ ids !! resolvedPath = Some t /\ s <> t
        /\ e = mkEdge s t.
Proof.
  unfold edgesOfFile.
  destruct (bool_decide (default "" (languageOf config file) ∈ supported)) eqn:Hlang;
    simpl.
  2:{ apply bool_decide_eq_false in Hlang. split; [by intros ?%elem_of_nil|].
      intros (? & ? & ? & ? & ? & ? & ? & _); done. }
  apply bool_decide_eq_true in Hlang.
  destruct (fs.readFile (fsPath file)) as [content|]; simpl.
  2:{ split; [by intros ?%elem_of_nil|]. intros (? & ? & ? & ? & ? & ? & _ & ? & _); done. }
  destruct (RegexParser.parseImports content _) as [imports|] eqn:Hparse; simpl.
  2:{ split; [by intros ?%elem_of_nil|].
      intros (? & ? & ? & ? & ? & ? & _ & [= <-] & ? & _); congruence. }
  destruct (ids !! fsPath file) as [s|] eqn:Hs; simpl.
  2:{ split; [by intros ?%elem_of_nil|].
      intros (? & ? & ? & ? & ? & ? & _ & _ & _ & _ & _ & ? & _); done. }
  destruct (String.eqb_spec s "") as [->|Hne]; simpl.
  { split; [by intros ?%elem_of_nil|].
    intros (? & ? & ? & ? & ? & ? & _ & _ & _ & _ & _ & [= <-] & ? & _); done. }
  rewrite elem_of_flat_map. unfold edgesOfImport. split.
  - intros (importPath & Hin & He). apply elem_of_flat_map in He as (resolvedPath & Hr & He).
    unfold edgesOfResolved in He.
    destruct (ids !! resolvedPath) as [t|] eqn:Ht; [|by apply elem_of_nil in He].
    case_bool_decide as Hst; [|by apply elem_of_nil in He].
    apply list_elem_of_singleton in He.
    exists content, imports, importPath, resolvedPath, s, t. done.
  - intros (content' & imports' & importPath & resolvedPath & s' & t
            & _ & Hc & Hp & Hin & Hr & Hs' & _ & Ht & Hst & ->).
    simplify_eq. rewrite Hparse in Hp. simplify_eq. exists importPath. split; [done|]. apply elem_of_flat_map.
    exists resolvedPath. split; [done|].
    unfold edgesOfResolved. rewrite Ht.
    rewrite bool_decide_eq_true_2 by done. by apply list_elem_of_singleton.
Qed.

(** X1.  [generate] makes one node per workspace file, in enumeration
    order: the node of the file at index [i] has the decimal numeral of
    [i] as its id, the position [(0, 0)], the file's base name as its
    label, its path as [fullPath] and the directory of its path relative
    to the root, with ['.'] replaced by ['root'].  The nodes depend neither
    on the configuration nor on what the files contain, and no node has
    the directory ['.']. *)
Theorem generate_nodes (config : Config) (rootDir : string) (files : list Uri) :
  graphNodes (generate config rootDir files)
  = imap (fun i file =>
            {| nodeId := pretty i;
               position := (0, 0);
               data := {| label := path.basename (fsPath file);
                          fullPath := fsPath file;
                          directory :=
                            let directory :=
                              path.dirname (path.relative rootDir (fsPath file)) in
                            if String.eqb directory "." then "root" else directory |} |})
         files
  /\ Forall (fun n => directory (data n) <> ".") (graphNodes (generate config rootDir files)).
Proof.
  assert (graphNodes (generate config rootDir files)
          = imap (fun i file => createNode rootDir (pretty i) file) files) as Hnodes.
  { unfold generate, createNodes. simpl. by rewrite fold_addNode_nodes. }
  split; [exact Hnodes|].
  rewrite Hnodes. apply Forall_forall. intros n Hn.
  apply elem_of_lookup_imap in Hn as (i & file & -> & _). simpl.
  destruct (String.eqb_spec (path.dirname (path.relative rootDir (fsPath file))) ".");
    [discriminate|done].
Qed.

(** X2.  Every edge of a generated graph is justified by an import: it
    joins the node of a file whose language is one of the seven supported
    ones and whose text could be read, to the node of a path that one of
    the imports parsed from that text resolves to, the two nodes being
    different; and every such pair of nodes is joined by an edge, whose id
    is ['e'], the source id, ['-'] and the target id. *)
Theorem generate_edge_provenance (config : Config) (rootDir : string) (files : list Uri)
    (g : Graph) (e : Edge) :
  generates config rootDir files g ->
  e ∈ graphEdges g
  <-> exists file content imports importPath resolvedPath s t,
        file ∈ files
        /\ default "" (languageOf config file) ∈ supported
        /\ fs.readFile (fsPath file) = Some content
        /\ RegexParser.parseImports content (default "" (languageOf config file))
           = RegexParser.Resolved imports
        /\ importPath ∈ imports
        /\ resolvedPath ∈ value (resolveImport importPath (fsPath file) rootDir files)
        /\ fileToNodeId (createNodes rootDir files) !! fsPath file = Some s
        /\ fileToNodeId (createNodes rootDir files) !! resolvedPath = Some t
        /\ s <> t
        /\ e = {| edgeId := "e" +:+ s +:+ "-" +:+ t; source := s; target := t |}.
Proof.
  intros [_ Hperm]. rewrite Hperm. unfold generate. simpl.
  rewrite elem_of_flat_map. split.
  - intros (file & Hfile & He). apply edgesOfFile_elem in He
      as (content & imports & importPath & resolvedPath & s & t
          & ? & ? & ? & ? & ? & ? & ? & ? & ? & ?).
    exists file, content, imports, importPath, resolvedPath, s, t. done.
  - intros (file & content & imports & importPath & resolvedPath & s & t
            & Hfile & ? & ? & ? & ? & ? & Hs & ? & ? & ?).
    exists file. split; [done|]. apply edgesOfFile_elem.
    exists content, imports, importPath, resolvedPath, s, t.
    repeat (split; [done|]). split; [by eapply createNodes_id_nonempty|]. done.
Qed.

Lemma parseImports_supported content languageId :
  languageId ∈ supported ->
  exists imports, RegexParser.parseImports content languageId = RegexParser.Resolved imports.
Proof.
  intros Hin. unfold RegexParser.parseImports.
  destruct (String.eqb languageId "go"); [by eexists|].
  destruct (RegexParser.regexes languageId) eqn:Hre; [by eexists|].
  exfalso. unfold supported in Hin.
  repeat (apply elem_of_cons in Hin as [->|Hin]; [vm_compute in Hre; discriminate|]).
  by apply elem_of_nil in Hin.
Qed.

(** X3.  The only failure a file's body records is a failed read: the
    errors of [generate] are the base names of the files whose language is
    supported and whose text could not be read; for a supported language
    the parser never rejects.  Such a file, like a file in an unsupported
    language, contributes no edge. *)
Theorem generate_errors (config : Config) (rootDir : string) (files : list Uri) :
  errorsOf config rootDir files
  = map (fun file => path.basename (fsPath file))
        (List.filter (fun file =>
                        bool_decide (default "" (languageOf config file) ∈ supported)
                        && bool_decide (fs.readFile (fsPath file) = None))
                     files)
  /\ (forall file ids,
        default "" (languageOf config file) ∉ supported
        \/ fs.readFile (fsPath file) = None ->
        fst (edgesOfFile config ids rootDir files file) = []).
Proof.
  split.
  - unfold errorsOf. generalize (fileToNodeId (createNodes rootDir files)) as ids.
    intros ids. generalize files at 1 as all. intros all.
    induction files as [|file files IH]; [done|].
    simpl. rewrite IH. clear IH. unfold edgesOfFile.
    case_bool_decide as Hlang; simpl; [|done].
    destruct (fs.readFile (fsPath file)) as [content|]; simpl; [|done].
    destruct (parseImports_supported content _ Hlang) as [imports ->].
    destruct (ids !! fsPath file) as [s|]; [|done].
    by destruct (String.eqb s "").
  - intros file ids [Hlang|Hread]; unfold edgesOfFile.
    + by rewrite bool_decide_eq_false_2.
    + rewrite Hread. by destruct (negb _).
Qed.

(** X26.  Which files are parsed: those whose extension, in lower case,
    is [.tsx] or [.jsx], and those whose extension the configuration maps
    to a name that is, in lower case, one of the seven supported languages.
    A file mapped to C or C++ is never parsed, though the parser has a
    pattern for it. *)
Theorem languageOf_supported (config : Config) (file : Uri) :
  let ext := JS.toLowerCase (path.extname (fsPath file)) in
  (default "" (languageOf config file) ∈ supported
   <-> ext = ".tsx" \/ ext = ".jsx"
       \/ exists language, languageMapping config !! ext = Some language
                           /\ JS.toLowerCase language ∈ supported)
  /\ (ext <> ".tsx" -> ext <> ".jsx" ->
      forall language, languageMapping config !! ext = Some language ->
        JS.toLowerCase language ∈ ["c"; "cpp"; "c++"] ->
        default "" (languageOf config file) ∉ supported).
Proof.
  intros ext. unfold languageOf. fold ext.
  assert ("typescriptreact" ∈ supported) as Htsx by (right; by left).
  assert ("javascriptreact" ∈ supported) as Hjsx by (do 3 right; by left).
  assert ("cpp" ∉ supported) as Hcpp.
  { intros Hin. unfold supported in Hin.
    repeat (apply elem_of_cons in Hin as [Hin|Hin]; [discriminate|]).
    by apply elem_of_nil in Hin. }
  assert ("c++" ∉ supported) as Hcxx.
  { intros Hin. unfold supported in Hin.
    repeat (apply elem_of_cons in Hin as [Hin|Hin]; [discriminate|]).
    by apply elem_of_nil in Hin. }
  assert ("c" ∉ supported) as Hc.
  { intros Hin. unfold supported in Hin.
    repeat (apply elem_of_cons in Hin as [Hin|Hin]; [discriminate|]).
    by apply elem_of_nil in Hin. }
  assert ("" ∉ supported) as Hempty.
  { intros Hin. unfold supported in Hin.
    repeat (apply elem_of_cons in Hin as [Hin|Hin]; [discriminate|]).
    by apply elem_of_nil in Hin. }
  destruct (String.eqb_spec ext ".jsx") as [Hj|Hj].
  { split; [|done]. split; [by auto|done]. }
  destruct (String.eqb_spec ext ".tsx") as [Ht|Ht].
  { split; [|done]. split; [by auto|done]. }
  destruct (languageMapping config !! ext) as [language|] eqn:Hl; cbn [fmap option_fmap option_map].
  - case_bool_decide as Hcase.
    + injection Hcase as Hcase. cbn [default]. split.
      * split; [done|]. intros [?|[?|(l & [= <-] & Hin)]]; [done..|].
        rewrite Hcase in Hin. done.
      * intros _ _ l [= <-] _. done.
    + cbn [default]. split.
      * split; [intros Hin; right; right; by exists language|].
        intros [?|[?|(l & [= <-] & Hin)]]; done.
      * intros _ _ l [= <-] Hin Hsup.
        repeat (apply elem_of_cons in Hin as [Hin|Hin]; [rewrite Hin in Hsup; done|]).
        by apply elem_of_nil in Hin.
  - rewrite bool_decide_eq_false_2 by done. cbn [default]. split.
    + split; [done|]. intros [?|[?|(l & ? & _)]]; done.
    + intros _ _ l ?. done.
Qed.

End GenerateMore.

(** ** The resolver's helpers *)

Section ResolveMore.
Import DependencyService.
Context `{F : fs.Host} `{P : path.Host}.

Lemma existingFile_spec p :
  existingFile p
  = mkProbe (fs.existsSync p && fs.isFile p)
            (ExistsSync p :: if fs.existsSync p then [LstatSync p] else []).
Proof.
  unfold existingFile, bind, probeExists, probeIsFile, ret. simpl.
  by destruct (fs.existsSync p).
Qed.

Lemma existingDirectory_spec p :
  existingDirectory p
  = mkProbe (fs.existsSync p && fs.isDirectory p)
            (ExistsSync p :: if fs.existsSync p then [LstatSync p] else []).
Proof.
  unfold existingDirectory, bind, probeExists, probeIsDirectory, ret. simpl.
  by destruct (fs.existsSync p).
Qed.

Lemma checkExtensions_spec candidate exts : forall results,
  checkExtensions candidate exts results
  = mkProbe
      (results ++ filter (fun p => fs.existsSync p = true /\ fs.isFile p = true)
                         (map (fun ext => candidate +:+ ext) exts))
      (flat_map (fun p => ExistsSync p :: if fs.existsSync p then [LstatSync p] else [])
                (map (fun ext => candidate +:+ ext) exts)).
Proof.
  induction exts as [|ext exts IH]; intros results.
  - simpl. unfold ret. by rewrite List.app_nil_r.
  - cbn [checkExtensions map flat_map]. rewrite existingFile_spec.
    unfold bind. cbn [value calls]. rewrite IH. cbn [value calls].
    rewrite filter_cons. f_equal.
    case_decide as Hd.
    + destruct Hd as [-> ->]. simpl. by rewrite <- List.app_assoc.
    + destruct (fs.existsSync (candidate +:+ ext)); [|done].
      destruct (fs.isFile (candidate +:+ ext)); [|done].
      by destruct Hd.
Qed.

Lemma checkFile_paths (candidate : string) :
  let paths := candidate :: map (fun ext => candidate +:+ ext) extensions in
  value (checkFile candidate)
  = filter (fun p => fs.existsSync p = true /\ fs.isFile p = true) paths
  /\ calls (checkFile candidate)
     = flat_map (fun p => ExistsSync p :: if fs.existsSync p then [LstatSync p] else [])
                paths.
Proof.
  intros paths. unfold checkFile. rewrite existingFile_spec. unfold bind.
  cbn [value calls]. rewrite checkExtensions_spec. cbn [value calls].
  subst paths. rewrite filter_cons. cbn [flat_map]. split; [|done].
  case_decide as Hd.
  - by destruct Hd as [-> ->].
  - destruct (fs.existsSync candidate); [|done].
    destruct (fs.isFile candidate); [|done].
    by destruct Hd.
Qed.

Lemma checkDir_spec allFiles candidate :
  checkDir allFiles candidate
  = mkProbe (if fs.existsSync candidate && fs.isDirectory candidate
             then filter (fun f => path.dirname f = candidate) (map fsPath allFiles)
             else [])
            (ExistsSync candidate
               :: if fs.existsSync candidate then [LstatSync candidate] else []).
Proof.
  unfold checkDir. rewrite existingDirectory_spec. unfold bind, ret.
  cbn [value calls]. by rewrite List.app_nil_r.
Qed.

Lemma probeCandidate_spec allFiles candidate hits :
  probeCandidate allFiles candidate hits
  = let files := checkFile candidate in
    let dir := checkDir allFiles candidate in
    if Nat.eqb (List.length (hits ++ value files)) 0
    then mkProbe (hits ++ value files ++ value dir) (calls files ++ calls dir)
    else mkProbe (hits ++ value files) (calls files).
Proof.
  unfold probeCandidate, bind, ret. cbn zeta.
  destruct (Nat.eqb (List.length (hits ++ value (checkFile candidate))) 0); cbn [value calls].
  - by rewrite List.app_nil_r, List.app_assoc.
  - by rewrite List.app_nil_r.
Qed.

Lemma checkDir_resolved allFiles candidate :
  Forall (resolvedPath allFiles) (value (checkDir allFiles candidate)).
Proof.
  rewrite checkDir_spec. cbn [value].
  destruct (fs.existsSync candidate) eqn:He; [|by constructor].
  destruct (fs.isDirectory candidate) eqn:Hd; [|by constructor].
  simpl. apply Forall_forall. intros h [Hdir Hin]%list_elem_of_filter.
  right. rewrite Hdir. done.
Qed.

Lemma checkFile_resolved allFiles candidate :
  Forall (resolvedPath allFiles) (value (checkFile candidate)).
Proof.
  destruct (checkFile_paths candidate) as [-> _].
  apply Forall_forall. intros h [Hh _]%list_elem_of_filter. by left.
Qed.

Lemma probeCandidate_resolved allFiles candidate hits :
  Forall (resolvedPath allFiles) hits ->
  Forall (resolvedPath allFiles) (value (probeCandidate allFiles candidate hits)).
Proof.
  intros Hhits. rewrite probeCandidate_spec. cbn zeta.
  destruct (Nat.eqb _ 0); cbn [value];
    repeat apply Forall_app_2;
    auto using checkFile_resolved, checkDir_resolved.
Qed.

Lemma fuzzyProbe_spec allFiles candidate hits :
  value (fuzzyProbe allFiles candidate hits)
  = hits ++ (if fs.existsSync candidate
             then if fs.isDirectory candidate
                  then filter (fun f => path.dirname f = candidate) (map fsPath allFiles)
                  else if fs.isFile candidate then [candidate] else []
             else []).
Proof.
  unfold fuzzyProbe, bind, ret, probeExists, probeIsDirectory, probeIsFile.
  cbn [value calls]. rewrite checkDir_spec.
  destruct (fs.existsSync candidate) eqn:He; cbn [value calls andb].
  - destruct (fs.isDirectory candidate) eqn:Hd; cbn [value calls]; [done|].
    destruct (fs.isFile candidate); [done|]. by rewrite List.app_nil_r.
  - by rewrite List.app_nil_r.
Qed.

Lemma fuzzyProbe_resolved allFiles candidate hits :
  Forall (resolvedPath allFiles) hits ->
  Forall (resolvedPath allFiles) (value (fuzzyProbe allFiles candidate hits)).
Proof.
  intros Hhits. rewrite fuzzyProbe_spec. apply Forall_app_2; [done|].
  destruct (fs.existsSync candidate) eqn:He; [|by constructor].
  destruct (fs.isDirectory candidate) eqn:Hd.
  - apply Forall_forall. intros h [Hdir Hin]%list_elem_of_filter.
    right. rewrite Hdir. done.
  - destruct (fs.isFile candidate) eqn:Hf; [|by constructor].
    apply Forall_singleton. by left.
Qed.

Lemma fuzzyLoop_resolved allFiles rootPath rest : forall hits,
  Forall (resolvedPath allFiles) hits ->
  Forall (resolvedPath allFiles) (value (fuzzyLoop allFiles rootPath rest hits)).
Proof.
  induction rest as [|slice rest IH]; intros hits Hhits; [done|].
  cbn [fuzzyLoop]. destruct (String.eqb _ ""); [by apply IH|].
  unfold bind. cbn [value].
  pose proof (fuzzyProbe_resolved allFiles
                (path.join [rootPath; joinWith path.sep slice]) hits Hhits) as Hprobe.
  destruct (Nat.ltb 0 _); [done|]. by apply IH.
Qed.

(** X4.  [checkFile] probes the candidate and then the candidate
    followed by each of the ten extensions, all eleven paths whatever the
    answers, and returns in that order those that exist and are regular
    files; [lstatSync] is called on a path only after [existsSync]
    answered true for it. *)
Theorem checkFile_spec (candidate : string) :
  let paths := candidate :: map (fun ext => candidate +:+ ext) extensions in
  value (checkFile candidate)
  = filter (fun p => fs.existsSync p = true /\ fs.isFile p = true) paths
  /\ calls (checkFile candidate)
     = flat_map (fun p => ExistsSync p :: if fs.existsSync p then [LstatSync p] else [])
                paths.
Proof. exact (checkFile_paths candidate). Qed.

(** X5.  Whatever the file system and the strategy that answers, every
    path [resolveImport] returns is a regular file that exists, or a file
    of the workspace that lies directly in a directory that exists. *)
Theorem resolveImport_sound (importPath sourceFile rootPath : string)
    (allFiles : list Uri) :
  Forall (resolvedPath allFiles)
         (value (resolveImport importPath sourceFile rootPath allFiles)).
Proof.
  unfold resolveImport. destruct (JS.startsWith "." importPath).
  - by apply probeCandidate_resolved.
  - unfold bind. cbn [value].
    pose proof (probeCandidate_resolved allFiles (path.join [rootPath; importPath]) []
                  (Forall_nil_2 _)) as Hroot.
    set (root := value (probeCandidate allFiles (path.join [rootPath; importPath]) [])) in *.
    assert (Forall (resolvedPath allFiles)
              (value (if Nat.eqb (List.length root) 0
                      then probeCandidate allFiles (path.join [rootPath; "src"; importPath]) root
                      else ret root))) as Hsrc.
    { destruct (Nat.eqb (List.length root) 0); [|done].
      by apply probeCandidate_resolved. }
    destruct (Nat.eqb (List.length (value _)) 0); [|done].
    by apply fuzzyLoop_resolved.
Qed.

(** X6.  A relative import is resolved against the directory of the
    importing file and nothing else: the file system is asked only about
    that path and about it followed by one of the ten extensions, never
    about the workspace root, its [src] or a suffix of the import; the
    files found are returned, and the workspace files of the directory
    only when no file was found. *)
Theorem resolveImport_relative (importPath sourceFile rootPath : string)
    (allFiles : list Uri) :
  JS.startsWith "." importPath = true ->
  let absolutePath := path.resolve (path.dirname sourceFile) importPath in
  let r := resolveImport importPath sourceFile rootPath allFiles in
  Forall (fun c => callPath c ∈ absolutePath
                                 :: map (fun ext => absolutePath +:+ ext) extensions)
         (calls r)
  /\ (value (checkFile absolutePath) <> [] -> value r = value (checkFile absolutePath))
  /\ (value (checkFile absolutePath) = [] ->
      value r = value (checkDir allFiles absolutePath)).
Proof.
  intros Hrel absolutePath r. subst r. unfold resolveImport. rewrite Hrel.
  fold absolutePath. rewrite probeCandidate_spec. cbn zeta.
  assert (Forall (fun c => callPath c ∈ absolutePath
                             :: map (fun ext => absolutePath +:+ ext) extensions)
                 (calls (checkFile absolutePath))) as Hfile.
  { destruct (checkFile_paths absolutePath) as [_ ->].
    generalize (absolutePath :: map (fun ext => absolutePath +:+ ext) extensions).
    intros paths. apply Forall_forall. intros c Hc.
    apply list_elem_of_In, in_flat_map in Hc as (p & Hp & Hc).
    apply list_elem_of_In in Hp. apply list_elem_of_In in Hc.
    apply elem_of_cons in Hc as [->|Hc]; [done|].
    destruct (fs.existsSync p); [|by apply elem_of_nil in Hc].
    by apply list_elem_of_singleton in Hc as ->. }
  assert (Forall (fun c => callPath c ∈ absolutePath
                             :: map (fun ext => absolutePath +:+ ext) extensions)
                 (calls (checkDir allFiles absolutePath))) as Hdir.
  { rewrite checkDir_spec. cbn [calls]. apply Forall_cons. split; [by left|].
    destruct (fs.existsSync absolutePath); [|by constructor].
    apply Forall_singleton. by left. }
  cbn [app]. destruct (value (checkFile absolutePath)) as [|h hs] eqn:Hv;
    cbn [List.length Nat.eqb value calls app].
  - split; [by apply Forall_app_2|]. split; [done|]. done.
  - split; [done|]. split; [done|]. done.
Qed.

(** X7.  Fuzzy matching tries the suffixes of the import path, the longest
    first and those that are empty left out, each joined to the workspace
    root, and returns the hits of the first that has any: the workspace
    files directly in it if it is a directory, the path itself if it is a
    regular file.  Shorter suffixes add nothing to these. *)
Theorem fuzzyMatch_first_hit (allFiles : list Uri) (rootPath importPath : string) :
  let candidates :=
    map (fun slice => path.join [rootPath; joinWith path.sep slice])
        (filter (fun slice => joinWith path.sep slice <> "")
                (slices (splitSlash importPath))) in
  let hitsOf candidate :=
    if fs.existsSync candidate
    then if fs.isDirectory candidate
         then filter (fun f => path.dirname f = candidate) (map fsPath allFiles)
         else if fs.isFile candidate then [candidate] else []
    else [] in
  value (fuzzyMatch allFiles rootPath importPath [])
  = default [] (head (filter (fun hits => hits <> []) (map hitsOf candidates))).
Proof.
  intros candidates hitsOf. subst candidates. unfold fuzzyMatch.
  induction (slices (splitSlash importPath)) as [|slice rest IH]; [done|].
  cbn [fuzzyLoop]. rewrite filter_cons.
  destruct (String.eqb_spec (joinWith path.sep slice) "") as [Hempty|Hne].
  - by rewrite decide_False by (intros H; by apply H).
  - rewrite decide_True by done. cbn [map]. rewrite filter_cons.
    unfold bind. cbn [value]. rewrite fuzzyProbe_spec. cbn [app]. fold hitsOf.
    fold (hitsOf (path.join [rootPath; joinWith path.sep slice])).
    destruct (hitsOf (path.join [rootPath; joinWith path.sep slice])) as [|h hs] eqn:Hh.
    + cbn [List.length Nat.ltb Nat.leb]. by rewrite decide_False by (intros H; by apply H).
    + cbn [List.length Nat.ltb Nat.leb]. by rewrite decide_True.
Qed.

End ResolveMore.

(** ** The matcher *)

Section RegexFacts.
Import Regex.

Lemma matchRe_Star {A : Type} greedy r pos s cs (k : nat -> list ascii -> captures -> option A) :
  matchRe (Star greedy r) pos s cs k
  = starLoop (fun pos s cs k => matchRe r pos s cs k) greedy k (List.length s) pos s cs.
Proof. reflexivity. Qed.

Lemma starLoop_eq {A : Type} step greedy (k : nat -> list ascii -> captures -> option A)
    fuel pos s cs :
  starLoop step greedy k fuel pos s cs
  = let more :=
      match fuel with
      | O => None
      | S fuel' =>
          step pos s cs (fun pos' s' cs' =>
            if Nat.ltb (List.length s') (List.length s)
            then starLoop step greedy k fuel' pos' s' cs' else None)
      end in
    if greedy
    then match more with Some a => Some a | None => k pos s cs end
    else match k pos s cs with Some a => Some a | None => more end.
Proof. by destruct fuel. Qed.

(** Whatever the matcher answers comes from its continuation, called
    after a word of the pattern. *)
Lemma matchRe_sound {A : Type} (r : re) :
  forall pos s cs (k : nat -> list ascii -> captures -> option A) (a : A),
    matchRe r pos s cs k = Some a ->
    exists w s' cs',
      s = w ++ s' /\ lang r w /\ (hasGroup r = false -> cs' = cs)
      /\ k (pos + List.length w)%nat s' cs' = Some a.
Proof.
  induction r as [c|p| |r1 IH1 r2 IH2|r1 IH1 r2 IH2|greedy r1 IH1|i r1 IH1];
    intros pos s cs k a Hm.
  - destruct s as [|x s']; [done|]. cbn in Hm.
    destruct (Ascii.eqb_spec x c) as [->|]; [|done].
    exists [c], s', cs. cbn. by rewrite Nat.add_1_r.
  - destruct s as [|x s']; [done|]. cbn in Hm.
    destruct (p x) eqn:Hp; [|done].
    exists [x], s', cs. cbn. rewrite Nat.add_1_r. eauto 6.
  - cbn in Hm. destruct (Nat.eqb pos 0); [|done].
    exists [], s, cs. cbn. by rewrite Nat.add_0_r.
  - cbn [matchRe] in Hm.
    apply IH1 in Hm as (w1 & s1 & cs1 & -> & Hw1 & Hcs1 & Hm).
    apply IH2 in Hm as (w2 & s2 & cs2 & -> & Hw2 & Hcs2 & Hm).
    exists (w1 ++ w2), s2, cs2. rewrite <- List.app_assoc. split; [done|].
    split; [cbn; eauto|]. split.
    + cbn. intros [H1 H2]%orb_false_elim. by rewrite Hcs2, Hcs1.
    + by rewrite List.length_app, Nat.add_assoc.
  - cbn [matchRe] in Hm. destruct (matchRe r1 pos s cs k) as [a'|] eqn:H1.
    + injection Hm as ->. apply IH1 in H1 as (w & s' & cs' & -> & Hw & Hcs & Hk).
      exists w, s', cs'. split; [done|]. split; [by left|]. split; [|done].
      cbn. by intros [H1 H2]%orb_false_elim; auto.
    + apply IH2 in Hm as (w & s' & cs' & -> & Hw & Hcs & Hk).
      exists w, s', cs'. split; [done|]. split; [by right|]. split; [|done].
      cbn. by intros [H1' H2]%orb_false_elim; auto.
  - rewrite matchRe_Star in Hm. revert Hm. generalize (List.length s) as fuel.
    intros fuel. revert pos s cs.
    induction fuel as [|fuel IHf]; intros pos s cs; rewrite starLoop_eq; cbn zeta.
    + intros Hm. assert (k pos s cs = Some a) as Hk.
      { destruct greedy; [done|]. by destruct (k pos s cs). }
      exists [], s, cs. split; [done|]. split; [by exists []|].
      split; [done|]. by rewrite Nat.add_0_r.
    + intros Hm.
      assert (k pos s cs = Some a
              \/ matchRe r1 pos s cs (fun pos' s' cs' =>
                   if Nat.ltb (List.length s') (List.length s)
                   then starLoop (fun pos s cs k => matchRe r1 pos s cs k) greedy k
                                 fuel pos' s' cs'
                   else None) = Some a) as [Hk|Hmore].
      { destruct greedy.
        - destruct (matchRe r1 pos s cs _) eqn:H1; [right; congruence|by left].
        - destruct (k pos s cs) eqn:Hk; [left; congruence|by right]. }
      * exists [], s, cs. split; [done|]. split; [by exists []|].
        split; [done|]. by rewrite Nat.add_0_r.
      * apply IH1 in Hmore as (w1 & s1 & cs1 & -> & Hw1 & Hcs1 & Hm1).
        destruct (Nat.ltb _ _); [|done].
        apply IHf in Hm1 as (w2 & s2 & cs2 & -> & (ws & -> & Hws) & Hcs2 & Hk).
        exists (w1 ++ concat ws), s2, cs2. rewrite <- List.app_assoc.
        split; [done|]. split; [exists (w1 :: ws); by split; [|constructor]|].
        split.
        -- cbn. intros Hg. by rewrite (Hcs2 Hg), (Hcs1 Hg).
        -- by rewrite List.length_app, Nat.add_assoc.
  - cbn [matchRe] in Hm.
    apply IH1 in Hm as (w & s' & cs' & -> & Hw & Hcs & Hk).
    exists w, s', ((i, firstn (pos + List.length w - pos) (w ++ s')) :: cs').
    split; [done|]. split; [done|]. split; [done|]. exact Hk.
Qed.

(** The same for a group without a group inside: its capture is the word. *)
Lemma matchRe_Grp_sound {A : Type} i r pos s cs
    (k : nat -> list ascii -> captures -> option A) (a : A) :
  hasGroup r = false ->
  matchRe (Grp i r) pos s cs k = Some a ->
  exists w s', s = w ++ s' /\ lang r w
               /\ k (pos + List.length w)%nat s' ((i, w) :: cs) = Some a.
Proof.
  intros Hg Hm. cbn [matchRe] in Hm.
  apply matchRe_sound in Hm as (w & s' & cs' & -> & Hw & Hcs & Hk).
  exists w, s'. split; [done|]. split; [done|].
  rewrite (Hcs Hg) in Hk.
  replace (pos + List.length w - pos)%nat with (List.length w) in Hk by lia.
  by rewrite firstn_app, Nat.sub_diag, firstn_all, firstn_O, List.app_nil_r in Hk.
Qed.

Lemma lang_nonEmpty r : forall w, nonEmpty r = true -> lang r w -> w <> [].
Proof.
  induction r as [c|p| |r1 IH1 r2 IH2|r1 IH1 r2 IH2|greedy r1 IH1|i r1 IH1];
    intros w Hne Hw; cbn in Hne, Hw; try done.
  - by subst.
  - by destruct Hw as (x & -> & _).
  - destruct Hw as (w1 & w2 & -> & H1 & H2).
    apply orb_true_iff in Hne as [Hne|Hne].
    + specialize (IH1 _ Hne H1). by destruct w1.
    + specialize (IH2 _ Hne H2). destruct w1; [done|done].
  - apply andb_true_iff in Hne as [Hn1 Hn2]. destruct Hw; eauto.
  - eauto.
Qed.

End RegexFacts.

(** ** The loops of [parseImports] *)

Section ParserFacts.
Import Regex RegexParser.

Lemma matchAt_sound r pos s pos' cs :
  matchAt r pos s = Some (pos', cs) ->
  exists w s', s = w ++ s' /\ lang r w /\ pos' = (pos + List.length w)%nat.
Proof.
  unfold matchAt. intros Hm.
  apply matchRe_sound in Hm as (w & s' & cs' & -> & Hw & _ & [= <- <-]).
  by exists w, s'.
Qed.

(** A match found by a search from [pos] is a match at some index from
    [pos] on. *)
Lemma search_sound r : forall s pos m,
  search r pos s = Some m ->
  exists n, (n <= List.length s)%nat
            /\ matchAt r (pos + n) (skipn n s) = Some m.
Proof.
  induction s as [|c s IH]; intros pos m Hs; cbn [search] in Hs.
  - destruct (matchAt r pos []) as [m'|] eqn:Hm; [|done].
    exists 0%nat. rewrite Nat.add_0_r. cbn. split; [lia|congruence].
  - destruct (matchAt r pos (c :: s)) as [m'|] eqn:Hm.
    + exists 0%nat. rewrite Nat.add_0_r. cbn. split; [lia|congruence].
    + apply IH in Hs as (n & Hn & Hs). exists (S n). cbn [skipn List.length].
      split; [lia|]. by rewrite Nat.add_succ_r.
Qed.

(** What every turn of the loop keeps, the loop keeps; a turn runs on
    the captures of a match the search found. *)
Lemma execAll_invariant_search {St : Type} (Inv : St -> Prop) r content
    (body : captures -> St -> St) :
  (forall i j cs st, search r i (skipn i content) = Some (j, cs) ->
                     Inv st -> Inv (body cs st)) ->
  forall fuel lastIndex st, Inv st -> Inv (execAll fuel r content lastIndex body st).
Proof.
  intros Hbody. induction fuel as [|fuel IH]; intros lastIndex st Hst; [done|].
  cbn [execAll].
  destruct (search r lastIndex (skipn lastIndex content)) as [[j cs]|] eqn:Hs; [|done].
  apply IH. by eapply Hbody.
Qed.

Lemma execAll_invariant {St : Type} (Inv : St -> Prop) r content
    (body : captures -> St -> St) :
  (forall cs st, Inv st -> Inv (body cs st)) ->
  forall fuel lastIndex st, Inv st -> Inv (execAll fuel r content lastIndex body st).
Proof. intros Hbody. apply execAll_invariant_search. eauto. Qed.

Lemma setAdd_NoDup x set : NoDup set -> NoDup (JS.setAdd x set).
Proof.
  intros Hset. unfold JS.setAdd. case_bool_decide as Hin; [done|].
  apply NoDup_app. split; [done|]. split; [|apply NoDup_singleton].
  intros y Hy ->%list_elem_of_singleton. done.
Qed.

Lemma addGroup1_NoDup cs imports : NoDup imports -> NoDup (addGroup1 cs imports).
Proof. unfold addGroup1. destruct (capture 1 cs); auto using setAdd_NoDup. Qed.

Lemma addGroup1IfTruthy_NoDup cs imports :
  NoDup imports -> NoDup (addGroup1IfTruthy cs imports).
Proof.
  unfold addGroup1IfTruthy. destruct (capture 1 cs) as [[|c t]|]; auto using setAdd_NoDup.
Qed.

Lemma addBlock_NoDup cs imports : NoDup imports -> NoDup (addBlock cs imports).
Proof.
  unfold addBlock. destruct (capture 1 cs) as [blockContent|]; [|done].
  generalize (split (ascii_of_N 10) blockContent) as lines. intros lines. revert imports.
  induction lines as [|line lines IH]; intros imports Himports; [done|].
  cbn [fold_left]. apply IH. destruct (exec quoteRegex line); auto using addGroup1_NoDup.
Qed.

(** X8.  [parseImports] reports every import once: the list it resolves
    to has no duplicates, whatever the text and the language. *)
Theorem parseImports_NoDup (content languageId : string) (imports : list string) :
  parseImports content languageId = Resolved imports -> NoDup imports.
Proof.
  unfold parseImports. cbv zeta.
  generalize (S (List.length (list_ascii_of_string content))) as fuel. intros fuel.
  destruct (String.eqb languageId "go").
  - intros [= <-].
    apply (execAll_invariant (fun imports : list string => NoDup imports));
      [apply addBlock_NoDup|].
    apply (execAll_invariant (fun imports : list string => NoDup imports));
      [apply addGroup1_NoDup|]. constructor.
  - destruct (regexes languageId) as [regex|].
    + intros [= <-].
      assert (NoDup (execAll fuel regex
                       (list_ascii_of_string content) 0 addGroup1IfTruthy [])) as Hfirst.
      { apply (execAll_invariant (fun imports : list string => NoDup imports));
          [apply addGroup1IfTruthy_NoDup|]. constructor. }
      destruct (isJsTs languageId); [|done].
      by apply (execAll_invariant (fun imports : list string => NoDup imports));
        [apply addGroup1IfTruthy_NoDup|].
    + destruct (JS.inherited languageId); [done|]. intros [= <-]. constructor.
Qed.

Lemma setAdd_elem x y set : y ∈ JS.setAdd x set <-> y ∈ set \/ y = x.
Proof.
  unfold JS.setAdd. case_bool_decide as Hin.
  - split; [by left|]. by intros [?| ->].
  - rewrite elem_of_app, list_elem_of_singleton. done.
Qed.

Lemma addGroup1IfTruthy_nonempty cs imports :
  "" ∉ imports -> "" ∉ addGroup1IfTruthy cs imports.
Proof.
  unfold addGroup1IfTruthy. destruct (capture 1 cs) as [[|c t]|]; [done| |done].
  intros Hno [?|Heq]%setAdd_elem; [done|]. discriminate.
Qed.

(** X9.  For every language but Go an import is added only when the
    text captured is not empty: the empty string is never among the
    imports. *)
Theorem parseImports_no_empty_import (content languageId : string)
    (imports : list string) :
  languageId <> "go" ->
  parseImports content languageId = Resolved imports ->
  "" ∉ imports.
Proof.
  intros Hgo. unfold parseImports. cbv zeta.
  generalize (S (List.length (list_ascii_of_string content))) as fuel. intros fuel.
  destruct (String.eqb_spec languageId "go") as [|_]; [done|].
  destruct (regexes languageId) as [regex|].
  - intros [= <-].
    assert ("" ∉ execAll fuel regex
                   (list_ascii_of_string content) 0 addGroup1IfTruthy []) as Hfirst.
    { apply (execAll_invariant (fun imports => "" ∉ imports));
        [apply addGroup1IfTruthy_nonempty|]. apply not_elem_of_nil. }
    destruct (isJsTs languageId); [|done].
    by apply (execAll_invariant (fun imports => "" ∉ imports));
      [apply addGroup1IfTruthy_nonempty|].
  - destruct (JS.inherited languageId); [done|]. intros [= <-]. apply not_elem_of_nil.
Qed.

(** X10.  The promise of [parseImports] is rejected exactly when the
    language id names a property every object inherits
    ([constructor], [toString], ...), which the table lookup finds in place
    of a pattern; for any other id the table has no pattern for, it resolves
    to no import at all. *)
Theorem parseImports_unknown_language (content languageId : string) :
  (parseImports content languageId = Rejected <-> JS.inherited languageId = true)
  /\ (languageId <> "go" -> regexes languageId = None -> JS.inherited languageId = false ->
      parseImports content languageId = Resolved []).
Proof.
  split.
  - unfold parseImports. cbv zeta. split.
    + destruct (String.eqb languageId "go"); [done|].
      destruct (regexes languageId); [done|].
      by destruct (JS.inherited languageId).
    + intros Hin. unfold JS.inherited in Hin. apply bool_decide_eq_true in Hin.
      unfold JS.objectPrototypeKeys in Hin.
      repeat (apply elem_of_cons in Hin as [->|Hin]; [reflexivity|]).
      by apply elem_of_nil in Hin.
  - intros Hgo Hre Hin. unfold parseImports. cbv zeta.
    destruct (String.eqb_spec languageId "go") as [|_]; [done|].
    by rewrite Hre, Hin.
Qed.

End ParserFacts.

(** ** What the patterns of JavaScript and TypeScript capture *)

Section JsImports.
Import Regex RegexParser.

Lemma matchRe_Seq_sound {A : Type} r1 r2 pos s cs
    (k : nat -> list ascii -> captures -> option A) (a : A) :
  hasGroup r1 = false ->
  matchRe (Seq r1 r2) pos s cs k = Some a ->
  exists w s', s = w ++ s' /\ lang r1 w
               /\ matchRe r2 (pos + List.length w)%nat s' cs k = Some a.
Proof.
  intros Hg Hm. cbn [matchRe] in Hm.
  apply matchRe_sound in Hm as (w & s' & cs' & -> & Hw & Hcs & Hk).
  rewrite (Hcs Hg) in Hk. by exists w, s'.
Qed.

Lemma matchRe_Seq {A : Type} r1 r2 pos s cs
    (k : nat -> list ascii -> captures -> option A) :
  matchRe (Seq r1 r2) pos s cs k
  = matchRe r1 pos s cs (fun pos' s' cs' => matchRe r2 pos' s' cs' k).
Proof. reflexivity. Qed.

Lemma hasGroup_Lit cs : hasGroup (Lit cs) = false.
Proof.
  induction cs as [|c [|c' cs] IH]; [done|done|].
  change (Lit (c :: c' :: cs)) with (Seq (Chr c) (Lit (c' :: cs))). cbn [hasGroup].
  by rewrite IH.
Qed.

Lemma lang_Lit cs : forall w, cs <> [] -> lang (Lit cs) w -> w = cs.
Proof.
  induction cs as [|c [|c' cs] IH]; intros w Hne Hw; [done|exact Hw|].
  change (Lit (c :: c' :: cs)) with (Seq (Chr c) (Lit (c' :: cs))) in Hw.
  destruct Hw as (w1 & w2 & -> & -> & Hw2). apply IH in Hw2; [|done]. by subst.
Qed.

Lemma lang_Star_Cls greedy p w : lang (Star greedy (Cls p)) w -> Forall (fun c => p c = true) w.
Proof.
  intros (ws & -> & Hws). induction Hws as [|w ws (x & -> & Hx) _ IH]; [constructor|].
  cbn. by constructor.
Qed.

Lemma lang_Plus_Cls greedy p w :
  lang (Plus greedy (Cls p)) w -> w <> [] /\ Forall (fun c => p c = true) w.
Proof.
  intros (w1 & w2 & -> & (x & -> & Hx) & Hw2). apply lang_Star_Cls in Hw2.
  split; [done|]. by constructor.
Qed.

(** A match of the pattern of [from]: the text matched and the capture. *)
Lemma fromRegex_sound pos s pos' cs :
  matchAt fromRegex pos s = Some (pos', cs) ->
  exists ws q1 body q2 post,
    s = list_ascii_of_string "from" ++ ws ++ q1 :: body ++ q2 :: post
    /\ ws <> [] /\ Forall (fun c => isSpace c = true) ws
    /\ oneOf quotes q1 = true /\ oneOf quotes q2 = true
    /\ Forall (fun c => isDot c = true) body
    /\ cs = [(1%nat, body)].
Proof.
  unfold matchAt, fromRegex. intros Hm.
  apply matchRe_Seq_sound in Hm as (w0 & s0 & -> & Hw0 & Hm); [|apply hasGroup_Lit].
  apply lang_Lit in Hw0 as ->; [|done].
  apply matchRe_Seq_sound in Hm as (ws & s1 & -> & Hws & Hm); [|done].
  apply lang_Plus_Cls in Hws as [Hne Hws].
  apply matchRe_Seq_sound in Hm as (w2 & s2 & -> & (q1 & -> & Hq1) & Hm); [|done].
  rewrite matchRe_Seq in Hm.
  apply (matchRe_Grp_sound 1 (Star false (Cls isDot))) in Hm
    as (body & s3 & -> & Hbody & Hm); [|done].
  apply lang_Star_Cls in Hbody.
  apply matchRe_sound in Hm as (w4 & post & cs4 & -> & (q2 & -> & Hq2) & Hcs & [= _ <-]).
  rewrite Hcs by done.
  exists ws, q1, body, q2, post. done.
Qed.

(** A match of the pattern of [require]. *)
Lemma requireRegex_sound pos s pos' cs :
  matchAt requireRegex pos s = Some (pos', cs) ->
  exists q1 body q2 post,
    s = list_ascii_of_string "require(" ++ q1 :: body ++ q2 :: ")"%char :: post
    /\ oneOf quotes q1 = true /\ oneOf quotes q2 = true
    /\ Forall (fun c => isDot c = true) body
    /\ cs = [(1%nat, body)].
Proof.
  unfold matchAt, requireRegex. intros Hm.
  apply matchRe_Seq_sound in Hm as (w0 & s0 & -> & Hw0 & Hm); [|apply hasGroup_Lit].
  apply lang_Lit in Hw0 as ->; [|done].
  apply matchRe_Seq_sound in Hm as (w2 & s2 & -> & (q1 & -> & Hq1) & Hm); [|done].
  rewrite matchRe_Seq in Hm.
  apply (matchRe_Grp_sound 1 (Star false (Cls isDot))) in Hm
    as (body & s3 & -> & Hbody & Hm); [|done].
  apply lang_Star_Cls in Hbody.
  apply matchRe_Seq_sound in Hm as (w4 & s4 & -> & (q2 & -> & Hq2) & Hm); [|done].
  apply matchRe_sound in Hm as (w5 & post & cs5 & -> & Hw5 & Hcs5 & [= _ <-]).
  cbn in Hw5. subst w5. rewrite Hcs5 by done.
  exists q1, body, q2, post. done.
Qed.

Lemma search_split r i text j cs :
  search r i (skipn i text) = Some (j, cs) ->
  exists pre s pos, text = pre ++ s /\ matchAt r pos s = Some (j, cs).
Proof.
  intros Hs. apply search_sound in Hs as (n & Hn & Hm).
  exists (firstn (n + i) text), (skipn (n + i) text), (i + n)%nat.
  rewrite firstn_skipn. split; [done|]. by rewrite skipn_skipn in Hm.
Qed.

Lemma isJsTs_regex languageId :
  isJsTs languageId = true ->
  String.eqb languageId "go" = false /\ regexes languageId = Some fromRegex.
Proof.
  unfold isJsTs. intros Hin%bool_decide_eq_true.
  repeat (apply elem_of_cons in Hin as [->|Hin]; [by split|]).
  by apply elem_of_nil in Hin.
Qed.

Lemma jsImport_from pre ws q1 body q2 post :
  ws <> [] -> Forall (fun c => isSpace c = true) ws ->
  oneOf quotes q1 = true -> oneOf quotes q2 = true ->
  jsImport (pre ++ list_ascii_of_string "from" ++ ws ++ q1 :: body ++ q2 :: post) body.
Proof. intros. exists pre, q1, q2, post. split; [done|]. split; [done|]. left. by exists ws. Qed.

Lemma jsImport_require pre q1 body q2 post :
  oneOf quotes q1 = true -> oneOf quotes q2 = true ->
  jsImport (pre ++ list_ascii_of_string "require(" ++ q1 :: body ++ q2 :: ")"%char :: post)
           body.
Proof. intros. exists pre, q1, q2, post. split; [done|]. split; [done|]. by right. Qed.

(** What the loops of JavaScript and TypeScript keep of every import. *)
Lemma addGroup1IfTruthy_jsImport (P : string -> Prop) body imports :
  (body <> [] -> P (string_of_list_ascii body)) ->
  Forall P imports -> Forall P (addGroup1IfTruthy [(1%nat, body)] imports).
Proof.
  intros Hbody Himports. unfold addGroup1IfTruthy. cbn.
  destruct body as [|c t]; [done|].
  unfold JS.setAdd. case_bool_decide; [done|].
  apply Forall_app_2; [done|]. apply Forall_singleton. by apply Hbody.
Qed.

(** X11.  Every import reported for a JavaScript or TypeScript text is
    in the text: it is not empty, holds no line terminator, and stands
    there between two quote characters, either after [from] and white space
    or after [require(] and before [)]. *)
Theorem parseImports_js_sound (content languageId : string) (imports : list string)
    (imported : string) :
  isJsTs languageId = true ->
  parseImports content languageId = Resolved imports ->
  imported ∈ imports ->
  imported <> ""
  /\ Forall (fun c => isDot c = true) (list_ascii_of_string imported)
  /\ jsImport (list_ascii_of_string content) (list_ascii_of_string imported).
Proof.
  intros Hjs Hparse Hin.
  destruct (isJsTs_regex _ Hjs) as [Hgo Hre].
  unfold parseImports in Hparse. cbv zeta in Hparse.
  rewrite Hgo, Hre, Hjs in Hparse. revert Hparse.
  generalize (S (List.length (list_ascii_of_string content))) as fuel.
  intros fuel [= <-]. revert imported Hin. apply Forall_forall.
  set (P := fun imported : string =>
              imported <> ""
              /\ Forall (fun c => isDot c = true) (list_ascii_of_string imported)
              /\ jsImport (list_ascii_of_string content) (list_ascii_of_string imported)).
  assert (forall body, body <> [] -> Forall (fun c => isDot c = true) body ->
                       jsImport (list_ascii_of_string content) body ->
                       P (string_of_list_ascii body)) as HP.
  { intros body Hne Hdot Himp. unfold P. rewrite list_ascii_of_string_of_list_ascii.
    split; [|done]. by destruct body. }
  apply (execAll_invariant_search (Forall P)).
  { intros i j cs st Hs Hst.
    apply search_split in Hs as (pre & s & pos & Htext & Hm).
    apply requireRegex_sound in Hm as (q1 & body & q2 & post & -> & Hq1 & Hq2 & Hbody & ->).
    apply addGroup1IfTruthy_jsImport; [|done]. intros Hne. apply HP; [done|done|].
    rewrite Htext. by apply jsImport_require. }
  apply (execAll_invariant_search (Forall P)); [|constructor].
  intros i j cs st Hs Hst.
  apply search_split in Hs as (pre & s & pos & Htext & Hm).
  apply fromRegex_sound in Hm
    as (ws & q1 & body & q2 & post & -> & Hne & Hws & Hq1 & Hq2 & Hbody & ->).
  apply addGroup1IfTruthy_jsImport; [|done]. intros Hne'. apply HP; [done|done|].
  rewrite Htext. by apply jsImport_from.
Qed.

End JsImports.

(** ** The loops end *)

Section LoopsEnd.
Import Regex RegexParser.

(** A match of a pattern that cannot match the empty word ends past
    the index the search started at, and inside the text. *)
Lemma search_advances r i text j cs :
  nonEmpty r = true ->
  (i <= List.length text)%nat ->
  search r i (skipn i text) = Some (j, cs) ->
  (i < j <= List.length text)%nat.
Proof.
  intros Hne Hi Hs. apply search_sound in Hs as (n & Hn & Hm).
  rewrite length_skipn in Hn.
  apply matchAt_sound in Hm as (w & s' & Hw & Hlang & ->).
  apply (f_equal (@List.length ascii)) in Hw.
  rewrite skipn_skipn, length_skipn, List.length_app in Hw.
  pose proof (lang_nonEmpty r w Hne Hlang) as Hnil.
  destruct w; [done|]. cbn [List.length] in *. lia.
Qed.

Lemma execAll_fuel {St : Type} r content (body : captures -> St -> St) :
  nonEmpty r = true ->
  forall n fuel i st,
    (i <= List.length content)%nat ->
    (List.length content - i <= n)%nat ->
    (n < fuel)%nat ->
    execAll fuel r content i body st = execAll (S n) r content i body st.
Proof.
  intros Hne. induction n as [|n IH]; intros fuel i st Hi Hn Hfuel.
  - destruct fuel as [|fuel]; [lia|]. cbn [execAll].
    destruct (search r i (skipn i content)) as [[j cs]|] eqn:Hs; [|done].
    apply search_advances in Hs; [lia|done|done].
  - destruct fuel as [|fuel]; [lia|]. cbn [execAll].
    destruct (search r i (skipn i content)) as [[j cs]|] eqn:Hs; [|done].
    apply search_advances in Hs; [|done|done].
    fold (execAll (S n) r content j body (body cs st)).
    apply IH; lia.
Qed.

(** X12.  Each loop of [parseImports] ends: every pattern it runs
    consumes at least one character per match, so there are at most as
    many turns as the text has characters, and a bound beyond that changes
    nothing in what the loop computes. *)
Theorem execAll_ends {St : Type} (r : re) (content : list ascii)
    (body : captures -> St -> St) (st : St) (fuel : nat) :
  r ∈ [fromRegex; pythonRegex; goRegex; javaRegex; includeRegex;
       singleLine; blockRegex; requireRegex] ->
  (S (List.length content) <= fuel)%nat ->
  execAll fuel r content 0 body st = execAll (S (List.length content)) r content 0 body st.
Proof.
  intros Hr Hfuel. apply execAll_fuel; [|lia..].
  repeat (apply elem_of_cons in Hr as [->|Hr]; [reflexivity|]).
  by apply elem_of_nil in Hr.
Qed.

End LoopsEnd.

(** ** One import statement *)

Section ImportStatement.
Import Regex RegexParser.

Lemma quote_cases c :
  oneOf quotes c = true -> c = ascii_of_N 39 \/ c = ascii_of_N 34.
Proof.
  unfold oneOf, quotes, quote. cbn [list_ascii_of_string existsb].
  destruct (Ascii.eqb_spec c (ascii_of_N 39)) as [->|_]; [by left|].
  destruct (Ascii.eqb_spec c (ascii_of_N 34)) as [->|_]; [by right|done].
Qed.

(** Where the first quote of a text is. *)
Lemma first_quote_split (a : list ascii) : forall x q q' b y,
  Forall (fun c => oneOf quotes c = false) a ->
  oneOf quotes q' = true ->
  a ++ q :: b = x ++ q' :: y ->
  (x = a /\ q = q' /\ b = y) \/ (exists x', x = a ++ q :: x' /\ b = x' ++ q' :: y).
Proof.
  induction a as [|c a IH]; intros x q q' b y Ha Hq' Heq.
  - destruct x as [|c' x]; cbn in Heq.
    + injection Heq as -> ->. by left.
    + injection Heq as -> ->. right. by exists x.
  - apply Forall_cons in Ha as [Hc Ha]. destruct x as [|c' x]; cbn in Heq.
    + injection Heq as -> _. congruence.
    + injection Heq as -> Heq.
      apply (IH _ _ _ _ _ Ha Hq') in Heq as [(-> & -> & ->)|(x' & -> & ->)].
      * by left.
      * right. by exists x'.
Qed.

Lemma not_quote_elem (l : list ascii) q :
  Forall (fun c => oneOf quotes c = false) l -> oneOf quotes q = true -> q ∉ l.
Proof. intros Hl Hq Hin. rewrite Forall_forall in Hl. specialize (Hl _ Hin). congruence. Qed.

(** In a text with two quotes, a quoted piece that is followed by a
    quote is the piece between the two. *)
Lemma two_quotes a q1 b q2 c x q1' body q2' rest :
  Forall (fun c => oneOf quotes c = false) a ->
  Forall (fun c => oneOf quotes c = false) b ->
  Forall (fun c => oneOf quotes c = false) c ->
  oneOf quotes q1' = true -> oneOf quotes q2' = true ->
  a ++ q1 :: b ++ q2 :: c = x ++ q1' :: body ++ q2' :: rest ->
  x = a.
Proof.
  intros Ha Hb Hc Hq1' Hq2' Heq.
  apply (first_quote_split _ _ _ _ _ _ Ha Hq1') in Heq as [(-> & _)|(x' & -> & Heq)];
    [done|].
  exfalso.
  apply (first_quote_split _ _ _ _ _ _ Hb Hq1') in Heq as [(_ & _ & ->)|(x'' & _ & ->)].
  - eapply (not_quote_elem _ q2'); [exact Hc|done|].
    apply elem_of_app. right. by left.
  - eapply (not_quote_elem _ q1'); [exact Hc|done|].
    apply elem_of_app. right. by left.
Qed.

Lemma matchRe_Chr {A : Type} c pos s cs (k : nat -> list ascii -> captures -> option A) :
  matchRe (Chr c) pos (c :: s) cs k = k (S pos) s cs.
Proof. cbn. by rewrite Ascii.eqb_refl. Qed.

Lemma matchRe_Cls {A : Type} p x pos s cs (k : nat -> list ascii -> captures -> option A) :
  matchRe (Cls p) pos (x :: s) cs k = if p x then k (S pos) s cs else None.
Proof. reflexivity. Qed.

Lemma matchRe_Grp {A : Type} i r pos s cs (k : nat -> list ascii -> captures -> option A) :
  matchRe (Grp i r) pos s cs k
  = matchRe r pos s cs (fun pos' s' cs' => k pos' s' ((i, firstn (pos' - pos) s) :: cs')).
Proof. reflexivity. Qed.

Lemma matchRe_Lit {A : Type} (w : list ascii) : forall pos s cs
    (k : nat -> list ascii -> captures -> option A),
  w <> [] -> matchRe (Lit w) pos (w ++ s) cs k = k (pos + List.length w)%nat s cs.
Proof.
  induction w as [|c [|c' w] IH]; intros pos s cs k Hne; [done| |].
  - cbn [Lit app]. rewrite matchRe_Chr. cbn. by rewrite Nat.add_1_r.
  - change (Lit (c :: c' :: w)) with (Seq (Chr c) (Lit (c' :: w))).
    rewrite matchRe_Seq. cbn [app]. rewrite matchRe_Chr.
    change (c' :: w ++ s) with ((c' :: w) ++ s). rewrite IH by done.
    cbn [List.length]. f_equal. lia.
Qed.

(** A greedy star of a class stops at a character outside the class. *)
Lemma greedy_star_stop {A : Type} p c fuel pos s cs
    (k : nat -> list ascii -> captures -> option A) :
  p c = false ->
  starLoop (fun pos s cs k => matchRe (Cls p) pos s cs k) true k fuel pos (c :: s) cs
  = k pos (c :: s) cs.
Proof. intros Hp. rewrite starLoop_eq. destruct fuel; cbn; by rewrite ?Hp. Qed.

(** A lazy star of a class runs up to the first character the
    continuation accepts. *)
Lemma lazy_star_until {A : Type} p stop (k : nat -> list ascii -> captures -> option A)
    rest cs a :
  (forall pos c s cs, stop c = false -> k pos (c :: s) cs = None) ->
  forall w fuel pos,
    Forall (fun c => p c = true /\ stop c = false) w ->
    (List.length w <= fuel)%nat ->
    k (pos + List.length w)%nat rest cs = Some a ->
    starLoop (fun pos s cs k => matchRe (Cls p) pos s cs k) false k fuel pos (w ++ rest) cs
    = Some a.
Proof.
  intros Hfail. induction w as [|c w IH]; intros fuel pos Hw Hfuel Hk.
  - rewrite starLoop_eq. cbn in *. rewrite Nat.add_0_r in Hk. by rewrite Hk.
  - apply Forall_cons in Hw as [[Hp Hstop] Hw].
    destruct fuel as [|fuel]; [cbn in Hfuel; lia|].
    rewrite starLoop_eq. cbn zeta. cbn [app]. rewrite (Hfail _ _ _ _ Hstop).
    rewrite matchRe_Cls, Hp.
    replace (Nat.ltb (List.length (w ++ rest)) (List.length (c :: w ++ rest))) with true
      by (symmetry; apply Nat.ltb_lt; cbn; lia).
    apply IH; [done|cbn in Hfuel; lia|].
    cbn [List.length] in Hk. by rewrite Nat.add_succ_r in Hk.
Qed.

(** The pattern of [from] on an import statement. *)
Lemma fromRegex_complete pos q1 path q2 post :
  oneOf quotes q1 = true -> oneOf quotes q2 = true ->
  Forall (fun c => isDot c = true /\ oneOf quotes c = false) path ->
  matchAt fromRegex pos
    (list_ascii_of_string "from " ++ q1 :: path ++ q2 :: post)
  = Some ((pos + 7 + List.length path)%nat, [(1%nat, path)]).
Proof.
  intros Hq1 Hq2 Hpath. unfold matchAt, fromRegex.
  change (list_ascii_of_string "from " ++ q1 :: path ++ q2 :: post)
    with (list_ascii_of_string "from" ++ " "%char :: q1 :: path ++ q2 :: post).
  rewrite matchRe_Seq. unfold lit. rewrite matchRe_Lit by done.
  rewrite matchRe_Seq. unfold Plus. rewrite matchRe_Seq, matchRe_Cls.
  change (isSpace " ") with true. cbv iota. rewrite matchRe_Star.
  rewrite greedy_star_stop by (by destruct (quote_cases _ Hq1) as [-> | ->]).
  rewrite matchRe_Seq, matchRe_Cls, Hq1. rewrite matchRe_Seq, matchRe_Grp, matchRe_Star.
  apply (lazy_star_until isDot (oneOf quotes)).
  - intros pos' c s cs Hc. by rewrite matchRe_Cls, Hc.
  - done.
  - rewrite List.length_app. lia.
  - rewrite matchRe_Cls, Hq2. f_equal. f_equal.
    + cbn [List.length list_ascii_of_string]. lia.
    + f_equal. f_equal.
      match goal with
      | |- firstn ?n _ = _ => replace n with (List.length path) by lia
      end.
      by rewrite firstn_app, Nat.sub_diag, firstn_all, firstn_O, List.app_nil_r.
Qed.

Lemma search_at r : forall pre pos s m,
  (forall pre1 pre2 pos', pre = pre1 ++ pre2 -> pre2 <> [] ->
                          matchAt r pos' (pre2 ++ s) = None) ->
  matchAt r (pos + List.length pre) s = Some m ->
  search r pos (pre ++ s) = Some m.
Proof.
  induction pre as [|c pre IH]; intros pos s m Hnone Hm.
  - cbn in *. rewrite Nat.add_0_r in Hm. destruct s; cbn [search]; by rewrite Hm.
  - pose proof (Hnone [] (c :: pre) pos eq_refl ltac:(done)) as H0.
    cbn [app] in H0. cbn [app search]. rewrite H0.
    apply IH.
    + intros pre1 pre2 pos' -> Hne. by apply (Hnone (c :: pre1) pre2 pos').
    + cbn [List.length] in Hm. by rewrite Nat.add_succ_r in Hm.
Qed.

Lemma search_none r pos s :
  (forall n pos', matchAt r pos' (skipn n s) = None) -> search r pos s = None.
Proof.
  intros Hnone. destruct (search r pos s) as [m|] eqn:Hs; [|done].
  apply search_sound in Hs as (n & _ & Hm). by rewrite Hnone in Hm.
Qed.

Lemma execAll_single {St : Type} r text (body : captures -> St -> St) st j cs fuel :
  search r 0 text = Some (j, cs) ->
  search r j (skipn j text) = None ->
  execAll (S (S fuel)) r text 0 body st = body cs st.
Proof.
  intros H1 H2. cbn [execAll]. change (skipn 0 text) with text. by rewrite H1, H2.
Qed.

Lemma execAll_none {St : Type} r text (body : captures -> St -> St) st fuel :
  search r 0 text = None -> execAll fuel r text 0 body st = st.
Proof.
  intros H1. destruct fuel; [done|]. cbn [execAll]. change (skipn 0 text) with text.
  by rewrite H1.
Qed.

Section Statement.
Variables (pre path post : list ascii) (q1 q2 : ascii).
Hypothesis Hq1 : oneOf quotes q1 = true.
Hypothesis Hq2 : oneOf quotes q2 = true.
Hypothesis Hpre : Forall (fun c => oneOf quotes c = false) pre.
Hypothesis Hpost : Forall (fun c => oneOf quotes c = false) post.
Hypothesis Hpath : Forall (fun c => isDot c = true /\ oneOf quotes c = false) path.

Lemma statement_quotes pre' q1' body q2' rest :
  oneOf quotes q1' = true -> oneOf quotes q2' = true ->
  pre ++ list_ascii_of_string "from " ++ q1 :: path ++ q2 :: post
  = pre' ++ q1' :: body ++ q2' :: rest ->
  pre' = pre ++ list_ascii_of_string "from ".
Proof.
  intros Hq1' Hq2' Heq. rewrite List.app_assoc in Heq.
  apply two_quotes in Heq; try done.
  - apply Forall_app_2; [done|]. by repeat constructor.
  - eapply Forall_impl; [exact Hpath|]. by intros c [_ ?].
Qed.

Lemma from_match_position pre' s pos m :
  pre ++ list_ascii_of_string "from " ++ q1 :: path ++ q2 :: post = pre' ++ s ->
  matchAt fromRegex pos s = Some m ->
  pre' = pre.
Proof.
  intros Heq Hm. destruct m as [j cs].
  apply fromRegex_sound in Hm
    as (ws & q1' & body & q2' & rest & -> & Hne & Hws & Hq1' & Hq2' & _).
  rewrite !List.app_assoc in Heq. rewrite <- !(List.app_assoc pre) in Heq.
  apply statement_quotes in Heq; [|done..].
  destruct (exists_last Hne) as (ws' & c & ->).
  apply Forall_app in Hws as [Hws' [Hc _]%Forall_cons].
  change (list_ascii_of_string "from ")
    with (list_ascii_of_string "from" ++ [" "%char]) in Heq.
  rewrite !List.app_assoc in Heq. apply app_inj_tail in Heq as [Heq _].
  destruct ws' as [|c' ws'] using rev_ind.
  - rewrite List.app_nil_r in Heq. by apply app_inv_tail in Heq.
  - exfalso. clear IHws'. apply Forall_app in Hws' as [_ [Hc' _]%Forall_cons].
    change (list_ascii_of_string "from")
      with (list_ascii_of_string "fro" ++ ["m"%char]) in Heq at 2.
    rewrite !List.app_assoc in Heq. apply app_inj_tail in Heq as [_ ->]. done.
Qed.

Lemma require_no_match pre' s pos :
  pre ++ list_ascii_of_string "from " ++ q1 :: path ++ q2 :: post = pre' ++ s ->
  matchAt requireRegex pos s = None.
Proof.
  intros Heq. destruct (matchAt requireRegex pos s) as [[j cs]|] eqn:Hm; [|done].
  exfalso.
  apply requireRegex_sound in Hm as (q1' & body & q2' & rest & -> & Hq1' & Hq2' & _).
  rewrite !List.app_assoc in Heq. rewrite <- !(List.app_assoc pre) in Heq.
  apply statement_quotes in Heq; [|done..].
  change (list_ascii_of_string "from ")
    with (list_ascii_of_string "from" ++ [" "%char]) in Heq.
  change (list_ascii_of_string "require(")
    with (list_ascii_of_string "require" ++ ["("%char]) in Heq.
  rewrite !List.app_assoc in Heq. by apply app_inj_tail in Heq as [_ [=]].
Qed.

Lemma from_no_match_after n pos : matchAt fromRegex pos (skipn n post) = None.
Proof.
  destruct (matchAt fromRegex pos (skipn n post)) as [[j cs]|] eqn:Hm; [|done].
  exfalso.
  apply fromRegex_sound in Hm as (ws & q1' & body & q2' & rest & Heq & _ & _ & Hq1' & _).
  apply (not_quote_elem post q1' Hpost Hq1').
  rewrite <- (firstn_skipn n post), Heq.
  apply elem_of_app. right. apply elem_of_app. right. apply elem_of_app. right. by left.
Qed.

Lemma statement_imports languageId :
  isJsTs languageId = true ->
  parseImports
    (string_of_list_ascii
       (pre ++ list_ascii_of_string "from " ++ q1 :: path ++ q2 :: post))
    languageId
  = Resolved (match path with [] => [] | _ => [string_of_list_ascii path] end).
Proof.
  intros Hjs. destruct (isJsTs_regex _ Hjs) as [Hgo Hre].
  unfold parseImports. cbv zeta. rewrite list_ascii_of_string_of_list_ascii.
  rewrite Hgo, Hre, Hjs. f_equal.
  set (text := pre ++ list_ascii_of_string "from " ++ q1 :: path ++ q2 :: post).
  assert (exists n, List.length text = S n) as [n ->].
  { subst text. rewrite List.length_app. cbn. eexists. by rewrite Nat.add_succ_r. }
  rewrite (execAll_single fromRegex _ _ _ (List.length pre + 7 + List.length path)%nat
             [(1%nat, path)]).
  - rewrite (execAll_none requireRegex).
    + unfold addGroup1IfTruthy. cbn. by destruct path.
    + apply search_none. intros k pos.
      apply (require_no_match (firstn k text)). by rewrite firstn_skipn.
  - subst text. apply search_at.
    + intros pre1 pre2 pos' Hsplit Hne.
      destruct (matchAt fromRegex pos' _) as [m|] eqn:Hm; [|done].
      exfalso.
      apply (from_match_position pre1) in Hm;
        [|by rewrite Hsplit at 1; rewrite <- List.app_assoc].
      rewrite Hm in Hsplit. apply (f_equal (@List.length ascii)) in Hsplit.
      rewrite List.length_app in Hsplit.
      destruct pre2; [done|]. cbn in Hsplit. lia.
    + by apply fromRegex_complete.
  - apply search_none. intros k pos.
    replace (skipn (List.length pre + 7 + List.length path) text) with post.
    + apply from_no_match_after.
    + subst text.
      change (pre ++ list_ascii_of_string "from " ++ q1 :: path ++ q2 :: post)
        with (pre ++ list_ascii_of_string "from " ++ [q1] ++ path ++ [q2] ++ post).
      rewrite !List.app_assoc.
      match goal with
      | |- _ = skipn ?j (?a ++ post) => replace j with (List.length a)
      end.
      * by rewrite drop_app_length.
      * rewrite !List.length_app. cbn. lia.
Qed.

End Statement.

(** X13.  For a JavaScript or TypeScript text that holds one import
    statement, [from], a space and a path between two quote characters,
    with no other quote character before, inside or after it,
    [parseImports] resolves to that path alone, and to nothing if the path
    is empty. *)
Theorem parseImports_import_statement (languageId : string)
    (pre path post : list ascii) (q1 q2 : ascii) :
  isJsTs languageId = true ->
  oneOf quotes q1 = true ->
  oneOf quotes q2 = true ->
  Forall (fun c => oneOf quotes c = false) pre ->
  Forall (fun c => oneOf quotes c = false) post ->
  Forall (fun c => isDot c = true /\ oneOf quotes c = false) path ->
  parseImports
    (string_of_list_ascii
       (pre ++ list_ascii_of_string "from " ++ q1 :: path ++ q2 :: post))
    languageId
  = Resolved (match path with [] => [] | _ => [string_of_list_ascii path] end).
Proof. intros. by apply statement_imports. Qed.

End ImportStatement.

(** ** Selection, neighbours and dragging *)

Section EngineMore.
Context `{G : Geometry}.
Import Layout HullGenerator GraphEngine Listeners.

Lemma mirrored_step e a : mirrored e -> mirrored (step e a).
Proof.
  intros [Hm Hn]. unfold mirrored.
  destruct (selectionStep_step e a) as [Hs | [(i & ns & Hs) | (c & Hs)]];
    unfold selection in Hs.
  - injection Hs as -> -> _ ->. done.
  - injection Hs as -> _ _ ->. done.
  - injection Hs as -> -> _ ->. done.
Qed.

Lemma mirrored_run actions : forall e, mirrored e -> mirrored (run e actions).
Proof.
  induction actions as [|a actions IH]; intros e He; [done|].
  apply IH, mirrored_step, He.
Qed.

(** X14.  Whatever happens to an engine from its creation on, its own
    [selectedNodeId] equals the renderer's, and the renderer highlights no
    neighbour while no node is selected. *)
Theorem selection_mirrored :
  (forall e a, mirrored e -> mirrored (step e a))
  /\ (forall actions, mirrored (run create actions)).
Proof.
  split; [apply mirrored_step|]. intros actions. by apply mirrored_run.
Qed.

Lemma addNeighbors_spec l i neighbors link :
  NoDup neighbors ->
  NoDup (addNeighbors l i neighbors link)
  /\ forall n, n ∈ addNeighbors l i neighbors link
               <-> n ∈ neighbors
                   \/ exists s t, idOf l (source link) = Some s
                                  /\ idOf l (target link) = Some t
                                  /\ (s = i /\ n = t \/ t = i /\ n = s).
Proof.
  intros Hnd. unfold addNeighbors.
  destruct (idOf l (source link)) as [s|]; [|split; [done|]; intros n; split;
    [by left|by intros [?|(? & ? & ? & _)]]].
  destruct (idOf l (target link)) as [t|]; [|split; [done|]; intros n; split;
    [by left|by intros [?|(? & ? & _ & ? & _)]]].
  split.
  - destruct (String.eqb s i), (String.eqb t i); auto using setAdd_NoDup.
  - intros n.
    destruct (String.eqb_spec s i) as [Hs|Hs], (String.eqb_spec t i) as [Ht|Ht];
      rewrite ?setAdd_elem; split.
    + intros [[?| ->]| ->]; [by left|right; exists s, t; auto..].
    + intros [?|(? & ? & [= <-] & [= <-] & [[_ ->]|[_ ->]])]; auto.
    + intros [?| ->]; [by left|]. right. exists s, t. auto.
    + intros [?|(? & ? & [= <-] & [= <-] & [[_ ->]|[? _]])]; auto. done.
    + intros [?| ->]; [by left|]. right. exists s, t. auto.
    + intros [?|(? & ? & [= <-] & [= <-] & [[? _]|[_ ->]])]; auto. done.
    + by left.
    + intros [?|(? & ? & [= <-] & [= <-] & [[? _]|[? _]])]; done.
Qed.

Lemma fold_addNeighbors_spec l i links : forall neighbors,
  NoDup neighbors ->
  NoDup (fold_left (addNeighbors l i) links neighbors)
  /\ forall n, n ∈ fold_left (addNeighbors l i) links neighbors
               <-> n ∈ neighbors
                   \/ exists link s t, link ∈ links
                                       /\ idOf l (source link) = Some s
                                       /\ idOf l (target link) = Some t
                                       /\ (s = i /\ n = t \/ t = i /\ n = s).
Proof.
  induction links as [|link links IH]; intros neighbors Hnd.
  - split; [done|]. intros n. split; [by left|].
    intros [?|(? & ? & ? & ?%elem_of_nil & _)]; done.
  - cbn [fold_left]. destruct (addNeighbors_spec l i neighbors link Hnd) as [Hnd' Hin'].
    destruct (IH _ Hnd') as [Hnd'' Hin'']. split; [done|]. intros n.
    rewrite Hin'', Hin'. split.
    + intros [[?|(s & t & ?)]|(link' & s & t & ? & ?)]; [by left| |].
      * right. exists link, s, t. split; [by left|done].
      * right. exists link', s, t. split; [by right|done].
    + intros [?|(link' & s & t & [->|?]%elem_of_cons & ?)]; [by left; left| |].
      * left. right. by exists s, t.
      * right. by exists link', s, t.
Qed.

(** X15.  A double click on a node of the layout highlights exactly the
    ids at the other end of a link that has the node at one end, each
    once. *)
Theorem handleNodeClick_neighbors (e : t) (i : string) (r : ref) :
  findNode (layout e) i = Some r ->
  let neighbors := Renderer.highlightNeighbors (renderer (handleNodeClick i 2 e)) in
  NoDup neighbors
  /\ forall n, n ∈ neighbors
               <-> exists link s t,
                     link ∈ links (layout e)
                     /\ idOf (layout e) (source link) = Some s
                     /\ idOf (layout e) (target link) = Some t
                     /\ (s = i /\ n = t \/ t = i /\ n = s).
Proof.
  intros Hfind neighbors.
  pose proof (selection_handleNodeClick_double i e r Hfind) as Hsel.
  unfold selection in Hsel. injection Hsel as _ Hn _ _.
  subst neighbors. rewrite Hn.
  destruct (fold_addNeighbors_spec (layout e) i (links (layout e)) [] (NoDup_nil_2))
    as [Hnd Hin].
  split; [done|]. intros n. rewrite Hin. split; [|by right].
  by intros [?%elem_of_nil|?].
Qed.

End EngineMore.

(** ** A drag *)

Section DragGesture.
Context `{G : Geometry}.
Import Layout HullGenerator GraphEngine Listeners.

(** [update] writes the renderer and nothing else. *)
Lemma update_frame e : update e = withRenderer (renderer (update e)) e.
Proof. unfold update. destruct (negb (isRunning e)); [by destruct e|done]. Qed.

Lemma findNode_ids (l l' : Layout.t) i :
  nodes l' = nodes l ->
  (forall r, id <$> store l' !! r = id <$> store l !! r) ->
  findNode l' i = findNode l i.
Proof.
  intros Hn Hs. unfold findNode. rewrite Hn. clear Hn.
  induction (nodes l) as [|r rs IH]; [done|]. cbn [List.find].
  specialize (Hs r). rewrite IH.
  destruct (store l' !! r) as [n'|], (store l !! r) as [n|]; cbn in Hs; try done.
  injection Hs as Hs. by rewrite Hs.
Qed.

Lemma findNode_dragStart l i : findNode (dragStart l) i = findNode l i.
Proof. by apply findNode_ids. Qed.

Lemma findNode_dragMove l r px py i : findNode (dragMove l r px py) i = findNode l i.
Proof.
  apply findNode_ids; [done|]. intros r'. cbn.
  destruct (decide (r' = r)) as [->|Hne].
  - rewrite lookup_alter_eq. by destruct (store l !! r).
  - by rewrite lookup_alter_ne.
Qed.

Lemma nodesMap_setSprite i sp e :
  Renderer.nodesMap (renderer (setSprite i sp e)) !! i = Some sp.
Proof. unfold setSprite. cbn. apply lookup_insert_eq. Qed.

Lemma findNode_dragEnd l r i : findNode (dragEnd l r) i = findNode l i.
Proof.
  apply findNode_ids; [done|]. intros r'. cbn.
  destruct (decide (r' = r)) as [->|Hne].
  - rewrite lookup_alter_eq. by destruct (store l !! r).
  - by rewrite lookup_alter_ne.
Qed.

Lemma alter_setPin_twice a b c d r (st : gmap ref GraphNode) :
  alter (setPin a b) r (alter (setPin c d) r st) = alter (setPin a b) r st.
Proof.
  rewrite alter_alter_eq. apply alter_ext. by intros [] _.
Qed.

Lemma dragMove_twice l r px py :
  dragMove (dragMove l r px py) r px py = dragMove l r px py.
Proof.
  unfold dragMove, withStore. cbn [store nodes links simulation].
  by rewrite alter_setPin_twice.
Qed.

Lemma dragEnd_twice l r : dragEnd (dragEnd l r) r = dragEnd l r.
Proof.
  unfold dragEnd, withStore, withSimulation. cbn [store nodes links simulation running].
  by rewrite alter_setPin_twice.
Qed.

(** The press that starts a drag. *)
Lemma nodePointerDown_eq i e sp :
  Renderer.nodesMap (renderer e) !! i = Some sp ->
  nodePointerDown i e
  = setSprite i {| Renderer.node := Renderer.node sp; Renderer.isDragging := false;
                   Renderer.listeners := S (Renderer.listeners sp) |}
      (handleDragStart i
         (setSprite i {| Renderer.node := Renderer.node sp; Renderer.isDragging := false;
                         Renderer.listeners := Renderer.listeners sp |} e)).
Proof.
  intros Hsp. unfold nodePointerDown. rewrite Hsp. cbv zeta.
  unfold handleDragStart at 1. cbv zeta.
  rewrite (update_nodesMap _ i {| Renderer.node := Renderer.node sp;
                                  Renderer.isDragging := false;
                                  Renderer.listeners := Renderer.listeners sp |});
    [done|]. cbn. apply lookup_insert_eq.
Qed.

(** One call of [onMove] for a node of the layout. *)
Lemma onMove_spec i px py e sp r :
  Renderer.nodesMap (renderer e) !! i = Some sp ->
  findNode (layout e) i = Some r ->
  dragState i e (onMove i px py e) (dragMove (layout e) r px py) (panEnabled e)
    {| Renderer.node := Renderer.node sp; Renderer.isDragging := true;
       Renderer.listeners := Renderer.listeners sp |}.
Proof.
  intros Hsp Hfind. unfold onMove. rewrite Hsp. cbv zeta.
  unfold handleDragMove. cbn [layout setSprite withRenderer]. rewrite Hfind.
  split; [|split; [|split; [|split; [|split]]]].
  - by rewrite update_frame.
  - by rewrite update_frame.
  - by rewrite update_frame.
  - by rewrite update_frame.
  - by rewrite selection_update.
  - apply update_nodesMap. cbn. apply lookup_insert_eq.
Qed.

(** Every further call of [onMove] of the same event leaves things there. *)
Lemma iter_onMove i px py e sp r n :
  Renderer.nodesMap (renderer e) !! i = Some sp ->
  findNode (layout e) i = Some r ->
  dragState i e (Nat.iter (S n) (onMove i px py) e) (dragMove (layout e) r px py)
    (panEnabled e)
    {| Renderer.node := Renderer.node sp; Renderer.isDragging := true;
       Renderer.listeners := Renderer.listeners sp |}.
Proof.
  intros Hsp Hfind. induction n as [|n IH]; [by apply onMove_spec|].
  destruct IH as (Hl & Hp & Hc & He & Hs & Hm).
  set (e1 := Nat.iter (S n) (onMove i px py) e) in *.
  change (Nat.iter (S (S n)) (onMove i px py) e) with (onMove i px py e1).
  assert (findNode (layout e1) i = Some r) as Hf1 by (by rewrite Hl, findNode_dragMove).
  destruct (onMove_spec i px py e1 _ r Hm Hf1) as (Hl' & Hp' & Hc' & He' & Hs' & Hm').
  split; [|split; [|split; [|split; [|split]]]].
  - by rewrite Hl', Hl, dragMove_twice.
  - congruence.
  - congruence.
  - congruence.
  - congruence.
  - exact Hm'.
Qed.

(** One call of [onUp] after a move, for a node of the layout. *)
Lemma onUp_spec i now e sp r :
  Renderer.nodesMap (renderer e) !! i = Some sp ->
  Renderer.isDragging sp = true ->
  findNode (layout e) i = Some r ->
  dragState i e (onUp i now e) (dragEnd (layout e) r) true
    {| Renderer.node := Renderer.node sp; Renderer.isDragging := true;
       Renderer.listeners := 0 |}.
Proof.
  intros Hsp Hd Hfind. unfold onUp. rewrite Hsp, Hd. cbv zeta. cbn [negb].
  unfold handleDragEnd. cbv zeta. cbn [layout setSprite withRenderer withPan].
  rewrite Hfind.
  split; [|split; [|split; [|split; [|split]]]].
  - by rewrite update_frame.
  - by rewrite update_frame.
  - by rewrite update_frame.
  - by rewrite update_frame.
  - by rewrite selection_update.
  - apply update_nodesMap. cbn. apply lookup_insert_eq.
Qed.

Lemma iter_onUp i now e sp r n :
  Renderer.nodesMap (renderer e) !! i = Some sp ->
  Renderer.isDragging sp = true ->
  findNode (layout e) i = Some r ->
  dragState i e (Nat.iter (S n) (onUp i now) e) (dragEnd (layout e) r) true
    {| Renderer.node := Renderer.node sp; Renderer.isDragging := true;
       Renderer.listeners := 0 |}.
Proof.
  intros Hsp Hd Hfind. induction n as [|n IH]; [by apply onUp_spec|].
  destruct IH as (Hl & Hp & Hc & He & Hs & Hm).
  set (e1 := Nat.iter (S n) (onUp i now) e) in *.
  change (Nat.iter (S (S n)) (onUp i now) e) with (onUp i now e1).
  assert (findNode (layout e1) i = Some r) as Hf1 by (by rewrite Hl, findNode_dragEnd).
  destruct (onUp_spec i now e1 _ r Hm eq_refl Hf1) as (Hl' & Hp' & Hc' & He' & Hs' & Hm').
  split; [|split; [|split; [|split; [|split]]]].
  - by rewrite Hl', Hl, dragEnd_twice.
  - done.
  - congruence.
  - congruence.
  - congruence.
  - exact Hm'.
Qed.

(** X16.  A press on a node's sprite, a pointer move and the release:
    while the pointer is down panning is off and, after the move, the node
    is pinned where the pointer is; after the release no click has been
    reported, the selection and the camera are as before, panning is on
    again, the energy floor is back at zero, and the node is what it was
    with its pin reset to [null]. *)
Theorem drag_gesture (e : t) (i : string) (sp : Renderer.Sprite) (r : ref)
    (px py : num) (now : Z) :
  Renderer.nodesMap (renderer e) !! i = Some sp ->
  findNode (layout e) i = Some r ->
  let moved := run e [NodeDown i; NodeMove i px py] in
  let released := run moved [NodeUp i now] in
  panEnabled moved = false
  /\ store (layout moved) = alter (setPin (fixed px) (fixed py)) r (store (layout e))
  /\ clicks released = clicks e
  /\ effects released = effects e
  /\ selection released = selection e
  /\ panEnabled released = true
  /\ store (layout released) = alter (setPin null null) r (store (layout e))
  /\ nodes (layout released) = nodes (layout e)
  /\ links (layout released) = links (layout e)
  /\ alphaTarget (simulation (layout released)) = 0%Q.
Proof.
  intros Hsp Hfind moved released.
  set (sp1 := {| Renderer.node := Renderer.node sp; Renderer.isDragging := false;
                 Renderer.listeners := S (Renderer.listeners sp) |}).
  set (down := nodePointerDown i e).
  assert (layout down = dragStart (layout e)
          /\ panEnabled down = false /\ clicks down = clicks e
          /\ effects down = effects e /\ selection down = selection e
          /\ Renderer.nodesMap (renderer down) !! i = Some sp1)
    as (Hl1 & Hp1 & Hc1 & He1 & Hs1 & Hm1).
  { destruct (nodePointerDown_spec i e sp Hsp) as (Hc & _ & _ & Hi & Hsel).
    split; [|split; [|split; [exact Hc|split; [|split; [exact Hsel|exact Hi]]]]];
      unfold down; rewrite (nodePointerDown_eq i e sp Hsp);
      unfold handleDragStart; cbv zeta; by rewrite update_frame. }
  assert (findNode (layout down) i = Some r) as Hf1.
  { by rewrite Hl1, findNode_dragStart. }
  assert (moved = Nat.iter (S (Renderer.listeners sp)) (onMove i px py) down) as Hmoved.
  { unfold moved, run. cbn [fold_left step]. fold down. unfold nodePointerMove.
    by rewrite Hm1. }
  destruct (iter_onMove i px py down sp1 r (Renderer.listeners sp) Hm1 Hf1)
    as (Hl2 & Hp2 & Hc2 & He2 & Hs2 & Hm2).
  rewrite <- Hmoved in Hl2, Hp2, Hc2, He2, Hs2, Hm2. cbn [Renderer.node Renderer.listeners sp1]
    in Hm2.
  assert (released = nodePointerUp i now moved) as Hrel by done.
  clearbody moved.
  assert (findNode (layout moved) i = Some r) as Hf2.
  { by rewrite Hl2, findNode_dragMove. }
  assert (released = Nat.iter (S (Renderer.listeners sp)) (onUp i now) moved) as Hreleased.
  { rewrite Hrel. unfold nodePointerUp. by rewrite Hm2. }
  destruct (iter_onUp i now moved _ r (Renderer.listeners sp) Hm2 eq_refl Hf2)
    as (Hl3 & Hp3 & Hc3 & He3 & Hs3 & Hm3).
  rewrite <- Hreleased in Hl3, Hp3, Hc3, He3, Hs3, Hm3.
  clearbody released.
  split; [by rewrite Hp2|]. split; [by rewrite Hl2, Hl1|].
  split; [congruence|]. split; [congruence|]. split; [congruence|].
  split; [done|]. rewrite Hl3, Hl2, Hl1.
  repeat split; try done.
  cbn. apply alter_setPin_twice.
Qed.

End DragGesture.

(** ** What a render leaves on display *)

Section RenderMore.
Context `{G : Geometry}.
Import Layout HullGenerator.

Lemma fold_addPlate plates : forall r,
  let r' := fold_left Renderer.addPlate plates r in
  Renderer.hullLayer r'
  = Renderer.hullLayer r ++ seq (Renderer.nextShape r) (List.length plates)
  /\ Renderer.nextShape r' = (Renderer.nextShape r + List.length plates)%nat
  /\ (forall k p, plates !! k = Some p ->
        Renderer.shapes r' !! (Renderer.nextShape r + k)%nat
        = Some {| Renderer.plateId := hullId p; Renderer.lastClickTime := 0 |})
  /\ (forall s, (s < Renderer.nextShape r)%nat ->
        Renderer.shapes r' !! s = Renderer.shapes r !! s)
  /\ Renderer.nodesMap r' = Renderer.nodesMap r.
Proof.
  induction plates as [|p plates IH]; intros r; cbn zeta.
  - cbn. rewrite List.app_nil_r, Nat.add_0_r. repeat split; done.
  - cbn [fold_left List.length seq]. destruct (IH (Renderer.addPlate r p))
      as (Hl & Hn & Hk & Hs & Hm). cbn zeta in *.
    cbn [Renderer.addPlate Renderer.withShapes Renderer.hullLayer Renderer.nextShape
         Renderer.shapes Renderer.nodesMap] in *.
    rewrite Hl, Hn, <- List.app_assoc. repeat split; try done.
    + lia.
    + intros [|k] q Hq; cbn in Hq.
      * injection Hq as <-. rewrite Nat.add_0_r, Hs by lia. apply lookup_insert_eq.
      * rewrite <- (Hk k q Hq). f_equal. lia.
    + intros s Hlt. rewrite Hs by lia. apply lookup_insert_ne. lia.
Qed.

Lemma fold_addSprite_layer ns : forall r,
  Renderer.hullLayer (fold_left Renderer.addSprite ns r) = Renderer.hullLayer r
  /\ Renderer.shapes (fold_left Renderer.addSprite ns r) = Renderer.shapes r
  /\ Renderer.nextShape (fold_left Renderer.addSprite ns r) = Renderer.nextShape r.
Proof.
  induction ns as [|n ns IH]; intros r; [done|]. cbn [fold_left].
  destruct (IH (Renderer.addSprite r n)) as (-> & -> & ->).
  unfold Renderer.addSprite. by destruct (Renderer.nodesMap r !! id (snd n)).
Qed.

Lemma fold_addSprite ns i : forall r,
  Renderer.nodesMap (fold_left Renderer.addSprite ns r) !! i
  = match Renderer.nodesMap r !! i with
    | Some sp => Some sp
    | None =>
        (fun n => {| Renderer.node := fst n; Renderer.isDragging := false;
                     Renderer.listeners := 0 |})
          <$> List.find (fun n => String.eqb (id (snd n)) i) ns
    end.
Proof.
  induction ns as [|n ns IH]; intros r.
  - cbn. by destruct (Renderer.nodesMap r !! i).
  - cbn [fold_left List.find]. rewrite IH. unfold Renderer.addSprite.
    destruct (String.eqb_spec (id (snd n)) i) as [Heq|Hne].
    + rewrite Heq. destruct (Renderer.nodesMap r !! i) as [sp|] eqn:Hsp.
      * by rewrite Hsp.
      * cbn. by rewrite lookup_insert_eq.
    + destruct (Renderer.nodesMap r !! id (snd n)); [done|].
      cbn. by rewrite lookup_insert_ne.
Qed.

(** Whether [render] draws the plates: under a landmass whose path is
    not empty. *)
Lemma render_layer r ns ps lm :
  let r' := Renderer.render r ns ps lm in
  let drawn := match lm with
               | Some l => Nat.ltb 0 (List.length (path l))
               | None => false
               end in
  Renderer.hullLayer r'
  = (if drawn then seq (Renderer.nextShape r) (List.length ps) else [])
  /\ (drawn = true ->
      forall k p, ps !! k = Some p ->
        Renderer.shapes r' !! (Renderer.nextShape r + k)%nat
        = Some {| Renderer.plateId := hullId p; Renderer.lastClickTime := 0 |}).
Proof.
  cbn zeta. unfold Renderer.render.
  destruct (fold_addSprite_layer ns
              (match lm with
               | Some lm0 =>
                   if Nat.ltb 0 (List.length (path lm0))
                   then fold_left Renderer.addPlate ps
                          (Renderer.withShapes (Renderer.shapes r) (Renderer.nextShape r) [] r)
                   else Renderer.withShapes (Renderer.shapes r) (Renderer.nextShape r) [] r
               | None => Renderer.withShapes (Renderer.shapes r) (Renderer.nextShape r) [] r
               end)) as (-> & -> & _).
  destruct (fold_addPlate ps
              (Renderer.withShapes (Renderer.shapes r) (Renderer.nextShape r) [] r))
    as (Hl & _ & Hk & _). cbn zeta in *.
  destruct lm as [l|]; [|done].
  destruct (Nat.ltb 0 (List.length (path l))); [|done].
  split; [exact Hl|]. intros _. exact Hk.
Qed.

(** X17.  Every render takes the plate shapes off display and, under a
    landmass with a path that is not empty, puts new ones there, one per
    plate in order, each with the plate's id and a click stamp of zero;
    without such a landmass no plate is on display.  The new shapes are
    different from one another and from every shape made before. *)
Theorem render_plates (r : Renderer.t) (nodes : list (ref * GraphNode))
    (plates : list Hull) (landmass : option Hull) :
  let r' := Renderer.render r nodes plates landmass in
  let drawn := match landmass with
               | Some l => Nat.ltb 0 (List.length (path l))
               | None => false
               end in
  map (fun s => Renderer.shapes r' !! s) (Renderer.hullLayer r')
  = (if drawn
     then map (fun p => Some {| Renderer.plateId := hullId p;
                                Renderer.lastClickTime := 0 |}) plates
     else [])
  /\ NoDup (Renderer.hullLayer r')
  /\ Forall (fun s => (Renderer.nextShape r <= s)%nat) (Renderer.hullLayer r').
Proof.
  cbn zeta. destruct (render_layer r nodes plates landmass) as [Hl Hk]. cbn zeta in *.
  rewrite Hl. destruct (match landmass with Some _ => _ | None => _ end).
  - split; [|split].
    + apply list_eq. intros k. rewrite !list_lookup_fmap.
      destruct (plates !! k) as [p|] eqn:Hp.
      * rewrite lookup_seq_lt by (by eapply lookup_lt_Some). cbn. f_equal. by apply Hk.
      * rewrite lookup_seq_ge by (by apply lookup_ge_None). done.
    + apply NoDup_seq.
    + apply Forall_forall. intros s Hs%elem_of_seq. lia.
  - split; [done|]. split; constructor.
Qed.

(** X18.  A sprite is made for a node id the first time a render meets
    it, around the node object met then, and is kept from then on: a later
    render neither replaces nor removes it, whatever nodes it is given. *)
Theorem render_sprites (r : Renderer.t) (nodes : list (ref * GraphNode))
    (plates : list Hull) (landmass : option Hull) (i : string) :
  Renderer.nodesMap (Renderer.render r nodes plates landmass) !! i
  = match Renderer.nodesMap r !! i with
    | Some sp => Some sp
    | None =>
        (fun n => {| Renderer.node := fst n; Renderer.isDragging := false;
                     Renderer.listeners := 0 |})
          <$> List.find (fun n => String.eqb (id (snd n)) i) nodes
    end.
Proof.
  unfold Renderer.render. rewrite fold_addSprite.
  destruct (fold_addPlate plates
              (Renderer.withShapes (Renderer.shapes r) (Renderer.nextShape r) [] r))
    as (_ & _ & _ & _ & Hm). cbn zeta in Hm.
  destruct landmass as [l|]; [|done].
  destruct (Nat.ltb 0 (List.length (path l))); [|done]. by rewrite Hm.
Qed.

End RenderMore.

(** ** Plates and the landmass *)

Section PlateMore.
Context `{G : Geometry}.
Import Layout HullGenerator GraphEngine Listeners.

(** X19.  The first press on a plate after a render is a single click:
    the render has replaced the shape and with it the time of the last
    press, so a double click on a plate takes two presses between two
    renders. *)
Theorem plate_press_after_render (e : t) (shape : ref) (now : Z) :
  isRunning e = true ->
  300 <= now ->
  shape ∈ Renderer.hullLayer (renderer (update e)) ->
  let e' := platePointerDown shape now (update e) in
  exists p,
    p ∈ snd (computeLandforms (getNodes (layout e)) (getColor e))
    /\ clicks e' = clicks e ++ [onClickHull (hullId p) 1]
    /\ selection e' = selection e.
Proof.
  intros Hrun Hnow Hin. cbn zeta.
  assert (renderer (update e)
          = Renderer.render (renderer e) (getNodeRefs (layout e))
              (snd (computeLandforms (getNodes (layout e)) (getColor e)))
              (fst (computeLandforms (getNodes (layout e)) (getColor e)))) as Hr.
  { unfold update. by rewrite Hrun. }
  set (plates := snd (computeLandforms (getNodes (layout e)) (getColor e))) in *.
  destruct (render_layer (renderer e) (getNodeRefs (layout e)) plates
              (fst (computeLandforms (getNodes (layout e)) (getColor e)))) as [Hl Hk].
  cbn zeta in Hl, Hk. rewrite <- Hr in Hl, Hk.
  pose proof Hin as Hin'. rewrite Hl in Hin'.
  destruct (match fst (computeLandforms (getNodes (layout e)) (getColor e)) with
            | Some l => Nat.ltb 0 (List.length (path l))
            | None => false
            end); [|by apply elem_of_nil in Hin'].
  apply elem_of_seq in Hin' as [Hlo Hhi].
  destruct (lookup_lt_is_Some_2 plates (shape - Renderer.nextShape (renderer e))%nat)
    as [p Hp]; [lia|].
  specialize (Hk eq_refl _ _ Hp).
  replace (Renderer.nextShape (renderer e) + (shape - Renderer.nextShape (renderer e)))%nat
    with shape in Hk by lia.
  destruct (plate_press shape now (update e) _ Hin Hk) as [Hc Hs]. cbn zeta in Hc, Hs.
  cbn [Renderer.plateId Renderer.lastClickTime] in Hc, Hs.
  assert (Renderer.clickCount 0 now = 1) as Hcount.
  { unfold Renderer.clickCount. destruct (Z.ltb_spec (now - 0) 300); [lia|done]. }
  rewrite Hcount in Hc, Hs. exists p. split; [by eapply list_elem_of_lookup_2|].
  split.
  - by rewrite Hc, update_clicks.
  - destruct (Hs eq_refl) as [-> _]. apply selection_update.
Qed.

(** X20.  [polygonHull] answers [null] only to fewer than three points;
    given that, [computeLandforms] returns a landmass exactly when it is
    given three nodes or more: the hull of four points around each node,
    80 to each side, under the id [global_landmass]. *)
Theorem computeLandforms_landmass (nodes : list GraphNode) (colorFn : string -> string) :
  (forall points, polygonHull points = None -> (List.length points < 3)%nat) ->
  List.length (flat_map padded nodes) = (4 * List.length nodes)%nat
  /\ ((List.length nodes < 3)%nat -> fst (computeLandforms nodes colorFn) = None)
  /\ ((3 <= List.length nodes)%nat ->
      exists landPoly,
        polygonHull (flat_map padded nodes) = Some landPoly
        /\ fst (computeLandforms nodes colorFn)
           = Some {| hullId := "global_landmass"; path := landPoly;
                     color := "#111111"; type := landmass |}).
Proof.
  intros Hhull.
  assert (List.length (flat_map padded nodes) = (4 * List.length nodes)%nat) as Hlen.
  { induction nodes as [|n nodes IH]; [done|]. cbn [flat_map List.length].
    rewrite List.length_app, IH. cbn. lia. }
  split; [exact Hlen|]. unfold computeLandforms. split.
  - intros Hlt. by apply Nat.ltb_lt in Hlt as ->.
  - intros Hge. apply Nat.ltb_ge in Hge as Hge'. rewrite Hge'. cbn [fst].
    unfold landmassOf.
    destruct (polygonHull (flat_map padded nodes)) as [landPoly|] eqn:Hp.
    + by exists landPoly.
    + apply Hhull in Hp. lia.
Qed.

End PlateMore.

(** ** What the patterns of Go capture *)

Section GoImports.
Import Regex RegexParser.

Lemma quote_case c : oneOf quote c = true -> c = ascii_of_N 34.
Proof.
  unfold oneOf, quote. cbn [list_ascii_of_string existsb].
  destruct (Ascii.eqb_spec c (ascii_of_N 34)) as [->|_]; done.
Qed.

Lemma quoteRegex_sound pos s pos' cs :
  matchAt quoteRegex pos s = Some (pos', cs) ->
  exists body post,
    s = ascii_of_N 34 :: body ++ ascii_of_N 34 :: post
    /\ Forall (fun c => isDot c = true) body
    /\ cs = [(1%nat, body)].
Proof.
  unfold matchAt, quoteRegex. intros Hm.
  apply matchRe_Seq_sound in Hm as (w & s1 & -> & (q1 & -> & Hq1) & Hm); [|done].
  rewrite matchRe_Seq in Hm.
  apply (matchRe_Grp_sound 1 (Star false (Cls isDot))) in Hm
    as (body & s2 & -> & Hbody & Hm); [|done].
  apply lang_Star_Cls in Hbody.
  apply matchRe_sound in Hm as (w4 & post & cs4 & -> & (q2 & -> & Hq2) & Hcs & [= _ <-]).
  rewrite Hcs by done. apply quote_case in Hq1 as ->. apply quote_case in Hq2 as ->.
  by exists body, post.
Qed.

Lemma singleLine_sound pos s pos' cs :
  matchAt singleLine pos s = Some (pos', cs) ->
  exists ws body post,
    s = list_ascii_of_string "import" ++ ws ++ ascii_of_N 34 :: body ++ ascii_of_N 34 :: post
    /\ ws <> [] /\ Forall (fun c => isSpace c = true) ws
    /\ Forall (fun c => isDot c = true) body
    /\ cs = [(1%nat, body)].
Proof.
  unfold matchAt, singleLine. intros Hm.
  apply matchRe_Seq_sound in Hm as (w0 & s0 & -> & Hw0 & Hm); [|apply hasGroup_Lit].
  apply lang_Lit in Hw0 as ->; [|done].
  apply matchRe_Seq_sound in Hm as (ws & s1 & -> & Hws & Hm); [|done].
  apply lang_Plus_Cls in Hws as [Hne Hws].
  apply quoteRegex_sound in Hm as (body & post & -> & Hbody & ->).
  by exists ws, body, post.
Qed.

Lemma blockRegex_sound pos s pos' cs :
  matchAt blockRegex pos s = Some (pos', cs) ->
  exists ws blockContent post,
    s = list_ascii_of_string "import" ++ ws ++ "("%char :: blockContent ++ ")"%char :: post
    /\ ws <> [] /\ Forall (fun c => isSpace c = true) ws
    /\ cs = [(1%nat, blockContent)].
Proof.
  unfold matchAt, blockRegex. intros Hm.
  apply matchRe_Seq_sound in Hm as (w0 & s0 & -> & Hw0 & Hm); [|apply hasGroup_Lit].
  apply lang_Lit in Hw0 as ->; [|done].
  apply matchRe_Seq_sound in Hm as (ws & s1 & -> & Hws & Hm); [|done].
  apply lang_Plus_Cls in Hws as [Hne Hws].
  apply matchRe_Seq_sound in Hm as (w2 & s2 & -> & Hw2 & Hm); [|done].
  cbn in Hw2. subst w2. rewrite matchRe_Seq in Hm.
  apply (matchRe_Grp_sound 1 (Star false (Cls anyChar))) in Hm
    as (blockContent & s3 & -> & _ & Hm); [|done].
  apply matchRe_sound in Hm as (w4 & post & cs4 & -> & Hw4 & Hcs & [= _ <-]).
  cbn in Hw4. subst w4. rewrite Hcs by done.
  by exists ws, blockContent, post.
Qed.

Lemma exec_quoteRegex_sound line cs :
  exec quoteRegex line = Some cs ->
  exists before body after,
    line = before ++ ascii_of_N 34 :: body ++ ascii_of_N 34 :: after
    /\ Forall (fun c => isDot c = true) body
    /\ cs = [(1%nat, body)].
Proof.
  unfold exec. destruct (search quoteRegex 0 line) as [[j cs']|] eqn:Hs; [|done].
  intros [= <-]. apply search_sound in Hs as (n & _ & Hm).
  apply quoteRegex_sound in Hm as (body & after & Hline & Hbody & ->).
  exists (firstn n line), body, after. by rewrite <- Hline, firstn_skipn.
Qed.

(** X21.  Every import reported for a Go text is in the text between two
    double quotes, with no line terminator in it: after [import] and white
    space, or on a line of a block [import ( ... )]. *)
Theorem parseImports_go_sound (content : string) (imports : list string)
    (imported : string) :
  parseImports content "go" = Resolved imports ->
  imported ∈ imports ->
  Forall (fun c => isDot c = true) (list_ascii_of_string imported)
  /\ goImport (list_ascii_of_string content) (list_ascii_of_string imported).
Proof.
  intros Hparse Hin. unfold parseImports in Hparse. cbv zeta in Hparse.
  change (String.eqb "go" "go") with true in Hparse. cbv iota in Hparse. revert Hparse.
  generalize (S (List.length (list_ascii_of_string content))) as fuel.
  intros fuel [= <-]. revert imported Hin. apply Forall_forall.
  set (P := fun imported : string =>
              Forall (fun c => isDot c = true) (list_ascii_of_string imported)
              /\ goImport (list_ascii_of_string content) (list_ascii_of_string imported)).
  assert (forall body imports,
            Forall (fun c => isDot c = true) body ->
            goImport (list_ascii_of_string content) body ->
            Forall P imports ->
            Forall P (addGroup1 [(1%nat, body)] imports)) as Hadd.
  { intros body imports Hdot Himp Himports. unfold addGroup1. cbn.
    unfold JS.setAdd. case_bool_decide; [done|].
    apply Forall_app_2; [done|]. apply Forall_singleton.
    unfold P. by rewrite list_ascii_of_string_of_list_ascii. }
  apply (execAll_invariant_search (Forall P)).
  { intros i j cs st Hs Hst.
    apply search_split in Hs as (pre & s & pos & Htext & Hm).
    apply blockRegex_sound in Hm as (ws & blockContent & post & -> & Hne & Hws & ->).
    unfold addBlock. cbn [capture List.find fst snd Nat.eqb fmap option_fmap option_map].
    assert (forall line, line ∈ split (ascii_of_N 10) blockContent ->
              line ∈ split (ascii_of_N 10) blockContent) as Hlines by done.
    revert Hlines. generalize (split (ascii_of_N 10) blockContent) at 1 3 as lines.
    intros lines. revert st Hst.
    induction lines as [|line lines IH]; intros st Hst Hlines; [done|].
    cbn [fold_left]. apply IH; [|intros l Hl; apply Hlines; by right].
    destruct (exec quoteRegex line) as [cs|] eqn:Hexec; [|done].
    apply exec_quoteRegex_sound in Hexec as (before & body & after & Hline & Hbody & ->).
    apply Hadd; [done| |done].
    exists pre, ws, post. split; [done|]. split; [done|]. right.
    exists blockContent, line, before, after. split; [done|].
    split; [apply Hlines; by left|done]. }
  apply (execAll_invariant_search (Forall P)); [|constructor].
  intros i j cs st Hs Hst.
  apply search_split in Hs as (pre & s & pos & Htext & Hm).
  apply singleLine_sound in Hm as (ws & body & post & -> & Hne & Hws & Hbody & ->).
  apply Hadd; [done| |done].
  exists pre, ws, post. split; [done|]. split; [done|]. by left.
Qed.

End GoImports.

(** ** Plates have members *)

Section PlateMembers.
Context `{G : Geometry}.
Import Layout HullGenerator GraphEngine Listeners.

Lemma plate_members nodes colorFn p :
  p ∈ snd (computeLandforms nodes colorFn) ->
  members (hullId p) nodes <> [] /\ JS.inherited (hullId p) = false.
Proof.
  unfold computeLandforms. destruct (Nat.ltb (List.length nodes) 3).
  { by intros ?%elem_of_nil. }
  cbn [snd]. intros (i & c & cell & Hc & _ & ->)%platesOf_elem. cbn [hullId].
  apply list_elem_of_lookup_2 in Hc.
  apply list_elem_of_fmap in Hc as (entry & -> & Hentry). cbn [dir centroidOf].
  rewrite entries_Permutation, clusterMapOf_spec in Hentry.
  apply list_elem_of_fmap in Hentry as (k & -> & Hk). cbn [fst].
  apply keysOf_spec in Hk as [Hk Hin]. split; [|done].
  apply list_elem_of_fmap in Hk as (n & -> & Hn).
  intros Hnil. assert (n ∈ members (directoryOrRoot n) nodes) as Hmem.
  { unfold members. by apply list_elem_of_filter. }
  rewrite Hnil in Hmem. by apply elem_of_nil in Hmem.
Qed.

Lemma update_effects e : effects (update e) = effects e.
Proof. unfold update. by destruct (negb (isRunning e)). Qed.

Lemma update_listener e : onSelectionChange (update e) = onSelectionChange e.
Proof. unfold update. by destruct (negb (isRunning e)). Qed.

(** X22.  Every plate is the plate of at least one node: its id is the
    directory, or [root], of a node given to [computeLandforms].  So a
    double click on a plate always sends the camera to the average position
    of one node or more, and tells the listener how many they are. *)
Theorem plate_double_click_focus (e : t) (p : Hull) :
  p ∈ snd (computeLandforms (getNodes (layout e)) (getColor e)) ->
  let ms := members (hullId p) (getNodes (layout e)) in
  ms <> []
  /\ JS.inherited (hullId p) = false
  /\ effects (handleHullClick (hullId p) 2 e)
     = effects e
       ++ smoothLookAt (Some (average x ms)) (Some (average y ms)) (3 # 2)
          :: (if onSelectionChange e
              then [clusterSelected (hullId p) (List.length ms)] else []).
Proof.
  intros Hp ms. destruct (plate_members _ _ _ Hp) as [Hms Hin].
  split; [done|]. split; [done|].
  unfold handleHullClick. cbn [Z.eqb Pos.eqb]. cbv zeta.
  set (e1 := update _).
  assert (layout e1 = layout e) as Hl by (unfold e1; by rewrite update_layout).
  assert (effects e1 = effects e) as He by (unfold e1; by rewrite update_effects).
  assert (onSelectionChange e1 = onSelectionChange e) as Ho
    by (unfold e1; by rewrite update_listener).
  rewrite Hl. fold (members (hullId p) (getNodes (layout e))). fold ms.
  destruct ms as [|m ms'] eqn:Hms'; [done|]. cbn [List.length Nat.ltb Nat.leb].
  unfold notify. cbn [onSelectionChange effect]. rewrite Ho.
  destruct (onSelectionChange e); cbn [effects effect]; rewrite He.
  - by rewrite <- List.app_assoc.
  - done.
Qed.

End PlateMembers.

(** ** Drags on the layout *)

Section LayoutMore.
Context `{N : JSNumber}.
Import Layout.

Lemma alter_setPin_setPin a b c d r (st : gmap ref GraphNode) :
  alter (setPin a b) r (alter (setPin c d) r st) = alter (setPin a b) r st.
Proof. rewrite alter_alter_eq. apply alter_ext. by intros [] _. Qed.

(** X23.  Moves and the end of a drag compose: of two moves of a node
    the later one stands; ending the drag after any move leaves what ending
    it at once leaves; starting a drag touches no node, so it may come
    before or after a move; and a node that is not in the layout is neither
    pinned nor released. *)
Theorem drag_composition (l : Layout.t) (node : ref) (px py qx qy : num) :
  dragMove (dragMove l node px py) node qx qy = dragMove l node qx qy
  /\ dragEnd (dragMove l node px py) node = dragEnd l node
  /\ dragMove (dragStart l) node px py = dragStart (dragMove l node px py)
  /\ simulation (dragEnd (dragStart l) node) = {| alphaTarget := 0; running := true |}
  /\ (store l !! node = None ->
      store (dragMove l node px py) = store l /\ store (dragEnd l node) = store l).
Proof.
  split; [|split; [|split; [|split]]].
  - unfold dragMove, withStore. cbn. by rewrite alter_setPin_setPin.
  - unfold dragEnd, dragMove, withStore, withSimulation. cbn.
    by rewrite alter_setPin_setPin.
  - done.
  - done.
  - intros Hnone. split; cbn; apply map_eq; intros r;
      (destruct (decide (r = node)) as [->|Hne];
       [by rewrite lookup_alter_eq, Hnone|by rewrite lookup_alter_ne]).
Qed.

End LayoutMore.

(** ** The fill colour of a plate *)

Section PlateFill.
Context `{G : Geometry}.
Import Layout HullGenerator.

Lemma digit16_upper c :
  Color.isLowerHex c = true ->
  Renderer.digit16 (JS.upperChar c) = Some (JS.hexDigitValue c).
Proof.
  destruct c as [[] [] [] [] [] [] [] []]; vm_compute; intros Hc; try reflexivity;
    discriminate.
Qed.

Lemma digits16_upper ds : forall acc seen,
  forallb Color.isLowerHex ds = true ->
  Renderer.digits16 (map JS.upperChar ds) acc seen
  = if seen || negb (Nat.eqb (List.length ds) 0)
    then Some (fold_left (fun v c => 16 * v + JS.hexDigitValue c) ds acc)
    else None.
Proof.
  induction ds as [|d ds IH]; intros acc seen Hds.
  - cbn. by destruct seen.
  - cbn in Hds. apply andb_true_iff in Hds as [Hd Hds].
    cbn [map Renderer.digits16]. rewrite digit16_upper by done.
    rewrite IH by done. cbn. by rewrite orb_true_r.
Qed.

Lemma digits16_zeros k : forall cs,
  Renderer.digits16 (repeat "0"%char k ++ cs) 0 true = Renderer.digits16 cs 0 true.
Proof. induction k as [|k IH]; intros cs; [done|]. cbn. apply IH. Qed.

Lemma plateFill_hexColor h :
  Renderer.plateFill (Color.hexColor h) = Some (JS.band h 16777215).
Proof.
  unfold Renderer.plateFill, Color.hexColor.
  pose proof (band_mask_range h) as Hv.
  set (v := JS.band h 16777215) in *.
  assert (JS.hexValue (list_ascii_of_string (JS.toString16 v)) = v) as Hvalue
    by (apply toString16_value; lia).
  revert Hvalue. unfold JS.toString16.
  destruct (v <? 0) eqn:E; [apply Z.ltb_lt in E; lia|].
  rewrite toUpperCase_list, list_ascii_of_string_of_list_ascii.
  set (ds := JS.hexDigits _ v). intros Hvalue.
  assert (1 <= List.length ds <= 6)%nat as Hlen.
  { apply (hexDigits_length _ v 5). change (16 ^ Z.of_nat 6) with (2 ^ 24). exact Hv. }
  assert (forallb Color.isLowerHex ds = true) as Hhex by (apply hexDigits_lower; lia).
  cbv zeta. rewrite padded_chars by (by rewrite length_map).
  cbn [Renderer.replaceHash Ascii.eqb Bool.eqb]. cbv iota.
  unfold Renderer.parseInt16. cbn [Renderer.skipSpaces]. cbv zeta.
  change (Regex.isSpace "0") with false. cbv iota.
  cbn [Ascii.eqb Bool.eqb fst snd andb orb]. cbv iota.
  destruct (6 - List.length (map JS.upperChar ds))%nat as [|k] eqn:Hk.
  - cbn [repeat app]. rewrite digits16_upper by done.
    destruct ds as [|d ds']; [cbn in Hlen; lia|]. cbn [List.length Nat.eqb negb orb].
    fold (JS.hexValue (d :: ds')). rewrite Hvalue. cbn. f_equal. lia.
  - cbn [repeat app Renderer.digits16]. change (Renderer.digit16 "0") with (Some 0).
    cbv iota. change (16 * 0 + 0) with 0. rewrite digits16_zeros.
    rewrite digits16_upper by done. cbn [orb].
    fold (JS.hexValue ds). rewrite Hvalue. cbn. f_equal. lia.
Qed.

(** X24.  The colour string of a plate always parses as the renderer
    parses it, [#] replaced by [0x] and read in radix 16, never to [NaN]:
    the fill colour of the plate of a directory is the low 24 bits of the
    hash of its name. *)
Theorem plate_fill_color (e : GraphEngine.t) (nodes : list GraphNode) (p : Hull) :
  p ∈ snd (computeLandforms nodes (GraphEngine.getColor e)) ->
  let fill := JS.band (Color.hashOf (JS.charCodes (hullId p))) 16777215 in
  Renderer.plateFill (color p) = Some fill /\ 0 <= fill < 2 ^ 24.
Proof.
  intros Hp fill. rewrite (computeLandforms_color _ _ _ Hp).
  split; [apply plateFill_hexColor|apply band_mask_range].
Qed.

End PlateFill.

(** ** Panning *)

Section PanFacts.
Context `{N : JSNumber}.
Import InputManager.

Lemma pan_off_step m ev :
  isPanEnabled m = false -> isDragging m = false -> keepsPanOff ev = true ->
  isPanEnabled (step m ev) = false /\ isDragging (step m ev) = false
  /\ pans (step m ev) = pans m.
Proof.
  intros Hp Hd Hev. destruct ev as [enabled|onCanvas cx cy|cx cy|]; cbn in *.
  - apply negb_true_iff in Hev as ->. done.
  - unfold handleDown. destruct onCanvas; cbn; [|done]. by rewrite Hp.
  - unfold handleMove. by rewrite Hd.
  - done.
Qed.

Lemma pan_off_run events : forall m,
  isPanEnabled m = false -> isDragging m = false ->
  forallb keepsPanOff events = true ->
  pans (run m events) = pans m.
Proof.
  induction events as [|ev events IH]; intros m Hp Hd Hevs; [done|].
  cbn in Hevs. apply andb_true_iff in Hevs as [Hev Hevs].
  destruct (pan_off_step m ev Hp Hd Hev) as (Hp' & Hd' & Hpans).
  cbn [run fold_left]. fold (run (step m ev) events). by rewrite IH.
Qed.

(** X25.  Once panning is switched off, as the engine does when a node
    drag starts, no pointer event pans the view until it is switched on
    again: whatever came before, and whatever presses, moves and releases
    follow, [onPan] is not called.  While panning is on, a press on the
    canvas and a move call [onPan] with the difference of the two pointer
    positions. *)
Theorem pan_disabled_no_pan (m : t) (events : list Event) :
  forallb keepsPanOff events = true ->
  pans (run (setPanEnabled false m) events) = pans m
  /\ isDragging (run (setPanEnabled false m) events) = false
  /\ (forall ax ay bx by_,
        pans (run (setPanEnabled true m) [Down true ax ay; Move bx by_])
        = pans m ++ [(sub bx ax, sub by_ ay)]).
Proof.
  intros Hevs. split; [|split].
  3: done.
  - by rewrite pan_off_run.
  - revert Hevs. generalize (eq_refl : isPanEnabled (setPanEnabled false m) = false).
    generalize (eq_refl : isDragging (setPanEnabled false m) = false).
    generalize (setPanEnabled false m) as m0. clear m.
    induction events as [|ev events IH]; intros m0 Hd Hp Hevs; [done|].
    cbn in Hevs. apply andb_true_iff in Hevs as [Hev Hevs].
    destruct (pan_off_step m0 ev Hp Hd Hev) as (Hp' & Hd' & _).
    cbn [run fold_left]. by apply IH.
Qed.

End PanFacts.

(** ** A drag on the background *)

Section StageDrag.
Context `{G : Geometry}.
Import Layout HullGenerator GraphEngine Listeners.

(** X27.  A press on the stage followed by a release five pixels away or
    more, or by a release that is not on the stage, is a pan and not a
    click: nothing is reported, the selection and the time of the last
    stage click are as before, and the press is forgotten.  So is a release
    that no press on the stage came before. *)
Theorem stage_drag_is_no_click (e : t) (down pos : point) (onStage : bool) (now : Z) :
  ltb (hypot (sub (fst pos) (fst down)) (sub (snd pos) (snd down))) (ofZ 5) = false
  \/ onStage = false ->
  let e' := run e [StageDown true down; StageUp onStage pos now] in
  clicks e' = clicks e
  /\ effects e' = effects e
  /\ selection e' = selection e
  /\ Renderer.lastStageClickTime (renderer e') = Renderer.lastStageClickTime (renderer e)
  /\ Renderer.stageDownPos (renderer e') = None
  /\ (Renderer.stageDownPos (renderer e) = None ->
      forall onStage' pos' now',
        clicks (run e [StageUp onStage' pos' now']) = clicks e
        /\ selection (run e [StageUp onStage' pos' now']) = selection e).
Proof.
  intros Hfar. cbn zeta. unfold run. cbn [fold_left step].
  split; [|split; [|split; [|split; [|split]]]].
  6:{ intros Hnone onStage' pos' now'. unfold stagePointerUp. by rewrite Hnone. }
  all: unfold stagePointerUp, stagePointerDown;
    cbn [renderer withRenderer Renderer.stageDownPos Renderer.withStage];
    destruct onStage; [|done];
    destruct Hfar as [Hfar|Hfar]; [|done];
    by rewrite Hfar.
Qed.

End StageDrag.

(** ** What the patterns of Python and Java capture *)

Section WordImports.
Import Regex RegexParser.

Lemma search_split_start r i text j cs :
  search r i (skipn i text) = Some (j, cs) ->
  exists pre s pos, text = pre ++ s /\ matchAt r pos s = Some (j, cs)
                    /\ (pos = 0%nat -> pre = []).
Proof.
  intros Hs. apply search_sound in Hs as (n & Hn & Hm).
  exists (firstn (n + i) text), (skipn (n + i) text), (i + n)%nat.
  rewrite firstn_skipn. split; [done|]. rewrite skipn_skipn in Hm. split; [done|].
  intros Hz. assert (n + i = 0)%nat as -> by lia. done.
Qed.

Lemma pythonRegex_sound pos s pos' cs :
  matchAt pythonRegex pos s = Some (pos', cs) ->
  exists lead keyword ws body post,
    s = lead ++ list_ascii_of_string keyword ++ ws ++ body ++ post
    /\ (lead = [] /\ pos = 0%nat \/ exists c, lead = [c] /\ isSpace c = true)
    /\ (keyword = "from" \/ keyword = "import")
    /\ ws <> [] /\ Forall (fun c => isSpace c = true) ws
    /\ body <> [] /\ Forall (fun c => isWord c || oneOf "." c = true) body
    /\ cs = [(1%nat, body)].
Proof.
  unfold matchAt, pythonRegex. intros Hm. rewrite matchRe_Seq in Hm.
  set (k := fun pos' s' cs' => matchRe _ pos' s' cs' _) in Hm.
  assert (exists lead s1,
            s = lead ++ s1
            /\ (lead = [] /\ pos = 0%nat \/ exists c, lead = [c] /\ isSpace c = true)
            /\ k (pos + List.length lead)%nat s1 [] = Some (pos', cs))
    as (lead & s1 & -> & Hlead & Hk).
  { cbn [matchRe] in Hm. destruct (Nat.eqb_spec pos 0) as [->|Hpos].
    - destruct (k 0%nat s []) as [a|] eqn:Hk0.
      + injection Hm as ->. exists [], s. split; [done|]. split; [by left|done].
      + destruct s as [|c s1]; [done|]. destruct (isSpace c) eqn:Hc; [|done].
        exists [c], s1. split; [done|]. split; [right; by exists c|done].
    - destruct s as [|c s1]; [done|]. destruct (isSpace c) eqn:Hc; [|done].
      exists [c], s1. split; [done|]. split; [right; by exists c|].
      by rewrite Nat.add_1_r. }
  subst k. cbv beta in Hk.
  apply matchRe_Seq_sound in Hk as (kw & s2 & -> & Hkw & Hk);
    [|reflexivity].
  apply matchRe_Seq_sound in Hk as (ws & s3 & -> & Hws & Hk); [|done].
  apply lang_Plus_Cls in Hws as [Hne Hws].
  apply (matchRe_Grp_sound 1 (Plus true (Cls (fun c => isWord c || oneOf "." c)))) in Hk
    as (body & post & -> & Hbody & [= _ <-]); [|done].
  apply lang_Plus_Cls in Hbody as [Hbne Hbody].
  destruct Hkw as [Hkw|Hkw]; apply lang_Lit in Hkw as ->; try done.
  - exists lead, "from", ws, body, post. repeat split; try done. by left.
  - exists lead, "import", ws, body, post. repeat split; try done. by right.
Qed.

Lemma javaRegex_sound pos s pos' cs :
  matchAt javaRegex pos s = Some (pos', cs) ->
  exists ws body post,
    s = list_ascii_of_string "import" ++ ws ++ body ++ ";"%char :: post
    /\ ws <> [] /\ Forall (fun c => isSpace c = true) ws
    /\ body <> [] /\ Forall (fun c => isWord c || oneOf "." c = true) body
    /\ cs = [(1%nat, body)].
Proof.
  unfold matchAt, javaRegex. intros Hm.
  apply matchRe_Seq_sound in Hm as (w0 & s0 & -> & Hw0 & Hm); [|apply hasGroup_Lit].
  apply lang_Lit in Hw0 as ->; [|done].
  apply matchRe_Seq_sound in Hm as (ws & s1 & -> & Hws & Hm); [|done].
  apply lang_Plus_Cls in Hws as [Hne Hws].
  rewrite matchRe_Seq in Hm.
  apply (matchRe_Grp_sound 1 (Plus true (Cls (fun c => isWord c || oneOf "." c)))) in Hm
    as (body & s2 & -> & Hbody & Hm); [|done].
  apply lang_Plus_Cls in Hbody as [Hbne Hbody].
  apply matchRe_sound in Hm as (w3 & post & cs3 & -> & Hw3 & Hcs & [= _ <-]).
  cbn in Hw3. subst w3. rewrite Hcs by done.
  by exists ws, body, post.
Qed.

(** X28.  Every import reported for a Python text is a run of word
    characters and dots, not empty, that stands in the text after [from] or
    [import] and white space, the keyword being at the start of the text or
    after a white space character; every import reported for a Java text is
    such a run between [import] with white space and a semicolon. *)
Theorem parseImports_word_sound (content : string) (imports : list string)
    (imported : string) :
  imported ∈ imports ->
  let word := fun c => isWord c || oneOf "." c = true in
  (parseImports content "python" = Resolved imports ->
   imported <> "" /\ Forall word (list_ascii_of_string imported)
   /\ pythonImport (list_ascii_of_string content) (list_ascii_of_string imported))
  /\ (parseImports content "java" = Resolved imports ->
      imported <> "" /\ Forall word (list_ascii_of_string imported)
      /\ javaImport (list_ascii_of_string content) (list_ascii_of_string imported)).
Proof.
  intros Hin word. split.
  - unfold parseImports. cbv zeta.
    change (String.eqb "python" "go") with false.
    change (regexes "python") with (Some pythonRegex).
    change (isJsTs "python") with false. cbv iota.
    generalize (S (List.length (list_ascii_of_string content))) as fuel.
    intros fuel [= <-]. revert imported Hin. apply Forall_forall.
    apply (execAll_invariant_search
             (Forall (fun imported : string =>
                        imported <> "" /\ Forall word (list_ascii_of_string imported)
                        /\ pythonImport (list_ascii_of_string content)
                                        (list_ascii_of_string imported))));
      [|constructor].
    intros i j cs st Hs Hst.
    apply search_split_start in Hs as (pre & s & pos & Htext & Hm & Hpos).
    apply pythonRegex_sound in Hm
      as (lead & keyword & ws & body & post & -> & Hlead & Hkw & Hne & Hws & Hbne & Hbody & ->).
    apply addGroup1IfTruthy_jsImport; [|done]. intros _.
    rewrite list_ascii_of_string_of_list_ascii.
    split; [by destruct body|]. split; [done|].
    exists (pre ++ lead), keyword, ws, post.
    split; [|split; [done|split; [done|split; [done|]]]].
    + destruct Hlead as [[-> Hz]|(c & -> & Hc)].
      * left. by rewrite (Hpos Hz).
      * right. by exists pre, c.
    + by rewrite Htext, <- List.app_assoc.
  - unfold parseImports. cbv zeta.
    change (String.eqb "java" "go") with false.
    change (regexes "java") with (Some javaRegex).
    change (isJsTs "java") with false. cbv iota.
    generalize (S (List.length (list_ascii_of_string content))) as fuel.
    intros fuel [= <-]. revert imported Hin. apply Forall_forall.
    apply (execAll_invariant_search
             (Forall (fun imported : string =>
                        imported <> "" /\ Forall word (list_ascii_of_string imported)
                        /\ javaImport (list_ascii_of_string content)
                                      (list_ascii_of_string imported))));
      [|constructor].
    intros i j cs st Hs Hst.
    apply search_split in Hs as (pre & s & pos & Htext & Hm).
    apply javaRegex_sound in Hm as (ws & body & post & -> & Hne & Hws & Hbne & Hbody & ->).
    apply addGroup1IfTruthy_jsImport; [|done]. intros _.
    rewrite list_ascii_of_string_of_list_ascii.
    split; [by destruct body|]. split; [done|].
    exists pre, ws, post. by rewrite Htext.
Qed.

End WordImports.

(** ** How the selection is drawn *)

Section SelectionStyles.
Context `{G : Geometry}.
Import Layout HullGenerator GraphEngine Listeners.

Lemma currentTheme_update e :
  Renderer.currentTheme (renderer (update e)) = Renderer.currentTheme (renderer e).
Proof. by apply (update_renderer Renderer.currentTheme). Qed.

Lemma currentTheme_notify f e :
  Renderer.currentTheme (renderer (notify f e)) = Renderer.currentTheme (renderer e).
Proof. unfold notify. by destruct (onSelectionChange e). Qed.

Lemma currentTheme_handleNodeClick i c e :
  Renderer.currentTheme (renderer (handleNodeClick i c e))
  = Renderer.currentTheme (renderer e).
Proof.
  unfold handleNodeClick. destruct (c =? 2); [|done].
  destruct (findNode (layout e) i) as [r|]; [|done]. cbn [layout].
  destruct (store (layout e) !! r) as [node|]; [|done]. cbv zeta.
  rewrite currentTheme_notify. cbn [renderer effect]. by rewrite currentTheme_update.
Qed.

Lemma currentTheme_handleHullClick i c e :
  Renderer.currentTheme (renderer (handleHullClick i c e))
  = Renderer.currentTheme (renderer e).
Proof.
  unfold handleHullClick. destruct (c =? 2); [|done]. cbv zeta.
  rewrite currentTheme_notify.
  destruct (Nat.ltb 0 _); cbn [renderer effect]; by rewrite currentTheme_update.
Qed.

(** X29.  What a double click makes of the drawing.  After a double
    click on a node of the layout, that node is drawn red at scale 1.6,
    every other node at the far end of one of its links blue at scale 1.3,
    and all the others dimmed to alpha 0.35 at scale 0.8.  After a double
    click on a plate, the nodes whose directory is the plate's id are drawn
    at scale 1.2 with the dark stroke, and the others dimmed to alpha
    0.25. *)
Theorem double_click_styles (e : t) (n : GraphNode) :
  let pal := Renderer.palette (Renderer.currentTheme (renderer e)) in
  (forall i r,
     findNode (layout e) i = Some r ->
     let style := Renderer.nodeStyle (renderer (handleNodeClick i 2 e)) n in
     let linked :=
       exists link s t,
         link ∈ links (layout e)
         /\ idOf (layout e) (source link) = Some s
         /\ idOf (layout e) (target link) = Some t
         /\ (s = i /\ id n = t \/ t = i /\ id n = s) in
     (id n = i ->
      style = {| Renderer.alpha := 1; Renderer.scale := 8 # 5;
                 Renderer.fillColor := Renderer.RED pal;
                 Renderer.strokeColor := Renderer.RED pal |})
     /\ (id n <> i -> linked ->
         style = {| Renderer.alpha := 1; Renderer.scale := 13 # 10;
                    Renderer.fillColor := Renderer.BLUE pal;
                    Renderer.strokeColor := Renderer.BLUE pal |})
     /\ (id n <> i -> ~ linked ->
         style = {| Renderer.alpha := 7 # 20; Renderer.scale := 4 # 5;
                    Renderer.fillColor := 0xFFFFFF;
                    Renderer.strokeColor := Renderer.STROKE pal |}))
  /\ (forall c,
        Renderer.nodeStyle (renderer (handleHullClick c 2 e)) n
        = if String.eqb (directory n) c
          then {| Renderer.alpha := 1; Renderer.scale := 6 # 5;
                  Renderer.fillColor := 0xFFFFFF;
                  Renderer.strokeColor := Renderer.DARKTEXT pal |}
          else {| Renderer.alpha := 1 # 4; Renderer.scale := 1;
                  Renderer.fillColor := 0xFFFFFF;
                  Renderer.strokeColor := Renderer.STROKE pal |}).
Proof.
  intros pal. split.
  - intros i r Hfind style linked.
    pose proof (selection_handleNodeClick_double i e r Hfind) as Hsel.
    unfold selection in Hsel. injection Hsel as Hs Hn Hc _.
    pose proof (currentTheme_handleNodeClick i 2 e) as Ht.
    destruct (fold_addNeighbors_spec (layout e) i (links (layout e)) [] (NoDup_nil_2))
      as [_ Hin].
    assert (id n ∈ Renderer.highlightNeighbors (renderer (handleNodeClick i 2 e))
            <-> linked) as Hlinked.
    { rewrite Hn, Hin. split; [|by right]. by intros [?%elem_of_nil|?]. }
    subst style. unfold Renderer.nodeStyle. rewrite Ht, Hs. fold pal.
    split; [|split].
    + intros ->. by rewrite String.eqb_refl.
    + intros Hne Hl. apply String.eqb_neq in Hne as ->.
      by rewrite bool_decide_eq_true_2 by (by apply Hlinked).
    + intros Hne Hl. apply String.eqb_neq in Hne as ->.
      by rewrite bool_decide_eq_false_2 by (by rewrite Hlinked).
  - intros c. pose proof (selection_handleHullClick_double c e) as Hsel.
    unfold selection in Hsel. injection Hsel as Hs Hn Hc _.
    pose proof (currentTheme_handleHullClick c 2 e) as Ht.
    unfold Renderer.nodeStyle. by rewrite Ht, Hs, Hc.
Qed.

End SelectionStyles.

(** ** A from-import of Python *)

Section PythonStatement.
Import Regex RegexParser.

(** A greedy star of a class runs to the end of the run of characters of
    the class. *)
Lemma greedy_star_run {A : Type} p (k : nat -> list ascii -> captures -> option A)
    rest cs a :
  match rest with
  | [] => True
  | c :: _ => p c = false
  end ->
  forall w fuel pos,
    Forall (fun c => p c = true) w ->
    (List.length w <= fuel)%nat ->
    k (pos + List.length w)%nat rest cs = Some a ->
    starLoop (fun pos s cs k => matchRe (Cls p) pos s cs k) true k fuel pos (w ++ rest) cs
    = Some a.
Proof.
  intros Hstop. induction w as [|c w IH]; intros fuel pos Hw Hfuel Hk.
  - rewrite starLoop_eq. cbn [app List.length] in *. rewrite Nat.add_0_r in Hk.
    cbv zeta. destruct fuel as [|fuel].
    + by rewrite Hk.
    + destruct rest as [|c rest']; cbn [matchRe]; [by rewrite Hk|].
      by rewrite Hstop, Hk.
  - apply Forall_cons in Hw as [Hc Hw].
    destruct fuel as [|fuel]; [cbn in Hfuel; lia|].
    rewrite starLoop_eq. cbv zeta. cbn [app]. rewrite matchRe_Cls, Hc.
    replace (Nat.ltb (List.length (w ++ rest)) (List.length (c :: w ++ rest))) with true
      by (symmetry; apply Nat.ltb_lt; cbn; lia).
    rewrite (IH fuel (S pos)); [done|done|cbn in Hfuel; lia|].
    cbn [List.length] in Hk. by rewrite Nat.add_succ_r in Hk.
Qed.

Lemma greedy_plus_run {A : Type} p (k : nat -> list ascii -> captures -> option A)
    w rest cs pos a :
  match rest with
  | [] => True
  | c :: _ => p c = false
  end ->
  w <> [] ->
  Forall (fun c => p c = true) w ->
  k (pos + List.length w)%nat rest cs = Some a ->
  matchRe (Plus true (Cls p)) pos (w ++ rest) cs k = Some a.
Proof.
  intros Hstop Hne Hw Hk. destruct w as [|c w]; [done|].
  apply Forall_cons in Hw as [Hc Hw].
  unfold Plus. rewrite matchRe_Seq. cbn [app]. rewrite matchRe_Cls, Hc, matchRe_Star.
  apply greedy_star_run; [done|done|rewrite List.length_app; lia|].
  cbn [List.length] in Hk. by rewrite Nat.add_succ_r in Hk.
Qed.

Lemma word_not_space c : isWord c || oneOf "." c = true -> isSpace c = false.
Proof.
  destruct c as [[] [] [] [] [] [] [] []]; vm_compute; intros Hc; try reflexivity;
    discriminate.
Qed.

Lemma word_run_stops (m rest : list ascii) :
  m <> [] -> Forall (fun c => isWord c || oneOf "." c = true) m ->
  match m ++ rest with
  | [] => True
  | c :: _ => isSpace c = false
  end.
Proof.
  intros Hne Hm. destruct m as [|c m]; [done|]. cbn.
  apply Forall_cons in Hm as [Hc _]. by apply word_not_space.
Qed.

(** The pattern of Python on a keyword, a space and a module. *)
Lemma pythonRegex_complete lead keyword m rest pos :
  (lead = [] /\ pos = 0%nat \/ lead = [" "%char] /\ pos <> 0%nat) ->
  keyword = "from" \/ keyword = "import" ->
  m <> [] -> Forall (fun c => isWord c || oneOf "." c = true) m ->
  match rest with
  | [] => True
  | c :: _ => isWord c || oneOf "." c = false
  end ->
  matchAt pythonRegex pos
    (lead ++ list_ascii_of_string keyword ++ " "%char :: m ++ rest)
  = Some ((pos + List.length lead + String.length keyword + 1 + List.length m)%nat,
          [(1%nat, m)]).
Proof.
  intros Hlead Hkw Hne Hm Hrest. unfold matchAt, pythonRegex.
  rewrite matchRe_Seq.
  set (k := fun pos' s' cs' => matchRe _ pos' s' cs' _).
  assert (forall pos', k pos' (list_ascii_of_string keyword ++ " "%char :: m ++ rest) []
                       = Some ((pos' + String.length keyword + 1 + List.length m)%nat,
                               [(1%nat, m)])) as Hk.
  { intros pos'. unfold k. rewrite matchRe_Seq.
    assert (forall (K : nat -> list ascii -> captures -> option (nat * captures)) s a,
              K (pos' + String.length keyword)%nat s [] = Some a ->
              matchRe (Alt (lit "from") (lit "import")) pos'
                (list_ascii_of_string keyword ++ s) [] K = Some a) as Halt.
    { intros K s a HK. destruct Hkw as [-> | ->].
      - cbn [matchRe]. unfold lit at 1. rewrite matchRe_Lit by done.
        change (List.length (list_ascii_of_string "from")) with (String.length "from").
        by rewrite HK.
      - cbn [matchRe].
        change (matchRe (lit "from") pos' (list_ascii_of_string "import" ++ s) [] K)
          with (@None (nat * captures)).
        unfold lit. rewrite matchRe_Lit by done.
        change (List.length (list_ascii_of_string "import"))
          with (String.length "import").
        by rewrite HK. }
    set (K := fun pos'0 s' cs' => matchRe _ pos'0 s' cs' _).
    assert (K (pos' + String.length keyword)%nat (" "%char :: m ++ rest) []
            = Some ((pos' + String.length keyword + 1 + List.length m)%nat, [(1%nat, m)]))
      as HK.
    { unfold K. rewrite matchRe_Seq.
      apply (greedy_plus_run isSpace _ [" "%char] (m ++ rest)).
      - by apply word_run_stops.
      - done.
      - by repeat constructor.
      - rewrite matchRe_Grp. apply greedy_plus_run; [done|done|done|].
        match goal with
        | |- context [firstn ?n (m ++ rest)] =>
            replace (firstn n (m ++ rest)) with m; [done|];
            replace n with (List.length m) by (cbn [List.length]; lia)
        end.
        by rewrite firstn_app, Nat.sub_diag, firstn_all, firstn_O, List.app_nil_r. }
    by apply Halt. }
  destruct Hlead as [[-> ->]|[-> Hpos]].
  - cbn [matchRe app Nat.eqb]. by rewrite Hk.
  - cbn [matchRe app]. apply Nat.eqb_neq in Hpos as ->.
    change (isSpace " ") with true. cbv iota. rewrite Hk. f_equal. f_equal.
    cbn [List.length]. lia.
Qed.

Lemma search_here r pos s m : matchAt r pos s = Some m -> search r pos s = Some m.
Proof. intros Hm. destruct s; cbn [search]; by rewrite Hm. Qed.

Lemma search_end r pos : nonEmpty r = true -> search r pos [] = None.
Proof.
  intros Hne. cbn [search]. destruct (matchAt r pos []) as [[j cs]|] eqn:Hm; [|done].
  apply matchAt_sound in Hm as (w & s' & Hnil & Hw & _).
  apply lang_nonEmpty in Hw; [|done]. by destruct w.
Qed.

Lemma execAll_two {St : Type} r text (body : captures -> St -> St) st j1 cs1 j2 cs2 fuel :
  search r 0 text = Some (j1, cs1) ->
  search r j1 (skipn j1 text) = Some (j2, cs2) ->
  search r j2 (skipn j2 text) = None ->
  execAll (S (S (S fuel))) r text 0 body st = body cs2 (body cs1 st).
Proof.
  intros H1 H2 H3. cbn [execAll]. change (skipn 0 text) with text.
  by rewrite H1, H2, H3.
Qed.

(** X30.  A from-import of Python is reported twice over: for the text
    [from], a module, [import] and a name, with single spaces between, the
    imports are the module and the name as well. *)
Theorem parseImports_python_from_import (m n : list ascii) :
  m <> [] -> n <> [] ->
  Forall (fun c => isWord c || oneOf "." c = true) m ->
  Forall (fun c => isWord c || oneOf "." c = true) n ->
  m <> n ->
  parseImports
    (string_of_list_ascii
       (list_ascii_of_string "from " ++ m ++ list_ascii_of_string " import " ++ n))
    "python"
  = Resolved [string_of_list_ascii m; string_of_list_ascii n].
Proof.
  intros Hm Hn Hwm Hwn Hmn. unfold parseImports. cbv zeta.
  change (String.eqb "python" "go") with false.
  change (regexes "python") with (Some pythonRegex).
  change (isJsTs "python") with false. cbv iota.
  rewrite list_ascii_of_string_of_list_ascii. f_equal.
  set (text := list_ascii_of_string "from " ++ m ++ list_ascii_of_string " import " ++ n).
  assert (exists fuel, List.length text = S (S fuel)) as [fuel ->].
  { subst text. cbn [list_ascii_of_string app List.length]. by eexists. }
  rewrite (execAll_two pythonRegex text _ _ (5 + List.length m)%nat [(1%nat, m)]
             (5 + List.length m + 8 + List.length n)%nat [(1%nat, n)]).
  - unfold addGroup1IfTruthy. cbn [capture List.find fst snd Nat.eqb fmap option_fmap
                                     option_map].
    destruct m as [|c m']; [done|]. destruct n as [|d n']; [done|].
    unfold JS.setAdd.
    rewrite (bool_decide_eq_false_2 (_ ∈ [])) by apply not_elem_of_nil.
    cbn [app]. rewrite bool_decide_eq_false_2; [done|].
    intros Heq%list_elem_of_singleton.
    apply (f_equal list_ascii_of_string) in Heq.
    rewrite !list_ascii_of_string_of_list_ascii in Heq. congruence.
  - apply search_here. subst text.
    pose proof (pythonRegex_complete [] "from" m (list_ascii_of_string " import " ++ n) 0
                  (or_introl (conj eq_refl eq_refl)) (or_introl eq_refl) Hm Hwm eq_refl) as Hp.
    exact Hp.
  - subst text.
    replace (skipn (5 + List.length m)
               (list_ascii_of_string "from " ++ m ++ list_ascii_of_string " import " ++ n))
      with (list_ascii_of_string " import " ++ n).
    2:{ rewrite List.app_assoc.
        replace (5 + List.length m)%nat
          with (List.length (list_ascii_of_string "from " ++ m))
          by (rewrite List.length_app; done).
        by rewrite drop_app_length. }
    apply search_here.
    pose proof (pythonRegex_complete [" "%char] "import" n [] (5 + List.length m)
                  (or_intror (conj eq_refl (Nat.neq_succ_0 _))) (or_intror eq_refl) Hn Hwn I) as Hp.
    rewrite List.app_nil_r in Hp.
    change ([" "%char] ++ list_ascii_of_string "import" ++ " "%char :: n)
      with (list_ascii_of_string " import " ++ n) in Hp.
    rewrite Hp. f_equal. f_equal. cbn [List.length String.length]. lia.
  - subst text. rewrite skipn_all2; [by apply search_end|].
    rewrite !List.length_app. cbn [List.length list_ascii_of_string]. lia.
Qed.

End PythonStatement.

(** ** The theorems at work on the example workspace and engine *)

Section MoreExamples.
Import DependencyService Layout HullGenerator GraphEngine Listeners.

Lemma generate_edge_provenance_witness :
  generates Example.config "/r" Example.files Example.graph
  /\ {| edgeId := "e0-1"; DependencyService.source := "0";
        DependencyService.target := "1" |} ∈ graphEdges Example.graph.
Proof.
  split; [exact generates_graph|].
  apply (generate_edge_provenance Example.config "/r" Example.files Example.graph _
           generates_graph).
  exists {| fsPath := "/r/a.ts" |},
         "import { b } from './b'; import { a } from './a';",
         ["./b"; "./a"], "./b", "/r/b.ts", "0", "1".
  split; [by left|].
  split; [elem_of_computed|].
  split; [vm_compute; reflexivity|].
  split; [vm_compute; reflexivity|].
  split; [by left|].
  split; [elem_of_computed|].
  split; [vm_compute; reflexivity|].
  split; [vm_compute; reflexivity|].
  split; [discriminate|reflexivity].
Defined.

Lemma resolveImport_relative_witness :
  JS.startsWith "." "./b" = true
  /\ value (resolveImport "./b" "/r/a.ts" "/r" Example.files) = ["/r/b.ts"]
  /\ Forall (fun c => callPath c
                      ∈ "/r/b" :: map (fun ext => "/r/b" +:+ ext) extensions)
            (calls (resolveImport "./b" "/r/a.ts" "/r" Example.files)).
Proof.
  assert (value (checkFile (path.resolve (path.dirname "/r/a.ts") "./b")) = ["/r/b.ts"])
    as Hv by (vm_compute; reflexivity).
  destruct (resolveImport_relative "./b" "/r/a.ts" "/r" Example.files eq_refl)
    as (Hcalls & Hfile & _).
  split; [reflexivity|]. split.
  - rewrite Hfile; [exact Hv|]. rewrite Hv. discriminate.
  - exact Hcalls.
Defined.

Lemma parseImports_NoDup_witness :
  RegexParser.parseImports "from 'a'; from 'b'; from 'a'" "typescript"
  = RegexParser.Resolved ["a"; "b"]
  /\ NoDup ["a"; "b"].
Proof.
  assert (RegexParser.parseImports "from 'a'; from 'b'; from 'a'" "typescript"
          = RegexParser.Resolved ["a"; "b"]) as Hp by (vm_compute; reflexivity).
  split; [exact Hp|]. exact (parseImports_NoDup _ _ _ Hp).
Defined.

Lemma parseImports_no_empty_import_witness :
  "typescript" <> "go"
  /\ RegexParser.parseImports "from ''; from 'a'" "typescript" = RegexParser.Resolved ["a"]
  /\ "" ∉ ["a"].
Proof.
  assert ("typescript" <> "go") as Hgo by discriminate.
  assert (RegexParser.parseImports "from ''; from 'a'" "typescript"
          = RegexParser.Resolved ["a"]) as Hp by (vm_compute; reflexivity).
  split; [exact Hgo|]. split; [exact Hp|].
  exact (parseImports_no_empty_import _ _ _ Hgo Hp).
Defined.

Lemma parseImports_js_sound_witness :
  RegexParser.isJsTs "javascript" = true
  /\ RegexParser.parseImports "const b = require('./b')" "javascript"
     = RegexParser.Resolved ["./b"]
  /\ RegexParser.jsImport (list_ascii_of_string "const b = require('./b')")
                          (list_ascii_of_string "./b").
Proof.
  assert (RegexParser.parseImports "const b = require('./b')" "javascript"
          = RegexParser.Resolved ["./b"]) as Hp by (vm_compute; reflexivity).
  split; [reflexivity|]. split; [exact Hp|].
  apply (parseImports_js_sound _ "javascript" ["./b"] "./b" eq_refl Hp).
  by left.
Defined.

Lemma execAll_ends_witness :
  RegexParser.fromRegex
  ∈ [RegexParser.fromRegex; RegexParser.pythonRegex; RegexParser.goRegex;
     RegexParser.javaRegex; RegexParser.includeRegex; RegexParser.singleLine;
     RegexParser.blockRegex; RegexParser.requireRegex]
  /\ (S (List.length (list_ascii_of_string "from 'a'")) <= 100)%nat
  /\ Regex.execAll 100 RegexParser.fromRegex (list_ascii_of_string "from 'a'") 0
       RegexParser.addGroup1IfTruthy []
     = Regex.execAll (S (List.length (list_ascii_of_string "from 'a'")))
         RegexParser.fromRegex (list_ascii_of_string "from 'a'") 0
         RegexParser.addGroup1IfTruthy [].
Proof.
  assert (RegexParser.fromRegex
          ∈ [RegexParser.fromRegex; RegexParser.pythonRegex; RegexParser.goRegex;
             RegexParser.javaRegex; RegexParser.includeRegex; RegexParser.singleLine;
             RegexParser.blockRegex; RegexParser.requireRegex]) as Hr by (by left).
  assert (S (List.length (list_ascii_of_string "from 'a'")) <= 100)%nat as Hfuel
    by (vm_compute; lia).
  split; [exact Hr|]. split; [exact Hfuel|].
  exact (execAll_ends _ _ _ _ _ Hr Hfuel).
Defined.

Lemma parseImports_import_statement_witness :
  RegexParser.parseImports "import { b } from './b';" "typescript"
  = RegexParser.Resolved ["./b"].
Proof.
  apply (parseImports_import_statement "typescript"
           (list_ascii_of_string "import { b } ") (list_ascii_of_string "./b")
           (list_ascii_of_string ";") "'"%char "'"%char).
  - reflexivity.
  - reflexivity.
  - reflexivity.
  - repeat constructor.
  - repeat constructor.
  - repeat constructor.
Defined.

Lemma handleNodeClick_neighbors_witness :
  findNode (layout Example.engine) "1" = Some 1%nat
  /\ Renderer.highlightNeighbors (renderer (handleNodeClick "1" 2 Example.engine)) = ["0"]
  /\ NoDup (Renderer.highlightNeighbors (renderer (handleNodeClick "1" 2 Example.engine))).
Proof.
  assert (findNode (layout Example.engine) "1" = Some 1%nat) as Hf
    by (vm_compute; reflexivity).
  split; [exact Hf|]. split; [vm_compute; reflexivity|].
  exact (proj1 (handleNodeClick_neighbors Example.engine "1" 1%nat Hf)).
Defined.

Lemma drag_gesture_witness :
  Renderer.nodesMap (renderer Example.engine) !! "0" = Some Example.sprite0
  /\ findNode (layout Example.engine) "0" = Some 0%nat
  /\ clicks (run (run Example.engine [NodeDown "0"; NodeMove "0" 7 9]) [NodeUp "0" 1000])
     = clicks Example.engine
  /\ panEnabled (run Example.engine [NodeDown "0"; NodeMove "0" 7 9]) = false.
Proof.
  assert (Renderer.nodesMap (renderer Example.engine) !! "0" = Some Example.sprite0) as Hsp
    by (vm_compute; reflexivity).
  assert (findNode (layout Example.engine) "0" = Some 0%nat) as Hf
    by (vm_compute; reflexivity).
  destruct (drag_gesture Example.engine "0" Example.sprite0 0%nat 7 9 1000 Hsp Hf)
    as (Hpan & _ & Hclicks & _).
  split; [exact Hsp|]. split; [exact Hf|]. split; [exact Hclicks|exact Hpan].
Defined.

Lemma plate_press_after_render_witness :
  isRunning Example.engine = true
  /\ 300 <= 1000
  /\ Renderer.hullLayer (renderer (update Example.engine)) = [2%nat; 3%nat]
  /\ exists p,
       p ∈ snd (computeLandforms (getNodes (layout Example.engine))
                  (getColor Example.engine))
       /\ clicks (platePointerDown 2%nat 1000 (update Example.engine))
          = clicks Example.engine ++ [onClickHull (hullId p) 1].
Proof.
  assert (isRunning Example.engine = true) as Hrun by (vm_compute; reflexivity).
  assert (300 <= 1000) as Hnow by lia.
  assert (Renderer.hullLayer (renderer (update Example.engine)) = [2%nat; 3%nat]) as Hl
    by (vm_compute; reflexivity).
  assert (2%nat ∈ Renderer.hullLayer (renderer (update Example.engine))) as Hin
    by (rewrite Hl; by left).
  split; [exact Hrun|]. split; [exact Hnow|]. split; [exact Hl|].
  destruct (plate_press_after_render Example.engine 2%nat 1000 Hrun Hnow Hin)
    as (p & Hp & Hc & _).
  exists p. split; [exact Hp|exact Hc].
Defined.

Lemma computeLandforms_landmass_witness :
  (forall points, polygonHull points = None -> (List.length points < 3)%nat)
  /\ (3 <= List.length Example.threeNodes)%nat
  /\ exists landPoly,
       fst (computeLandforms Example.threeNodes (fun d => d))
       = Some {| hullId := "global_landmass"; path := landPoly;
                 color := "#111111"; type := landmass |}.
Proof.
  assert (forall points : list point,
            polygonHull points = None -> (List.length points < 3)%nat) as Hhull.
  { intros points. unfold polygonHull, Example.boxGeometry.
    destruct (Nat.ltb_spec (List.length points) 3) as [Hlt|Hge]; [done|discriminate]. }
  assert (3 <= List.length Example.threeNodes)%nat as Hlen by (vm_compute; lia).
  split; [exact Hhull|]. split; [exact Hlen|].
  destruct (computeLandforms_landmass Example.threeNodes (fun d => d) Hhull)
    as (_ & _ & Hsome).
  destruct (Hsome Hlen) as (landPoly & _ & Heq). by exists landPoly.
Defined.

Lemma parseImports_go_sound_witness :
  RegexParser.parseImports RegexParser.goBlock "go" = RegexParser.Resolved ["fmt"; "os"]
  /\ RegexParser.goImport (list_ascii_of_string RegexParser.goBlock)
                          (list_ascii_of_string "os").
Proof.
  assert (RegexParser.parseImports RegexParser.goBlock "go"
          = RegexParser.Resolved ["fmt"; "os"]) as Hp by (vm_compute; reflexivity).
  split; [exact Hp|].
  apply (parseImports_go_sound RegexParser.goBlock ["fmt"; "os"] "os" Hp).
  right. by left.
Defined.

Lemma plate_double_click_focus_witness :
  exists p,
    p ∈ snd (computeLandforms (getNodes (layout Example.engine)) (getColor Example.engine))
    /\ hullId p = "src"
    /\ members "src" (getNodes (layout Example.engine)) <> [].
Proof.
  assert (exists p,
            p ∈ snd (computeLandforms (getNodes (layout Example.engine))
                       (getColor Example.engine))
            /\ hullId p = "src") as (p & Hp & Hid).
  { eexists. split; [vm_compute; left|reflexivity]. }
  exists p. split; [exact Hp|]. split; [exact Hid|].
  rewrite <- Hid. exact (proj1 (plate_double_click_focus Example.engine p Hp)).
Defined.

Lemma plate_fill_color_witness :
  exists p,
    p ∈ snd (computeLandforms Example.threeNodes (getColor Example.engine))
    /\ hullId p = "src"
    /\ Renderer.plateFill (color p)
       = Some (JS.band (Color.hashOf (JS.charCodes "src")) 16777215).
Proof.
  assert (exists p,
            p ∈ snd (computeLandforms Example.threeNodes (getColor Example.engine))
            /\ hullId p = "src") as (p & Hp & Hid).
  { eexists. split; [vm_compute; left|reflexivity]. }
  exists p. split; [exact Hp|]. split; [exact Hid|].
  rewrite <- Hid. exact (proj1 (plate_fill_color Example.engine Example.threeNodes p Hp)).
Defined.

Lemma pan_disabled_no_pan_witness :
  forallb InputManager.keepsPanOff
    [InputManager.Down true 1 1; InputManager.Move 5 5; InputManager.Up] = true
  /\ InputManager.pans
       (InputManager.run (InputManager.setPanEnabled false InputManager.create)
          [InputManager.Down true 1 1; InputManager.Move 5 5; InputManager.Up])
     = []
  /\ InputManager.pans
       (InputManager.run InputManager.create
          [InputManager.Down true 1 1; InputManager.Move 5 5; InputManager.Up])
     = [(4, 4)].
Proof.
  split; [reflexivity|]. split; [|reflexivity].
  exact (proj1 (pan_disabled_no_pan InputManager.create
                  [InputManager.Down true 1 1; InputManager.Move 5 5; InputManager.Up]
                  eq_refl)).
Defined.

Lemma generate_errors_witness :
  errorsOf Example.config "/r" [{| fsPath := "/r/gone.ts" |}] = ["gone.ts"]
  /\ fst (edgesOfFile Example.config ∅ "/r" [{| fsPath := "/r/gone.ts" |}]
            {| fsPath := "/r/gone.ts" |}) = [].
Proof.
  destruct (generate_errors Example.config "/r" [{| fsPath := "/r/gone.ts" |}])
    as [Herr Hedges].
  split.
  - rewrite Herr. vm_compute. reflexivity.
  - apply Hedges. right. vm_compute. reflexivity.
Defined.

Lemma parseImports_unknown_language_witness :
  RegexParser.parseImports "use std::fmt;" "constructor" = RegexParser.Rejected
  /\ RegexParser.parseImports "use std::fmt;" "rust" = RegexParser.Resolved [].
Proof.
  split.
  - apply (proj1 (parseImports_unknown_language "use std::fmt;" "constructor")).
    reflexivity.
  - apply (proj2 (parseImports_unknown_language "use std::fmt;" "rust"));
      [discriminate|reflexivity|reflexivity].
Defined.

Lemma selection_mirrored_witness :
  mirrored (run create [Init Example.layout; Tick; NodeDown "1"; NodeUp "1" 1000;
                        NodeDown "1"; NodeUp "1" 1100])
  /\ selectedNodeId (run create [Init Example.layout; Tick; NodeDown "1"; NodeUp "1" 1000;
                                 NodeDown "1"; NodeUp "1" 1100]) = Some "1".
Proof.
  split; [|vm_compute; reflexivity].
  exact (proj2 selection_mirrored _).
Defined.

Lemma drag_composition_witness :
  store Example.layout !! 7%nat = None
  /\ store (dragMove Example.layout 7%nat 1 2) = store Example.layout
  /\ dragEnd (dragMove Example.layout 1%nat 1 2) 1%nat = dragEnd Example.layout 1%nat.
Proof.
  destruct (drag_composition Example.layout 7%nat 1 2 3 4) as (_ & _ & _ & _ & Hnone).
  destruct (drag_composition Example.layout 1%nat 1 2 3 4) as (_ & Hend & _).
  assert (store Example.layout !! 7%nat = None) as H7 by (vm_compute; reflexivity).
  split; [exact H7|]. split; [exact (proj1 (Hnone H7))|exact Hend].
Defined.

Lemma languageOf_supported_witness :
  default "" (languageOf Example.config {| fsPath := "/r/a.ts" |}) ∈ supported
  /\ default "" (languageOf {| languageMapping := {[ ".cpp" := "C++" ]} |}
                            {| fsPath := "/r/main.CPP" |}) ∉ supported.
Proof.
  split.
  - apply (proj1 (languageOf_supported Example.config {| fsPath := "/r/a.ts" |})).
    right. right. exists "TypeScript". split; [vm_compute; reflexivity|elem_of_computed].
  - apply (proj2 (languageOf_supported {| languageMapping := {[ ".cpp" := "C++" ]} |}
                    {| fsPath := "/r/main.CPP" |})) with (language := "C++").
    + vm_compute. intros Heq. discriminate Heq.
    + vm_compute. intros Heq. discriminate Heq.
    + vm_compute. reflexivity.
    + elem_of_computed.
Defined.

Lemma stage_drag_is_no_click_witness :
  ltb (hypot (sub 10 0) (sub 0 0)) (ofZ 5) = false
  /\ clicks (run Example.engine [StageDown true (0, 0); StageUp true (10, 0) 1000])
     = clicks Example.engine
  /\ selection (run Example.engine [StageDown true (0, 0); StageUp true (10, 0) 1000])
     = selection Example.engine.
Proof.
  assert (ltb (hypot (sub 10 0) (sub 0 0)) (ofZ 5) = false) as Hfar
    by (vm_compute; reflexivity).
  destruct (stage_drag_is_no_click Example.engine (0, 0) (10, 0) true 1000 (or_introl Hfar))
    as (Hc & _ & Hs & _).
  split; [exact Hfar|]. split; [exact Hc|exact Hs].
Defined.

Lemma parseImports_word_sound_witness :
  RegexParser.parseImports "import os.path" "python" = RegexParser.Resolved ["os.path"]
  /\ RegexParser.pythonImport (list_ascii_of_string "import os.path")
                              (list_ascii_of_string "os.path").
Proof.
  assert (RegexParser.parseImports "import os.path" "python"
          = RegexParser.Resolved ["os.path"]) as Hp by (vm_compute; reflexivity).
  assert ("os.path" ∈ ["os.path"]) as Hin by (by left).
  split; [exact Hp|].
  exact (proj2 (proj2 (proj1 (parseImports_word_sound "import os.path" ["os.path"] "os.path"
                                Hin) Hp))).
Defined.

Lemma double_click_styles_witness :
  findNode (layout Example.engine) "1" = Some 1%nat
  /\ Renderer.nodeStyle (renderer (handleNodeClick "1" 2 Example.engine))
                        (Example.mkNode "0" "src" 0 0)
     = {| Renderer.alpha := 1; Renderer.scale := 13 # 10;
          Renderer.fillColor := 0x0077B6; Renderer.strokeColor := 0x0077B6 |}.
Proof.
  assert (findNode (layout Example.engine) "1" = Some 1%nat) as Hf
    by (vm_compute; reflexivity).
  split; [exact Hf|].
  destruct (proj1 (double_click_styles Example.engine (Example.mkNode "0" "src" 0 0))
              "1" 1%nat Hf) as (_ & Hblue & _).
  apply Hblue; [discriminate|].
  exists {| source := 0%nat; target := 1%nat |}, "0", "1".
  split; [vm_compute; left|]. split; [vm_compute; reflexivity|].
  split; [vm_compute; reflexivity|]. right. by split.
Defined.

Lemma parseImports_python_from_import_witness :
  RegexParser.parseImports "from os import path" "python"
  = RegexParser.Resolved ["os"; "path"].
Proof.
  apply (parseImports_python_from_import (list_ascii_of_string "os")
           (list_ascii_of_string "path")).
  - discriminate.
  - discriminate.
  - repeat constructor.
  - repeat constructor.
  - discriminate.
Defined.

End MoreExamples.
